(** * The chain porter of tapfreighter: a shallow embedding and its properties

    The development follows [tapfreighter/chain_porter.go].  The porter drives
    a [sendPackage] through the send states by calling into its collaborators
    (asset wallet, chain bridge, key ring, export log, proof archive, proof
    courier).  A collaborator is an interface in the source; here it is a record
    of functions that answer a call from the history of all calls made so far,
    so that a theorem quantified over the records speaks about every
    deterministic collaborator.  The porter itself is written in a small
    state-and-error monad over the [World]: the call history and the quit
    signal. *)

From Stdlib Require Import ZArith NArith List String Ascii Bool Lia.
From stdpp Require Import base option list sorting gmap strings pretty.

Open Scope Z_scope.
Open Scope string_scope.
Open Scope list_scope.

(** ** Errors

    Go errors are values with a message and a chain of wrapped errors.
    [fmt.Errorf] with the verb [%w] keeps the wrapped error in the chain,
    with [%v] only its text. *)

Inductive error : Type :=
| errorNew (msg : string)
| BackoffExecError (msg : string)
| errorWrap (prefix : string) (inner : error).

Fixpoint Error (e : error) : string :=
  match e with
  | errorNew msg => msg
  | BackoffExecError msg => msg
  | errorWrap prefix inner => prefix +:+ Error inner
  end.

(** [errors.As(err, &backoffExecErr)] with a target of type
    [*proof.BackoffExecError]: walks the chain of wrapped errors. *)
Fixpoint errors_As_BackoffExecError (e : error) : bool :=
  match e with
  | errorNew _ => false
  | BackoffExecError _ => true
  | errorWrap _ inner => errors_As_BackoffExecError inner
  end.

Definition Errorf_w (prefix : string) (e : error) : error := errorWrap prefix e.
Definition Errorf_v (prefix : string) (e : error) : error :=
  errorNew (prefix +:+ Error e).

(** [strings.Contains(s, substr)]. *)
Definition strings_Contains (s substr : string) : bool :=
  match String.index 0 substr s with
  | Some _ => true
  | None => false
  end.

Arguments strings_Contains : simpl never.
Arguments Errorf_w : simpl never.
Arguments Errorf_v : simpl never.

(** The outcome of a call: a value, a returned error, or a run-time panic
    (nil dereference, index out of range). *)
Inductive result (A : Type) : Type :=
| Ok (a : A)
| Err (e : error)
| Panic (msg : string).
Arguments Ok {A} a.
Arguments Err {A} e.
Arguments Panic {A} msg.

Definition is_Ok {A} (r : result A) : bool :=
  match r with Ok _ => true | _ => false end.

(** ** Fixed-width integers *)

Definition wrap_signed (bits : Z) (z : Z) : Z :=
  (z + 2 ^ (bits - 1)) mod 2 ^ bits - 2 ^ (bits - 1).

(** [int32(x)] and [int(x)] of an unsigned 32-bit [x]; [int] has 64 bits. *)
Definition int32 (x : Z) : Z := wrap_signed 32 x.
Definition int (x : Z) : Z := wrap_signed 64 x.
Definition is_uint32 (x : Z) : Prop := 0 <= x < 2 ^ 32.

(** ** Data of the packages the porter uses *)

(** A public key stands for its 33-byte compressed serialization read as a
    number; so does [asset.SerializedKey], and [asset.ID] for its 32 bytes. *)
Abbreviation PublicKey := N (only parsing).
Abbreviation SerializedKey := N (only parsing).
Abbreviation Blob := (list Byte.byte) (only parsing).
Abbreviation Hash := N (only parsing).

Definition ToSerialized (k : PublicKey) : SerializedKey := k.
Definition IsEqual (a b : PublicKey) : bool := N.eqb a b.

Definition hex_digit (d : N) : ascii :=
  nth (N.to_nat d)
    ["0"; "1"; "2"; "3"; "4"; "5"; "6"; "7"; "8"; "9";
     "a"; "b"; "c"; "d"; "e"; "f"]%char "0"%char.

Fixpoint hex_fixed (digits : nat) (x : N) (acc : string) : string :=
  match digits with
  | O => acc
  | S n => hex_fixed n (x / 16)%N (String (hex_digit (x mod 16)%N) acc)
  end.

(** [fmt] of [key.SerializeCompressed()] under the verb [%x]. *)
Definition SerializeCompressed_x (k : PublicKey) : string := hex_fixed 66 k "".
Arguments SerializeCompressed_x : simpl never.

Module wire.
Record TxOutT := { Value : Z; PkScript : Blob }.
Record OutPoint := { op_Hash : Hash; Index : Z }.
Record MsgTx := { TxIn : list OutPoint; TxOut : list TxOutT; LockTime : Z }.
Record MsgBlock := { Header : N; Transactions : list MsgTx }.
End wire.

Module asset.
Abbreviation ID := N (only parsing).
Record TweakedScriptKey := { RawKey : N; Tweak : Blob }.
Record ScriptKey :=
  { PubKey : PublicKey; TweakedScriptKey_ : option TweakedScriptKey }.
End asset.

Module proof.
Record Locator := { AssetID : asset.ID; ScriptKey : PublicKey }.
Record AnnotatedProof := { Locator_ : Locator; Blob_ : Blob }.
Record BaseProofParams :=
  { Block : wire.MsgBlock; Tx : wire.MsgTx; TxIndex : Z }.

(** Modelled from the spec: the proof package is not among the sources.  A
    proof file is an ordered, append-only sequence of transition proofs; a
    transition proof records the script key of its asset, the block,
    transaction and index it was stamped with, and the proof files of its
    additional inputs; the rest of its content is [Body]. *)
Inductive Proof : Type :=
  mkProof (AssetScriptKey : PublicKey) (Stamp : option BaseProofParams)
          (AdditionalInputs : list File) (Body : N)
with File : Type :=
  mkFile (Version : N) (Proofs : list Proof).

Definition AssetScriptKey (p : Proof) : PublicKey :=
  let 'mkProof k _ _ _ := p in k.
Definition Stamp (p : Proof) : option BaseProofParams :=
  let 'mkProof _ s _ _ := p in s.
Definition AdditionalInputs (p : Proof) : list File :=
  let 'mkProof _ _ a _ := p in a.
Definition Body (p : Proof) : N := let 'mkProof _ _ _ b := p in b.
Definition Version (f : File) : N := let 'mkFile v _ := f in v.
Definition Proofs (f : File) : list Proof := let 'mkFile _ ps := f in ps.

Record Recipient :=
  { rcp_ScriptKey : PublicKey; rcp_AssetID : asset.ID; rcp_Amount : Z }.
End proof.

Module tappsbt.
Inductive VOutputType := TypeSimple | TypeSplitRoot | TypePassiveAssetsOnly.
Record VOutput :=
  { vo_Type : VOutputType; vo_ScriptKey : asset.ScriptKey; vo_Amount : Z }.
Record VPacket := { Outputs : list VOutput; Witnesses : N }.
End tappsbt.

Module chainntnfs.
Record TxConfirmation :=
  { BlockHash : option Hash;
    BlockHeight : Z;
    TxIndex : Z;
    Tx : wire.MsgTx;
    Block : wire.MsgBlock }.
End chainntnfs.

#[global] Instance VOutputType_eq_dec : EqDecision tappsbt.VOutputType.
Proof. solve_decision. Defined.

(** ** Data of tapfreighter *)

(** Modelled from the spec: the send states are declared in parcel.go, which
    is not among the sources; these are the ordered states of the driver. *)
Inductive SendStateT : Type :=
| SendStateVirtualCommitmentSelect
| SendStateVirtualSign
| SendStateAnchorSign
| SendStateLogCommit
| SendStateBroadcast
| SendStateWaitTxConf
| SendStateStoreProofs
| SendStateReceiverProofTransfer
| SendStateComplete.

#[global] Instance SendStateT_eq_dec : EqDecision SendStateT.
Proof. solve_decision. Defined.

(** The numeric value of a state, by which the driver compares states. *)
Definition SendState_ord (s : SendStateT) : nat :=
  match s with
  | SendStateVirtualCommitmentSelect => 0
  | SendStateVirtualSign => 1
  | SendStateAnchorSign => 2
  | SendStateLogCommit => 3
  | SendStateBroadcast => 4
  | SendStateWaitTxConf => 5
  | SendStateStoreProofs => 6
  | SendStateReceiverProofTransfer => 7
  | SendStateComplete => 8
  end%nat.

Record TransferInput :=
  { in_OutPoint : wire.OutPoint;
    in_ID : asset.ID;
    in_ScriptKey : SerializedKey;
    in_Amount : Z }.

Record Anchor := { an_OutPoint : wire.OutPoint; an_Value : Z }.

Record TransferOutput :=
  { out_Anchor : Anchor;
    out_Type : tappsbt.VOutputType;
    out_ScriptKey : asset.ScriptKey;
    ScriptKeyLocal : bool;
    out_Amount : Z;
    ProofSuffix : Blob }.

Record PassiveAssetReAnchor :=
  { pa_VPacket : tappsbt.VPacket;
    GenesisID : asset.ID;
    pa_ScriptKey : asset.ScriptKey;
    NewProof : proof.Proof }.

Record OutboundParcel :=
  { op_AnchorTx : wire.MsgTx;
    AnchorTxHeightHint : Z;
    Inputs : list TransferInput;
    Outputs : list TransferOutput;
    op_PassiveAssets : list PassiveAssetReAnchor }.

(** The variants of the [Parcel] interface. *)
Inductive Parcel : Type :=
| AddressParcel (destAddrs : list N)
| PreSignedParcel (payload : N)
| PendingParcel (outboundPkg : OutboundParcel).

Record sendPackage :=
  { SendState : SendStateT;
    VirtualPacket : option tappsbt.VPacket;
    InputCommitments : N;
    PassiveAssets : list PassiveAssetReAnchor;
    Parcel_ : option Parcel;
    AnchorTx : option N;
    OutboundPkg : option OutboundParcel;
    FinalProofs : gmap N proof.AnnotatedProof;
    TransferTxConfEvent : option chainntnfs.TxConfirmation }.

Record AssetConfirmEvent :=
  { AnchorTXID : Hash;
    ace_BlockHash : Hash;
    ace_BlockHeight : Z;
    ace_TxIndex : Z;
    ace_FinalProofs : gmap N proof.AnnotatedProof;
    PassiveAssetProofFiles : gmap N Blob }.

Record FundedSend :=
  { fs_VPacket : tappsbt.VPacket; fs_InputCommitments : N }.

Record AnchorVTxnsParams :=
  { FeeRate : Z;
    VPkts : list tappsbt.VPacket;
    avp_InputCommitments : N;
    PassiveAssetsVPkts : list tappsbt.VPacket }.

(** What the [select] of [waitForTransferTxConf] receives. *)
Inductive ConfSelect : Type :=
| Confirmed (confEvent : option chainntnfs.TxConfirmation)
| NtfnErr (err : error)
| CtxDone
| QuitClosed.

(** ** The call history *)

Inductive Event : Type :=
| EvExecuteSendState (s : SendStateT)
| EvFundAddressSend (addrs : list N) (r : result FundedSend)
| EvSignVirtualPacket (v : tappsbt.VPacket) (r : result tappsbt.VPacket)
| EvEstimateFee (confTarget : Z) (r : result Z)
| EvSignPassiveAssets (v : tappsbt.VPacket) (inputCommitments : N)
    (r : result (list PassiveAssetReAnchor))
| EvAnchorVirtualTransactions (params : AnchorVTxnsParams) (r : result N)
| EvCurrentHeight (r : result Z)
| EvIsLocalKey (rawKey : N) (r : bool)
| EvLogPendingParcel (parcel : OutboundParcel) (r : result unit)
| EvImportTaprootOutput (key : PublicKey) (r : result unit)
| EvPublishTransaction (tx : wire.MsgTx) (r : result unit)
| EvDeliverTxBroadcastResp (parcel : option OutboundParcel)
| EvRegisterConfirmationsNtfn (txid : Hash) (pkScript : Blob)
    (numConfs heightHint : Z) (includeBlock : bool) (r : result unit)
| EvConfSelect (o : ConfSelect)
| EvFetchProof (locator : proof.Locator) (r : result Blob)
| EvImportProofs (proofs : list proof.AnnotatedProof) (r : result unit)
| EvDeliverProof (recipient : proof.Recipient) (p : proof.AnnotatedProof)
    (r : result unit)
| EvConfirmParcelDelivery (ev : AssetConfirmEvent) (r : result unit)
| EvErrChan (err : error).

Abbreviation History := (list Event) (only parsing).

(** ** The collaborators of [ChainPorterConfig] *)

Record Wallet :=
  { FundAddressSend : History -> list N -> result FundedSend;
    SignVirtualPacket : History -> tappsbt.VPacket -> result tappsbt.VPacket;
    SignPassiveAssets :
      History -> tappsbt.VPacket -> N -> result (list PassiveAssetReAnchor);
    AnchorVirtualTransactions : History -> AnchorVTxnsParams -> result N }.

Record ChainBridge :=
  { EstimateFee : History -> Z -> result Z;
    CurrentHeight : History -> result Z;
    PublishTransaction : History -> wire.MsgTx -> result unit;
    RegisterConfirmationsNtfn :
      History -> Hash -> Blob -> Z -> Z -> bool -> result unit }.

Record WalletAnchor :=
  { ImportTaprootOutput : History -> PublicKey -> result unit }.

Record KeyRing := { IsLocalKey : History -> N -> bool }.

Record ExportLog :=
  { LogPendingParcel : History -> OutboundParcel -> result unit;
    PendingParcels : History -> result (list OutboundParcel);
    ConfirmParcelDelivery : History -> AssetConfirmEvent -> result unit }.

Record Archiver :=
  { FetchProof : History -> proof.Locator -> result Blob;
    ImportProofs : History -> list proof.AnnotatedProof -> result unit }.

Record Courier :=
  { DeliverProof :
      History -> proof.Recipient -> proof.AnnotatedProof -> result unit }.

Record ChainPorterConfig :=
  { cfg_Wallet : WalletAnchor;
    cfg_ChainBridge : ChainBridge;
    cfg_KeyRing : KeyRing;
    cfg_ExportLog : ExportLog;
    AssetWallet : Wallet;
    AssetProofs : Archiver;
    ProofCourier : option Courier }.

(** Functions of other packages that the porter calls and that touch no
    collaborator: codecs, key parsing, hashing, and the methods of
    [sendPackage] and [VPacket] declared outside chain_porter.go.  They are
    parameters of the development. *)
Record Library :=
  { TxHash : wire.MsgTx -> Hash;
    Locator_Hash : proof.Locator -> N;
    Proof_Decode : Blob -> result proof.Proof;
    File_Decode : Blob -> result proof.File;
    File_Encode : proof.File -> result Blob;
    UpdateTransitionProof_err :
      proof.Proof -> proof.BaseProofParams -> option error;
    AppendProof_err : proof.File -> proof.Proof -> option error;
    btcec_ParsePubKey : SerializedKey -> result PublicKey;
    ExtractWitnessProgramInfo : Blob -> result (Z * Blob);
    schnorr_ParsePubKey : Blob -> result PublicKey;
    prepareForStorage : sendPackage -> Z -> result OutboundParcel;
    FirstNonSplitRootOutput : tappsbt.VPacket -> result tappsbt.VOutput;
    SendState_String : SendStateT -> string;
    SendConfTarget : Z }.

(** What decides the [select] statements: whether [Stop] has closed the quit
    channel by now, and what the confirmation wait receives. *)
Record Runtime :=
  { StopRequested : History -> bool;
    confSelect : History -> ConfSelect }.

Record ChainPorter :=
  { cfg : ChainPorterConfig; lib : Library; rt : Runtime }.

(** ** The monad *)

(** The world a computation starts in: the history of calls so far, and
    whether the [Quit] channel is closed (once closed it stays closed). *)
Record World := { trace : list Event; quit : bool }.

(** What a computation does: the calls it makes, in order, the state of the
    quit channel after it, and its outcome. *)
Record Run (A : Type) : Type :=
  mkRun { emitted : list Event; quitAfter : bool; outcome : result A }.
Arguments mkRun {A} emitted quitAfter outcome.
Arguments emitted {A} r.
Arguments quitAfter {A} r.
Arguments outcome {A} r.

Definition M (A : Type) : Type := World -> Run A.

(** The world after a run that started in [w]. *)
Definition after {A} (w : World) (r : Run A) : World :=
  {| trace := trace w ++ emitted r; quit := quitAfter r |}.

(** A run after the calls [evs] were made. *)
Definition prepend {A} (evs : list Event) (r : Run A) : Run A :=
  let 'mkRun evs' q res := r in mkRun (evs ++ evs') q res.

Definition ret {A} (a : A) : M A := fun w => mkRun [] (quit w) (Ok a).

Definition bind {A B} (m : M A) (k : A -> M B) : M B :=
  fun w =>
    match m w with
    | mkRun evs q (Ok a) =>
        prepend evs (k a {| trace := trace w ++ evs; quit := q |})
    | mkRun evs q (Err e) => mkRun evs q (Err e)
    | mkRun evs q (Panic msg) => mkRun evs q (Panic msg)
    end.

Notation "'let*' x ':=' m 'in' k" := (bind m (fun x => k))
  (at level 10, x name, m at level 100, k at level 200).
Notation "m1 ';;;' m2" := (bind m1 (fun _ => m2))
  (at level 100, m2 at level 200, right associativity).

Definition throw {A} (e : error) : M A := fun w => mkRun [] (quit w) (Err e).
Definition panic {A} (msg : string) : M A :=
  fun w => mkRun [] (quit w) (Panic msg).
Definition lift {A} (r : result A) : M A := fun w => mkRun [] (quit w) r.

(** [if err != nil { return f(err) }] around a computation. *)
Definition wrap {A} (f : error -> error) (m : M A) : M A :=
  fun w =>
    match m w with
    | mkRun evs q (Err e) => mkRun evs q (Err (f e))
    | r => r
    end.

Definition emit (ev : Event) : M unit :=
  fun w => mkRun [ev] (quit w) (Ok tt).

(** A call into a collaborator: it answers from the history, the call and its
    answer are recorded, and the answer is handed to the caller unexamined. *)
Definition ask {A} (answer : History -> A) (ev : A -> Event) : M A :=
  fun w => let r := answer (trace w) in mkRun [ev r] (quit w) (Ok r).

(** A call whose error, if any, is returned at once. *)
Definition call {A} (answer : History -> result A) (ev : result A -> Event)
  : M A :=
  let* r := ask answer ev in lift r.

(** Dereference of a pointer that may be nil. *)
Definition deref {A} (what : string) (o : option A) : M A :=
  match o with
  | Some a => ret a
  | None => panic ("nil pointer dereference: " +:+ what)
  end.

(** [s[i]] on a slice. *)
Definition index {A} (what : string) (s : list A) (i : nat) : M A :=
  match s !! i with
  | Some a => ret a
  | None => panic ("index out of range: " +:+ what)
  end.

(** A [for ... range] loop whose body may return early with an error. *)
Fixpoint forM {A} (s : list A) (body : A -> M unit) : M unit :=
  match s with
  | [] => ret tt
  | x :: s' => body x ;;; forM s' body
  end.

Fixpoint mapM {A B} (s : list A) (body : A -> M B) : M (list B) :=
  match s with
  | [] => ret []
  | x :: s' => let* y := body x in let* ys := mapM s' body in ret (y :: ys)
  end.

Fixpoint foldM {A St} (s : list A) (body : St -> A -> M St) (acc : St)
  : M St :=
  match s with
  | [] => ret acc
  | x :: s' => let* acc' := body acc x in foldM s' body acc'
  end.

(** The loops of the source that count their iterations. *)
Fixpoint foldMi {A St} (i : nat) (s : list A)
  (body : nat -> St -> A -> M St) (acc : St) : M St :=
  match s with
  | [] => ret acc
  | x :: s' => let* acc' := body i acc x in foldMi (S i) s' body acc'
  end.

(** Modelled from the spec: chanutils.ParSlice is not among the sources.  The
    dispatcher fans out over the elements, every element is attempted, and a
    failure of any branch propagates.  The branches run here one after the
    other in slice order, and the error reported is the first one. *)
Fixpoint ParSlice {A} (s : list A) (f : A -> M unit) : M unit :=
  match s with
  | [] => ret tt
  | x :: s' =>
      fun w =>
        match f x w with
        | mkRun evs q (Ok _) =>
            prepend evs (ParSlice s' f {| trace := trace w ++ evs; quit := q |})
        | mkRun evs q (Err e) =>
            match ParSlice s' f {| trace := trace w ++ evs; quit := q |} with
            | mkRun evs' q' (Panic msg) => mkRun (evs ++ evs') q' (Panic msg)
            | mkRun evs' q' _ => mkRun (evs ++ evs') q' (Err e)
            end
        | mkRun evs q (Panic msg) => mkRun evs q (Panic msg)
        end
  end.

(** ** Updates of a [sendPackage] *)

Definition with_SendState (s : SendStateT) (pkg : sendPackage) : sendPackage :=
  {| SendState := s;
     VirtualPacket := VirtualPacket pkg;
     InputCommitments := InputCommitments pkg;
     PassiveAssets := PassiveAssets pkg;
     Parcel_ := Parcel_ pkg;
     AnchorTx := AnchorTx pkg;
     OutboundPkg := OutboundPkg pkg;
     FinalProofs := FinalProofs pkg;
     TransferTxConfEvent := TransferTxConfEvent pkg |}.

Definition with_VirtualPacket (v : tappsbt.VPacket) (ic : N)
  (pkg : sendPackage) : sendPackage :=
  {| SendState := SendState pkg;
     VirtualPacket := Some v;
     InputCommitments := ic;
     PassiveAssets := PassiveAssets pkg;
     Parcel_ := Parcel_ pkg;
     AnchorTx := AnchorTx pkg;
     OutboundPkg := OutboundPkg pkg;
     FinalProofs := FinalProofs pkg;
     TransferTxConfEvent := TransferTxConfEvent pkg |}.

Definition with_PassiveAssets (pas : list PassiveAssetReAnchor)
  (pkg : sendPackage) : sendPackage :=
  {| SendState := SendState pkg;
     VirtualPacket := VirtualPacket pkg;
     InputCommitments := InputCommitments pkg;
     PassiveAssets := pas;
     Parcel_ := Parcel_ pkg;
     AnchorTx := AnchorTx pkg;
     OutboundPkg := OutboundPkg pkg;
     FinalProofs := FinalProofs pkg;
     TransferTxConfEvent := TransferTxConfEvent pkg |}.

Definition with_AnchorTx (tx : N) (pkg : sendPackage) : sendPackage :=
  {| SendState := SendState pkg;
     VirtualPacket := VirtualPacket pkg;
     InputCommitments := InputCommitments pkg;
     PassiveAssets := PassiveAssets pkg;
     Parcel_ := Parcel_ pkg;
     AnchorTx := Some tx;
     OutboundPkg := OutboundPkg pkg;
     FinalProofs := FinalProofs pkg;
     TransferTxConfEvent := TransferTxConfEvent pkg |}.

Definition with_OutboundPkg (parcel : OutboundParcel) (pkg : sendPackage)
  : sendPackage :=
  {| SendState := SendState pkg;
     VirtualPacket := VirtualPacket pkg;
     InputCommitments := InputCommitments pkg;
     PassiveAssets := PassiveAssets pkg;
     Parcel_ := Parcel_ pkg;
     AnchorTx := AnchorTx pkg;
     OutboundPkg := Some parcel;
     FinalProofs := FinalProofs pkg;
     TransferTxConfEvent := TransferTxConfEvent pkg |}.

Definition with_FinalProofs (fp : gmap N proof.AnnotatedProof)
  (pkg : sendPackage) : sendPackage :=
  {| SendState := SendState pkg;
     VirtualPacket := VirtualPacket pkg;
     InputCommitments := InputCommitments pkg;
     PassiveAssets := PassiveAssets pkg;
     Parcel_ := Parcel_ pkg;
     AnchorTx := AnchorTx pkg;
     OutboundPkg := OutboundPkg pkg;
     FinalProofs := fp;
     TransferTxConfEvent := TransferTxConfEvent pkg |}.

Definition with_TransferTxConfEvent (ev : chainntnfs.TxConfirmation)
  (pkg : sendPackage) : sendPackage :=
  {| SendState := SendState pkg;
     VirtualPacket := VirtualPacket pkg;
     InputCommitments := InputCommitments pkg;
     PassiveAssets := PassiveAssets pkg;
     Parcel_ := Parcel_ pkg;
     AnchorTx := AnchorTx pkg;
     OutboundPkg := OutboundPkg pkg;
     FinalProofs := FinalProofs pkg;
     TransferTxConfEvent := Some ev |}.

Definition with_ScriptKeyLocal (b : bool) (out : TransferOutput)
  : TransferOutput :=
  {| out_Anchor := out_Anchor out;
     out_Type := out_Type out;
     out_ScriptKey := out_ScriptKey out;
     ScriptKeyLocal := b;
     out_Amount := out_Amount out;
     ProofSuffix := ProofSuffix out |}.

Definition with_Outputs (outs : list TransferOutput) (parcel : OutboundParcel)
  : OutboundParcel :=
  {| op_AnchorTx := op_AnchorTx parcel;
     AnchorTxHeightHint := AnchorTxHeightHint parcel;
     Inputs := Inputs parcel;
     Outputs := outs;
     op_PassiveAssets := op_PassiveAssets parcel |}.

Definition with_NewProof (pr : proof.Proof) (pa : PassiveAssetReAnchor)
  : PassiveAssetReAnchor :=
  {| pa_VPacket := pa_VPacket pa;
     GenesisID := GenesisID pa;
     pa_ScriptKey := pa_ScriptKey pa;
     NewProof := pr |}.

(** ** The chain porter *)

Section Porter.
Variable p : ChainPorter.

(** The [Quit] channel is closed from now on. *)
Definition closeQuit : M unit := fun w => mkRun [] true (Ok tt).

(** [select { case <-p.Quit: ...; default: }]: whether [Quit] is closed,
    either from before or because [Stop] has closed it since. *)
Definition quitClosed (w : World) : bool :=
  quit w || StopRequested (rt p) (trace w).

Definition publishSubscriberEvent (s : SendStateT) : M unit :=
  emit (EvExecuteSendState s).

(** [waitForTransferTxConf].  The context of the wait is cancelled by the
    quit channel alone (its own cancel function runs when the function
    returns), so the context-done and quit cases are taken only once [Quit]
    is closed.  The package that the source mutates in place is returned. *)
Definition waitForTransferTxConf (pkg : sendPackage) : M sendPackage :=
  let* outboundPkg := deref "pkg.OutboundPkg" (OutboundPkg pkg) in
  let txHash := TxHash (lib p) (op_AnchorTx outboundPkg) in
  let* txOut0 :=
    index "AnchorTx.TxOut[0]" (wire.TxOut (op_AnchorTx outboundPkg)) 0 in
  let* _ :=
    wrap (Errorf_w "unable to register for package tx conf: ")
      (call
         (fun h =>
            RegisterConfirmationsNtfn (cfg_ChainBridge (cfg p)) h txHash
              (wire.PkScript txOut0) 1 (AnchorTxHeightHint outboundPkg) true)
         (EvRegisterConfirmationsNtfn txHash (wire.PkScript txOut0) 1
            (AnchorTxHeightHint outboundPkg) true)) in
  let* received := ask (confSelect (rt p)) EvConfSelect in
  match received with
  | Confirmed confEvent =>
      let* ev := deref "confEvent" confEvent in
      ret (with_SendState SendStateStoreProofs
             (with_TransferTxConfEvent ev pkg))
  | NtfnErr err =>
      throw
        (Errorf_w "error whilst waiting for package tx confirmation: " err)
  | CtxDone =>
      closeQuit ;;;
      throw (errorNew "got empty package tx confirmation event in batch")
  | QuitClosed =>
      closeQuit ;;;
      ret pkg
  end.

(** Modelled from the spec: [Proof.UpdateTransitionProof] stamps the proof
    with the block, transaction and transaction index it is given; whether
    it fails is the library's. *)
Definition UpdateTransitionProof (pr : proof.Proof)
  (params : proof.BaseProofParams) : M proof.Proof :=
  match UpdateTransitionProof_err (lib p) pr params with
  | Some err => throw err
  | None =>
      ret (proof.mkProof (proof.AssetScriptKey pr) (Some params)
             (proof.AdditionalInputs pr) (proof.Body pr))
  end.

(** Modelled from the spec: [File.AppendProof] appends the proof to the
    file's sequence of proofs; whether it fails is the library's. *)
Definition AppendProof (f : proof.File) (pr : proof.Proof) : M proof.File :=
  match AppendProof_err (lib p) f pr with
  | Some err => throw err
  | None => ret (proof.mkFile (proof.Version f) (proof.Proofs f ++ [pr]))
  end.

Definition appendAdditionalInput (pr : proof.Proof) (f : proof.File)
  : proof.Proof :=
  proof.mkProof (proof.AssetScriptKey pr) (proof.Stamp pr)
    (proof.AdditionalInputs pr ++ [f]) (proof.Body pr).

(** The [proof.BaseProofParams] built from the confirmation event. *)
Definition confParams (confEvent : chainntnfs.TxConfirmation)
  : proof.BaseProofParams :=
  {| proof.Block := chainntnfs.Block confEvent;
     proof.Tx := chainntnfs.Tx confEvent;
     proof.TxIndex := int (chainntnfs.TxIndex confEvent) |}.

Definition fetchProof (locator : proof.Locator) : M Blob :=
  call (fun h => FetchProof (AssetProofs (cfg p)) h locator)
       (EvFetchProof locator).

Definition importProofs (proofs : list proof.AnnotatedProof) : M unit :=
  call (fun h => ImportProofs (AssetProofs (cfg p)) h proofs)
       (EvImportProofs proofs).

(** [fetchInputProof]. *)
Definition fetchInputProof (input : TransferInput) : M proof.File :=
  let* scriptKey :=
    wrap (Errorf_w "error parsing script key: ")
      (lift (btcec_ParsePubKey (lib p) (in_ScriptKey input))) in
  let inputProofLocator :=
    {| proof.AssetID := in_ID input; proof.ScriptKey := scriptKey |} in
  let* inputProofBytes :=
    wrap (Errorf_w "error fetching input proof: ")
      (fetchProof inputProofLocator) in
  wrap (Errorf_w "error decoding input proof: ")
    (lift (File_Decode (lib p) inputProofBytes)).

(** [updateAssetProofFile]; besides the annotated proof it returns the new
    proof as updated in place. *)
Definition updateAssetProofFile (assetID : asset.ID)
  (scriptKeyPub : PublicKey)
  (confEvent : option chainntnfs.TxConfirmation) (newProof : proof.Proof)
  : M (proof.AnnotatedProof * proof.Proof) :=
  let locator :=
    {| proof.AssetID := assetID; proof.ScriptKey := scriptKeyPub |} in
  let* currentProofFileBlob :=
    wrap (Errorf_w "error fetching proof: ") (fetchProof locator) in
  let* currentProofFile :=
    wrap (Errorf_w "error decoding proof file: ")
      (lift (File_Decode (lib p) currentProofFileBlob)) in
  let* ev := deref "confEvent" confEvent in
  let* newProof' :=
    wrap
      (Errorf_w
         "error updating new proof with chain transaction confirmation data: ")
      (UpdateTransitionProof newProof (confParams ev)) in
  let* currentProofFile' :=
    wrap (Errorf_w "error appending proof suffix: ")
      (AppendProof currentProofFile newProof') in
  let* newProofFileBuffer :=
    wrap (Errorf_w "error encoding proof file: ")
      (lift (File_Encode (lib p) currentProofFile')) in
  ret ({| proof.Locator_ :=
            {| proof.AssetID := assetID;
               proof.ScriptKey := proof.AssetScriptKey newProof' |};
          proof.Blob_ := newProofFileBuffer |},
       newProof').

(** The merge loop of [storeProofs]: the proof files of the inputs after the
    first are added to the suffix. *)
Definition addAdditionalInputs (inputs : list TransferInput)
  (proofSuffix : proof.Proof) : M proof.Proof :=
  foldMi 1 (tail inputs)
    (fun idx sfx input =>
       let* additionalInputProofFile :=
         wrap
           (Errorf_w ("error fetching input proof " +:+ pretty idx +:+ ": "))
           (fetchInputProof input) in
       ret (appendAdditionalInput sfx additionalInputProofFile))
    proofSuffix.

(** The body of the output loop of [storeProofs] for an output that carries
    assets, up to the annotated proof of the output. *)
Definition sealOutputProof (parcel : OutboundParcel)
  (confEvent : option chainntnfs.TxConfirmation) (firstInput : TransferInput)
  (idx : nat) (out : TransferOutput) : M proof.AnnotatedProof :=
  let* proofSuffix :=
    wrap (Errorf_w ("error decoding proof suffix " +:+ pretty idx +:+ ": "))
      (lift (Proof_Decode (lib p) (ProofSuffix out))) in
  let* ev := deref "confEvent" confEvent in
  let* proofSuffix :=
    wrap
      (Errorf_w ("error updating transition proof " +:+ pretty idx +:+ ": "))
      (UpdateTransitionProof proofSuffix (confParams ev)) in
  let* inputProofFile :=
    wrap (Errorf_w "error fetching input proof: ")
      (fetchInputProof firstInput) in
  let* proofSuffix := addAdditionalInputs (Inputs parcel) proofSuffix in
  let* inputProofFile :=
    wrap (Errorf_w "error appending proof: ")
      (AppendProof inputProofFile proofSuffix) in
  let* outputProofBuf :=
    wrap (Errorf_w "error encoding proof: ")
      (lift (File_Encode (lib p) inputProofFile)) in
  ret {| proof.Locator_ :=
           {| proof.AssetID := in_ID firstInput;
              proof.ScriptKey := asset.PubKey (out_ScriptKey out) |};
         proof.Blob_ := outputProofBuf |}.

Definition storeOutputProof (parcel : OutboundParcel)
  (confEvent : option chainntnfs.TxConfirmation) (firstInput : TransferInput)
  (idx : nat) (finalProofs : gmap N proof.AnnotatedProof)
  (out : TransferOutput) : M (gmap N proof.AnnotatedProof) :=
  if decide (out_Type out = tappsbt.TypePassiveAssetsOnly) then
    ret finalProofs
  else
    let* outputProof := sealOutputProof parcel confEvent firstInput idx out in
    let serializedScriptKey :=
      ToSerialized (asset.PubKey (out_ScriptKey out)) in
    let* _ :=
      wrap (Errorf_w "error importing proof: ") (importProofs [outputProof]) in
    ret (<[serializedScriptKey := outputProof]> finalProofs).

Definition updatePassiveAsset
  (confEvent : option chainntnfs.TxConfirmation)
  (passiveAsset : PassiveAssetReAnchor)
  : M (proof.AnnotatedProof * PassiveAssetReAnchor) :=
  let* updated :=
    wrap
      (Errorf_w
         "failed to generate an updated proof file for passive asset: ")
      (updateAssetProofFile (GenesisID passiveAsset)
         (asset.PubKey (pa_ScriptKey passiveAsset)) confEvent
         (NewProof passiveAsset)) in
  ret (updated.1, with_NewProof updated.2 passiveAsset).

(** [storeProofs]. *)
Definition storeProofs (sendPkg : sendPackage) : M sendPackage :=
  let confEvent := TransferTxConfEvent sendPkg in
  let* passive :=
    mapM (PassiveAssets sendPkg) (updatePassiveAsset confEvent) in
  let passiveAssetProofFiles := passive.*1 in
  let sendPkg := with_PassiveAssets passive.*2 sendPkg in
  let* _ :=
    wrap (Errorf_w "error importing passive proof: ")
      (importProofs passiveAssetProofFiles) in
  let* parcel := deref "sendPkg.OutboundPkg" (OutboundPkg sendPkg) in
  match Inputs parcel with
  | [] => ret (with_SendState SendStateReceiverProofTransfer sendPkg)
  | firstInput :: _ =>
      let* finalProofs :=
        foldMi 0 (Outputs parcel)
          (storeOutputProof parcel confEvent firstInput) ∅ in
      ret (with_SendState SendStateReceiverProofTransfer
             (with_FinalProofs finalProofs sendPkg))
  end.

(** The test of the [deliver] closure for an output that goes to our own
    wallet. *)
Definition isLocalOutput (out : TransferOutput) : bool :=
  bool_decide (is_Some (asset.TweakedScriptKey_ (out_ScriptKey out)))
  && ScriptKeyLocal out.

(** The search of [deliver] through [pkg.FinalProofs] for a file whose
    script key equals the key of the output. *)
Definition findFinalProof (finalProofs : gmap N proof.AnnotatedProof)
  (key : PublicKey) : option proof.AnnotatedProof :=
  snd <$>
    List.find
      (fun kv => IsEqual (proof.ScriptKey (proof.Locator_ kv.2)) key)
      (map_to_list finalProofs).

(** The [deliver] closure of [transferReceiverProof]. *)
Definition deliver (courier : Courier) (pkg : sendPackage)
  (out : TransferOutput) : M unit :=
  let key := asset.PubKey (out_ScriptKey out) in
  if isLocalOutput out then ret tt
  else
    match findFinalProof (FinalProofs pkg) key with
    | None =>
        throw
          (errorNew
             ("no proof found for output with script key "
              +:+ SerializeCompressed_x key))
    | Some receiverProof =>
        let recipient :=
          {| proof.rcp_ScriptKey := key;
             proof.rcp_AssetID := proof.AssetID (proof.Locator_ receiverProof);
             proof.rcp_Amount := out_Amount out |} in
        let* r :=
          ask (fun h => DeliverProof courier h recipient receiverProof)
              (EvDeliverProof recipient receiverProof) in
        match r with
        | Ok _ => ret tt
        | Err err =>
            if errors_As_BackoffExecError err then ret tt
            else throw (Errorf_w "error delivering proof: " err)
        | Panic msg => panic msg
        end
    end.

Definition passiveLocator (passiveAsset : PassiveAssetReAnchor)
  : proof.Locator :=
  {| proof.AssetID := GenesisID passiveAsset;
     proof.ScriptKey := asset.PubKey (pa_ScriptKey passiveAsset) |}.

Definition loadPassiveAssetProofFile (files : gmap N Blob)
  (passiveAsset : PassiveAssetReAnchor) : M (gmap N Blob) :=
  let proofLocator := passiveLocator passiveAsset in
  let* proofFileBlob :=
    wrap (Errorf_w "error fetching passive asset proof file: ")
      (fetchProof proofLocator) in
  ret (<[Locator_Hash (lib p) proofLocator := proofFileBlob]> files).

(** The first part of [transferReceiverProof]: with a proof courier, the
    proofs are delivered. *)
Definition deliverProofs (pkg : sendPackage) : M unit :=
  match ProofCourier (cfg p) with
  | Some courier =>
      let* parcel := deref "pkg.OutboundPkg" (OutboundPkg pkg) in
      wrap (Errorf_w "error delivering proof(s): ")
        (ParSlice (Outputs parcel) (deliver courier pkg))
  | None => ret tt
  end.

(** The second part of [transferReceiverProof]: the passive proof files
    are loaded and the delivery of the parcel is confirmed in the
    journal. *)
Definition confirmDelivery (pkg : sendPackage) : M sendPackage :=
  let* parcel := deref "pkg.OutboundPkg" (OutboundPkg pkg) in
  let* passiveAssetProofFiles :=
    foldM (op_PassiveAssets parcel) loadPassiveAssetProofFile ∅ in
  let* confEvent :=
    deref "pkg.TransferTxConfEvent" (TransferTxConfEvent pkg) in
  let* blockHash :=
    deref "pkg.TransferTxConfEvent.BlockHash"
      (chainntnfs.BlockHash confEvent) in
  let event :=
    {| AnchorTXID := TxHash (lib p) (op_AnchorTx parcel);
       ace_BlockHash := blockHash;
       ace_BlockHeight := int32 (chainntnfs.BlockHeight confEvent);
       ace_TxIndex := int32 (chainntnfs.TxIndex confEvent);
       ace_FinalProofs := FinalProofs pkg;
       PassiveAssetProofFiles := passiveAssetProofFiles |} in
  let* _ :=
    wrap (Errorf_w "unable to log parcel delivery confirmation: ")
      (call (fun h => ConfirmParcelDelivery (cfg_ExportLog (cfg p)) h event)
            (EvConfirmParcelDelivery event)) in
  ret (with_SendState SendStateComplete pkg).

(** [transferReceiverProof]. *)
Definition transferReceiverProof (pkg : sendPackage) : M sendPackage :=
  deliverProofs pkg ;;; confirmDelivery pkg.

(** The body of the loop of [importLocalAddresses]. *)
Definition importLocalAddress (parcel : OutboundParcel)
  (out : TransferOutput) : M unit :=
  if negb (ScriptKeyLocal out) then ret tt
  else
    let anchorOutputIndex := wire.Index (an_OutPoint (out_Anchor out)) in
    let* anchorOutput :=
      index "parcel.AnchorTx.TxOut[anchorOutputIndex]"
        (wire.TxOut (op_AnchorTx parcel)) (Z.to_nat anchorOutputIndex) in
    let* info :=
      lift (ExtractWitnessProgramInfo (lib p) (wire.PkScript anchorOutput)) in
    let* anchorOutputKey := lift (schnorr_ParsePubKey (lib p) info.2) in
    let* r :=
      ask (fun h => ImportTaprootOutput (cfg_Wallet (cfg p)) h anchorOutputKey)
          (EvImportTaprootOutput anchorOutputKey) in
    match r with
    | Ok _ => ret tt
    | Err err =>
        if strings_Contains (Error err) "already exists" then ret tt
        else throw err
    | Panic msg => panic msg
    end.

(** [importLocalAddresses]. *)
Definition importLocalAddresses (parcel : option OutboundParcel) : M unit :=
  let* parcel := deref "parcel" parcel in
  forM (Outputs parcel) (importLocalAddress parcel).

(** The loop of the log-commit state that marks the outputs whose key the
    key ring knows. *)
Definition stampScriptKeyLocal (out : TransferOutput) : M TransferOutput :=
  match asset.TweakedScriptKey_ (out_ScriptKey out) with
  | Some tweaked =>
      let* isLocal :=
        ask (fun h => IsLocalKey (cfg_KeyRing (cfg p)) h (asset.RawKey tweaked))
            (EvIsLocalKey (asset.RawKey tweaked)) in
      ret (if isLocal : bool then with_ScriptKeyLocal true out else out)
  | None => ret out
  end.

(** [stateStep]. *)
Definition stateStep (currentPkg : sendPackage) : M sendPackage :=
  publishSubscriberEvent (SendState currentPkg) ;;;
  match SendState currentPkg with
  | SendStateVirtualCommitmentSelect =>
      match Parcel_ currentPkg with
      | Some (AddressParcel destAddrs) =>
          let* fundSendRes :=
            wrap (Errorf_w "unable to fund address send: ")
              (call (fun h => FundAddressSend (AssetWallet (cfg p)) h destAddrs)
                    (EvFundAddressSend destAddrs)) in
          ret (with_SendState SendStateVirtualSign
                 (with_VirtualPacket (fs_VPacket fundSendRes)
                    (fs_InputCommitments fundSendRes) currentPkg))
      | _ => throw (errorNew "unable to cast parcel to address parcel")
      end
  | SendStateVirtualSign =>
      let* vPacket := deref "vPacket" (VirtualPacket currentPkg) in
      let* _ := index "vPacket.Outputs[1]" (tappsbt.Outputs vPacket) 1 in
      let* signed :=
        wrap (Errorf_w "unable to sign and commit virtual packet: ")
          (call (fun h => SignVirtualPacket (AssetWallet (cfg p)) h vPacket)
                (EvSignVirtualPacket vPacket)) in
      ret (with_SendState SendStateAnchorSign
             (with_VirtualPacket signed (InputCommitments currentPkg)
                currentPkg))
  | SendStateAnchorSign =>
      let* feeRate :=
        wrap (Errorf_w "unable to estimate fee: ")
          (call
             (fun h =>
                EstimateFee (cfg_ChainBridge (cfg p)) h (SendConfTarget (lib p)))
             (EvEstimateFee (SendConfTarget (lib p)))) in
      let* vPacket := deref "vPacket" (VirtualPacket currentPkg) in
      let* firstRecipient :=
        wrap (Errorf_w "unable to get first interactive output: ")
          (lift (FirstNonSplitRootOutput (lib p) vPacket)) in
      let* passiveAssets :=
        wrap (Errorf_w "unable to sign passive assets: ")
          (call
             (fun h =>
                SignPassiveAssets (AssetWallet (cfg p)) h vPacket
                  (InputCommitments currentPkg))
             (EvSignPassiveAssets vPacket (InputCommitments currentPkg))) in
      let passiveVPackets := pa_VPacket <$> passiveAssets in
      let params :=
        {| FeeRate := feeRate;
           VPkts := [vPacket];
           avp_InputCommitments := InputCommitments currentPkg;
           PassiveAssetsVPkts := passiveVPackets |} in
      let* anchorTx :=
        wrap (Errorf_w "unable to anchor virtual transactions: ")
          (call
             (fun h => AnchorVirtualTransactions (AssetWallet (cfg p)) h params)
             (EvAnchorVirtualTransactions params)) in
      ret (with_SendState SendStateLogCommit
             (with_AnchorTx anchorTx
                (with_PassiveAssets passiveAssets currentPkg)))
  | SendStateLogCommit =>
      let* currentHeight :=
        wrap (Errorf_v "unable to get current height: ")
          (call (CurrentHeight (cfg_ChainBridge (cfg p))) EvCurrentHeight) in
      let* parcel :=
        wrap (Errorf_w "unable to prepare parcel for storage: ")
          (lift (prepareForStorage (lib p) currentPkg currentHeight)) in
      let* outs := mapM (Outputs parcel) stampScriptKeyLocal in
      let parcel := with_Outputs outs parcel in
      let* _ :=
        wrap (Errorf_v "unable to write send pkg to disk: ")
          (call (fun h => LogPendingParcel (cfg_ExportLog (cfg p)) h parcel)
                (EvLogPendingParcel parcel)) in
      ret (with_SendState SendStateBroadcast
             (with_OutboundPkg parcel currentPkg))
  | SendStateBroadcast =>
      let* _ :=
        wrap (Errorf_w "unable to import local addresses: ")
          (importLocalAddresses (OutboundPkg currentPkg)) in
      let* parcel :=
        deref "currentPkg.OutboundPkg" (OutboundPkg currentPkg) in
      let* _ :=
        call
          (fun h =>
             PublishTransaction (cfg_ChainBridge (cfg p)) h
               (op_AnchorTx parcel))
          (EvPublishTransaction (op_AnchorTx parcel)) in
      let* _ := emit (EvDeliverTxBroadcastResp (OutboundPkg currentPkg)) in
      ret (with_SendState SendStateWaitTxConf currentPkg)
  | SendStateWaitTxConf => waitForTransferTxConf currentPkg
  | SendStateStoreProofs => storeProofs currentPkg
  | SendStateReceiverProofTransfer => transferReceiverProof currentPkg
  | SendStateComplete =>
      throw
        (errorNew
           ("unknown state: "
            +:+ SendState_String (lib p) (SendState currentPkg)))
  end.

(** [advanceState]: the loop runs on fuel, [None] is fuel run out.  Where
    the source returns nil the package as advanced so far is returned; a
    step's error goes to the error channel before it is returned. *)
Fixpoint advanceState_loop (fuel : nat) (pkg : sendPackage) (w : World)
  : option (Run sendPackage) :=
  if decide (SendState_ord (SendState pkg)
             < SendState_ord SendStateComplete)%nat
  then
    match fuel with
    | O => None
    | S fuel' =>
        if quitClosed w then Some (mkRun [] true (Ok pkg))
        else
          let r := stateStep pkg w in
          match outcome r with
          | Ok updatedPkg =>
              prepend (emitted r)
                <$> advanceState_loop fuel' updatedPkg (after w r)
          | Err err =>
              Some (mkRun (emitted r ++ [EvErrChan err]) (quitAfter r)
                      (Err err))
          | Panic msg => Some (mkRun (emitted r) (quitAfter r) (Panic msg))
          end
    end
  else Some (ret pkg w).

Definition advanceState (pkg : sendPackage) (w : World)
  : option (Run sendPackage) :=
  advanceState_loop 10 pkg w.

(** The skeleton package of [resumePendingParcel]. *)
Definition restartSendPkg (pkg : OutboundParcel) : sendPackage :=
  {| SendState := SendStateBroadcast;
     VirtualPacket := None;
     InputCommitments := 0%N;
     PassiveAssets := [];
     Parcel_ := None;
     AnchorTx := None;
     OutboundPkg := Some pkg;
     FinalProofs := ∅;
     TransferTxConfEvent := None |}.

(** [resumePendingParcel]. *)
Definition resumePendingParcel (pkg : OutboundParcel) (w : World)
  : option (Run sendPackage) :=
  advanceState (restartSendPkg pkg) w.

End Porter.

Arguments stateStep : simpl never.
Arguments waitForTransferTxConf : simpl never.
Arguments storeProofs : simpl never.
Arguments transferReceiverProof : simpl never.
Arguments importLocalAddresses : simpl never.
Arguments sealOutputProof : simpl never.
Arguments updateAssetProofFile : simpl never.
Arguments fetchInputProof : simpl never.
Arguments deliver : simpl never.

(** * The subscribers and the life of the porter *)

Module chanutils.
(** Modelled from the spec: the event receivers of chanutils are not among
    the sources.  A receiver is an object of its own ([addr] tells two
    objects apart) with a subscription id; it absorbs the events sent to it
    and can be stopped. *)
Record EventReceiver := { addr : N; ID : N }.
End chanutils.

Abbreviation Subscribers := (gmap N chanutils.EventReceiver) (only parsing).

(** What the porter does to the receivers and, for them, to the courier. *)
Inductive SubscriberCall : Type :=
| ReceiverStop (receiver : chanutils.EventReceiver)
| CourierSetSubscribers (subscribers : Subscribers).

(** The subscribers after a function has run, the calls it made and what it
    returned. *)
Record SubscriberRun : Type :=
  mkSubscriberRun
    { subscribersAfter : Subscribers;
      subscriberCalls : list SubscriberCall;
      subscriberResult : result unit }.

(** The fields of [ChainPorter] that [Start] and [Stop] act on: the two
    [sync.Once], the quit channel (closed or not), the counter of the wait
    group and the map of the subscribers. *)
Record PorterState : Type :=
  { startOnce : bool;
    stopOnce : bool;
    Quit : bool;
    Wg : nat;
    subscribers : Subscribers }.

(** The goroutines that [Start] launches. *)
Inductive Goroutine : Type :=
| GoResumePendingParcel (parcel : OutboundParcel)
| GoTaroPorter.

(** [NewChainPorter]. *)
Definition NewChainPorter : PorterState :=
  {| startOnce := false;
     stopOnce := false;
     Quit := false;
     Wg := 0;
     subscribers := ∅ |}.

Section Lifecycle.
Variable p : ChainPorter.

(** [if p.cfg.ProofCourier != nil { p.cfg.ProofCourier.SetSubscribers(...) }] *)
Definition setCourierSubscribers (subs : Subscribers)
  : list SubscriberCall :=
  match ProofCourier (cfg p) with
  | Some _ => [CourierSetSubscribers subs]
  | None => []
  end.

(** [RegisterSubscriber]; the mutex it holds has no part in a run of
    its own. *)
Definition RegisterSubscriber (subs : Subscribers)
  (receiver : chanutils.EventReceiver) (deliverExisting deliverFrom : bool)
  : SubscriberRun :=
  let subs := <[chanutils.ID receiver := receiver]> subs in
  mkSubscriberRun subs (setCourierSubscribers subs) (Ok tt).

(** [RemoveSubscriber]. *)
Definition RemoveSubscriber (subs : Subscribers)
  (subscriber : chanutils.EventReceiver) : SubscriberRun :=
  match subs !! chanutils.ID subscriber with
  | None =>
      mkSubscriberRun subs []
        (Err (errorNew ("subscriber with ID "
                        +:+ pretty (chanutils.ID subscriber)
                        +:+ " not found")))
  | Some _ =>
      let subs := delete (chanutils.ID subscriber) subs in
      mkSubscriberRun subs
        (ReceiverStop subscriber :: setCourierSubscribers subs) (Ok tt)
  end.

(** The loop of [Stop] over the subscribers.  [order] is the order in which
    the [range] takes the entries that the map held when the loop began; an
    entry removed before it is reached is not produced.  The first error
    ends the loop. *)
Fixpoint removeSubscribers (order : list (N * chanutils.EventReceiver))
  (subs : Subscribers) : SubscriberRun :=
  match order with
  | [] => mkSubscriberRun subs [] (Ok tt)
  | (id, _) :: order' =>
      match subs !! id with
      | None => removeSubscribers order' subs
      | Some sub =>
          let r := RemoveSubscriber subs sub in
          match subscriberResult r with
          | Ok _ =>
              let r' := removeSubscribers order' (subscribersAfter r) in
              mkSubscriberRun (subscribersAfter r')
                (subscriberCalls r ++ subscriberCalls r')
                (subscriberResult r')
          | _ => r
          end
      end
  end.

(** [Stop].  The wait for the goroutines returns once they are done, and
    leaves the counter of the wait group at zero. *)
Definition Stop (order : list (N * chanutils.EventReceiver))
  (st : PorterState) : PorterState * SubscriberRun :=
  if stopOnce st then
    (st, mkSubscriberRun (subscribers st) [] (Ok tt))
  else
    let r := removeSubscribers order (subscribers st) in
    ({| startOnce := startOnce st;
        stopOnce := true;
        Quit := true;
        Wg := 0;
        subscribers := subscribersAfter r |},
     r).

(** [Start]: the state after, the goroutines launched and the error
    returned.  The journal answers from the history [h]. *)
Definition Start (st : PorterState) (h : list Event)
  : PorterState * list Goroutine * result unit :=
  if startOnce st then (st, [], Ok tt)
  else
    let st :=
      {| startOnce := true;
         stopOnce := stopOnce st;
         Quit := Quit st;
         Wg := Wg st;
         subscribers := subscribers st |} in
    match PendingParcels (cfg_ExportLog (cfg p)) h with
    | Ok pendingParcels =>
        ({| startOnce := true;
            stopOnce := stopOnce st;
            Quit := Quit st;
            Wg := Wg st + length pendingParcels + 1;
            subscribers := subscribers st |},
         (GoResumePendingParcel <$> pendingParcels) ++ [GoTaroPorter],
         Ok tt)
    | Err err => (st, [], Err err)
    | Panic msg => (st, [], Panic msg)
    end.
End Lifecycle.

(** * A porter with scripted collaborators

    The collaborators answer every call the same way whatever the history;
    the answers that the properties below depend on are parameters: the
    proof courier, the wallet's answer to an import, and what the
    confirmation wait receives. *)

Module Scenario.

Definition anchorTx : wire.MsgTx :=
  {| wire.TxIn := [];
     wire.TxOut := [{| wire.Value := 1000; wire.PkScript := [Byte.x51] |}];
     wire.LockTime := 7 |}.

Definition confirmation : chainntnfs.TxConfirmation :=
  {| chainntnfs.BlockHash := Some 99%N;
     chainntnfs.BlockHeight := 500;
     chainntnfs.TxIndex := 3;
     chainntnfs.Tx := anchorTx;
     chainntnfs.Block :=
       {| wire.Header := 99; wire.Transactions := [anchorTx] |} |}.

Definition firstInput : TransferInput :=
  {| in_OutPoint := {| wire.op_Hash := 1; wire.Index := 0 |};
     in_ID := 10; in_ScriptKey := 1; in_Amount := 60 |}.

Definition secondInput : TransferInput :=
  {| in_OutPoint := {| wire.op_Hash := 1; wire.Index := 1 |};
     in_ID := 10; in_ScriptKey := 5; in_Amount := 40 |}.

Definition anchor : Anchor :=
  {| an_OutPoint := {| wire.op_Hash := 7; wire.Index := 0 |};
     an_Value := 1000 |}.

(** The change output: its script key is a tweak of a key of ours.  The
    log-commit step sets [ScriptKeyLocal]. *)
Definition changeOutput (stamped : bool) : TransferOutput :=
  {| out_Anchor := anchor;
     out_Type := tappsbt.TypeSplitRoot;
     out_ScriptKey :=
       {| asset.PubKey := 4;
          asset.TweakedScriptKey_ :=
            Some {| asset.RawKey := 3; asset.Tweak := [] |} |};
     ScriptKeyLocal := stamped;
     out_Amount := 30;
     ProofSuffix := [Byte.x02] |}.

(** The receiver's output. *)
Definition receiverOutput : TransferOutput :=
  {| out_Anchor := anchor;
     out_Type := tappsbt.TypeSimple;
     out_ScriptKey := {| asset.PubKey := 2; asset.TweakedScriptKey_ := None |};
     ScriptKeyLocal := false;
     out_Amount := 70;
     ProofSuffix := [Byte.x02; Byte.x03] |}.

Definition vPacket : tappsbt.VPacket :=
  {| tappsbt.Outputs :=
       [{| tappsbt.vo_Type := tappsbt.TypeSplitRoot;
           tappsbt.vo_ScriptKey := out_ScriptKey (changeOutput false);
           tappsbt.vo_Amount := 30 |};
        {| tappsbt.vo_Type := tappsbt.TypeSimple;
           tappsbt.vo_ScriptKey := out_ScriptKey receiverOutput;
           tappsbt.vo_Amount := 70 |}];
     tappsbt.Witnesses := 0 |}.

Definition passiveAsset (id : asset.ID) : PassiveAssetReAnchor :=
  {| pa_VPacket := vPacket;
     GenesisID := id;
     pa_ScriptKey := {| asset.PubKey := 6; asset.TweakedScriptKey_ := None |};
     NewProof := proof.mkProof 6 None [] id |}.

Definition parcel (heightHint : Z) (inputs : list TransferInput)
  (passiveAssets : list PassiveAssetReAnchor) (stamped : bool)
  : OutboundParcel :=
  {| op_AnchorTx := anchorTx;
     AnchorTxHeightHint := heightHint;
     Inputs := inputs;
     Outputs := [changeOutput stamped; receiverOutput];
     op_PassiveAssets := passiveAssets |}.

Definition library : Library :=
  {| TxHash := fun tx => Z.to_N (wire.LockTime tx);
     Locator_Hash := fun l => (proof.AssetID l * 1000 + proof.ScriptKey l)%N;
     Proof_Decode := fun b =>
       match b with
       | [] => Err (errorNew "EOF")
       | _ => Ok (proof.mkProof 2 None [] (N.of_nat (length b)))
       end;
     File_Decode := fun b =>
       Ok (proof.mkFile 0 [proof.mkProof 1 None [] (N.of_nat (length b))]);
     File_Encode := fun f => Ok (repeat Byte.x01 (length (proof.Proofs f)));
     UpdateTransitionProof_err := fun _ _ => None;
     AppendProof_err := fun _ _ => None;
     btcec_ParsePubKey := fun k => Ok k;
     ExtractWitnessProgramInfo := fun b => Ok (1, b);
     schnorr_ParsePubKey := fun b => Ok (N.of_nat (length b));
     prepareForStorage := fun pkg h =>
       Ok (parcel h [firstInput; secondInput] (PassiveAssets pkg) false);
     FirstNonSplitRootOutput := fun v =>
       match tappsbt.Outputs v with
       | o :: _ => Ok o
       | [] => Err (errorNew "no output")
       end;
     SendState_String := fun _ => "SendState";
     SendConfTarget := 6 |}.

Definition config (courier : option Courier) (importAnswer : result unit)
  : ChainPorterConfig :=
  {| cfg_Wallet := {| ImportTaprootOutput := fun _ _ => importAnswer |};
     cfg_ChainBridge :=
       {| EstimateFee := fun _ _ => Ok 5;
          CurrentHeight := fun _ => Ok 499;
          PublishTransaction := fun _ _ => Ok tt;
          RegisterConfirmationsNtfn := fun _ _ _ _ _ _ => Ok tt |};
     cfg_KeyRing := {| IsLocalKey := fun _ rawKey => bool_decide (rawKey = 3%N) |};
     cfg_ExportLog :=
       {| LogPendingParcel := fun _ _ => Ok tt;
          PendingParcels := fun _ => Ok [];
          ConfirmParcelDelivery := fun _ _ => Ok tt |};
     AssetWallet :=
       {| FundAddressSend := fun _ _ =>
            Ok {| fs_VPacket := vPacket; fs_InputCommitments := 1 |};
          SignVirtualPacket := fun _ v => Ok v;
          SignPassiveAssets := fun _ _ _ => Ok [passiveAsset 20];
          AnchorVirtualTransactions := fun _ _ => Ok 77%N |};
     AssetProofs :=
       {| FetchProof := fun _ _ => Ok [Byte.x00];
          ImportProofs := fun _ _ => Ok tt |};
     ProofCourier := courier |}.

Definition porter (courier : option Courier) (importAnswer : result unit)
  (select : ConfSelect) : ChainPorter :=
  {| cfg := config courier importAnswer;
     lib := library;
     rt := {| StopRequested := fun _ => false;
              confSelect := fun _ => select |} |}.

(** A courier that delivers, and one that gives up for now. *)
Definition delivering : Courier := {| DeliverProof := fun _ _ _ => Ok tt |}.

Definition backingOff : Courier :=
  {| DeliverProof := fun _ _ _ =>
       Err (BackoffExecError "backoff exec error: receiver is offline") |}.

(** The porter for which everything goes well. *)
Definition sender : ChainPorter :=
  porter (Some delivering) (Ok tt) (Confirmed (Some confirmation)).

Definition start : World := {| trace := []; quit := false |}.

(** A package as [RequestShipment] makes it for an address parcel. *)
Definition requested : sendPackage :=
  {| SendState := SendStateVirtualCommitmentSelect;
     VirtualPacket := None;
     InputCommitments := 0;
     PassiveAssets := [];
     Parcel_ := Some (AddressParcel [5%N]);
     AnchorTx := None;
     OutboundPkg := None;
     FinalProofs := ∅;
     TransferTxConfEvent := None |}.

(** The package of a parcel of the journal in state [s], before its proofs
    are sealed. *)
Definition pending (s : SendStateT) (inputs : list TransferInput)
  (passiveAssets : list PassiveAssetReAnchor) : sendPackage :=
  {| SendState := s;
     VirtualPacket := Some vPacket;
     InputCommitments := 1;
     PassiveAssets := passiveAssets;
     Parcel_ := None;
     AnchorTx := Some 77%N;
     OutboundPkg := Some (parcel 499 inputs passiveAssets true);
     FinalProofs := ∅;
     TransferTxConfEvent :=
       if decide (SendState_ord s <= SendState_ord SendStateWaitTxConf)%nat
       then None else Some confirmation |}.

(** The result of a run, where the run returned one. *)
Definition returned (r : Run sendPackage) (pkg : sendPackage) : sendPackage :=
  match outcome r with
  | Ok pkg' => pkg'
  | _ => pkg
  end.

(** A merge of two inputs with a passive asset, and a parcel of passive
    assets only, with their proofs to be sealed. *)
Definition merge : sendPackage :=
  pending SendStateStoreProofs [firstInput; secondInput] [passiveAsset 20].

Definition passiveOnly : sendPackage :=
  pending SendStateStoreProofs [] [passiveAsset 20; passiveAsset 21].

Definition sealedMerge : sendPackage :=
  returned (storeProofs sender merge start) merge.

Definition sealedPassiveOnly : sendPackage :=
  returned (storeProofs sender passiveOnly start) passiveOnly.

(** The run of the driver on the requested shipment. *)
Definition shipment : Run sendPackage :=
  default (ret requested start) (advanceState sender requested start).

(** The parcel as resumed in the broadcast state, with a wallet that holds
    its anchor output already. *)
Definition resumed : sendPackage :=
  pending SendStateBroadcast [firstInput] [].

Definition holdingWallet : ChainPorter :=
  porter (Some delivering) (Err (errorNew "output already exists"))
    (Confirmed (Some confirmation)).

(** The parcel waiting for its confirmation, with a wait that ends by the
    cancellation of its context. *)
Definition waiting : sendPackage :=
  pending SendStateWaitTxConf [firstInput] [].

Definition cancelled : ChainPorter :=
  porter (Some delivering) (Ok tt) CtxDone.

(** Porters whose courier backs off, and without a courier. *)
Definition offline : ChainPorter :=
  porter (Some backingOff) (Ok tt) (Confirmed (Some confirmation)).

Definition courierless : ChainPorter :=
  porter None (Ok tt) (Confirmed (Some confirmation)).
End Scenario.

(** * More scripted collaborators *)

Module Cases.
Import Scenario.

(** A chain bridge that refuses the transaction. *)
Definition refusing : ChainPorter :=
  {| cfg :=
       {| cfg_Wallet := cfg_Wallet (config (Some delivering) (Ok tt));
          cfg_ChainBridge :=
            {| EstimateFee := fun _ _ => Ok 5;
               CurrentHeight := fun _ => Ok 499;
               PublishTransaction := fun _ _ =>
                 Err (errorNew "transaction rejected");
               RegisterConfirmationsNtfn := fun _ _ _ _ _ _ => Ok tt |};
          cfg_KeyRing := cfg_KeyRing (config (Some delivering) (Ok tt));
          cfg_ExportLog := cfg_ExportLog (config (Some delivering) (Ok tt));
          AssetWallet := AssetWallet (config (Some delivering) (Ok tt));
          AssetProofs := AssetProofs (config (Some delivering) (Ok tt));
          ProofCourier := Some delivering |};
     lib := library;
     rt := rt sender |}.

(** A courier that fails for good. *)
Definition failing : Courier :=
  {| DeliverProof := fun _ _ _ => Err (errorNew "receiver unreachable") |}.

Definition unreachable : ChainPorter :=
  porter (Some failing) (Ok tt) (Confirmed (Some confirmation)).

(** An output of ours anchored at an output that the anchor transaction does
    not have. *)
Definition stray : TransferOutput :=
  {| out_Anchor :=
       {| an_OutPoint := {| wire.op_Hash := 7; wire.Index := 5 |};
          an_Value := 1000 |};
     out_Type := tappsbt.TypeSimple;
     out_ScriptKey := out_ScriptKey (changeOutput true);
     ScriptKeyLocal := true;
     out_Amount := 30;
     ProofSuffix := [Byte.x02] |}.

(** A package with a parcel that was signed before, in the first state. *)
Definition preSigned : sendPackage :=
  {| SendState := SendStateVirtualCommitmentSelect;
     VirtualPacket := Some vPacket;
     InputCommitments := 1;
     PassiveAssets := [];
     Parcel_ := Some (PreSignedParcel 8);
     AnchorTx := None;
     OutboundPkg := None;
     FinalProofs := ∅;
     TransferTxConfEvent := None |}.

(** A package to sign whose virtual packet has the change output only. *)
Definition changeOnly : sendPackage :=
  {| SendState := SendStateVirtualSign;
     VirtualPacket :=
       Some {| tappsbt.Outputs := take 1 (tappsbt.Outputs vPacket);
               tappsbt.Witnesses := 0 |};
     InputCommitments := 1;
     PassiveAssets := [];
     Parcel_ := Some (AddressParcel [5%N]);
     AnchorTx := None;
     OutboundPkg := None;
     FinalProofs := ∅;
     TransferTxConfEvent := None |}.

(** A parcel whose anchor transaction has no outputs, waiting for its
    confirmation. *)
Definition bare : OutboundParcel :=
  {| op_AnchorTx := {| wire.TxIn := []; wire.TxOut := []; wire.LockTime := 7 |};
     AnchorTxHeightHint := 499;
     Inputs := [firstInput];
     Outputs := [changeOutput true; receiverOutput];
     op_PassiveAssets := [] |}.

Definition waitingBare : sendPackage :=
  with_OutboundPkg bare waiting.

(** A confirmation in a block beyond the heights a signed 32-bit number
    holds. *)
Definition late : chainntnfs.TxConfirmation :=
  {| chainntnfs.BlockHash := Some 99%N;
     chainntnfs.BlockHeight := 2 ^ 31 + 5;
     chainntnfs.TxIndex := 3;
     chainntnfs.Tx := anchorTx;
     chainntnfs.Block :=
       {| wire.Header := 99; wire.Transactions := [anchorTx] |} |}.

Definition sealedLate : sendPackage :=
  with_TransferTxConfEvent late sealedMerge.

(** Two receivers with the same id, and one with an id of its own. *)
Definition viewer : chanutils.EventReceiver :=
  {| chanutils.addr := 1; chanutils.ID := 7 |}.
Definition impostor : chanutils.EventReceiver :=
  {| chanutils.addr := 2; chanutils.ID := 7 |}.
Definition logger : chanutils.EventReceiver :=
  {| chanutils.addr := 3; chanutils.ID := 9 |}.

(** A porter that was started, with two subscribers. *)
Definition running : PorterState :=
  {| startOnce := true;
     stopOnce := false;
     Quit := false;
     Wg := 1;
     subscribers := {[ 7%N := viewer; 9%N := logger ]} |}.

(** A journal that cannot be read. *)
Definition unreadable : ChainPorter :=
  {| cfg :=
       {| cfg_Wallet := cfg_Wallet (cfg sender);
          cfg_ChainBridge := cfg_ChainBridge (cfg sender);
          cfg_KeyRing := cfg_KeyRing (cfg sender);
          cfg_ExportLog :=
            {| LogPendingParcel := fun _ _ => Ok tt;
               PendingParcels := fun _ => Err (errorNew "database is locked");
               ConfirmParcelDelivery := fun _ _ => Ok tt |};
          AssetWallet := AssetWallet (cfg sender);
          AssetProofs := AssetProofs (cfg sender);
          ProofCourier := ProofCourier (cfg sender) |};
     lib := library;
     rt := rt sender |}.

(** A journal that cannot be written for now. *)
Definition fullDisk : ChainPorter :=
  {| cfg :=
       {| cfg_Wallet := cfg_Wallet (cfg sender);
          cfg_ChainBridge := cfg_ChainBridge (cfg sender);
          cfg_KeyRing := cfg_KeyRing (cfg sender);
          cfg_ExportLog :=
            {| LogPendingParcel := fun _ _ =>
                 Err (BackoffExecError "disk full, try later");
               PendingParcels := fun _ => Ok [];
               ConfirmParcelDelivery := fun _ _ => Ok tt |};
          AssetWallet := AssetWallet (cfg sender);
          AssetProofs := AssetProofs (cfg sender);
          ProofCourier := ProofCourier (cfg sender) |};
     lib := library;
     rt := rt sender |}.

Definition anchored : sendPackage :=
  pending SendStateLogCommit [firstInput] [].

(** The anchored parcel once its journal entry is written, and the run of
    the driver on the anchored parcel when the chain bridge refuses the
    transaction. *)
Definition logged : sendPackage :=
  returned (stateStep refusing anchored start) anchored.

Definition refused : Run sendPackage :=
  default (ret anchored start) (advanceState refusing anchored start).

(** A parcel read from the journal, and the run that resumes it. *)
Definition stored : OutboundParcel := parcel 499 [firstInput] [] true.

Definition restarted : Run sendPackage :=
  default (ret (restartSendPkg stored) start)
    (resumePendingParcel sender stored start).
End Cases.

(** * Reasoning about runs *)

(** ** The monad's equations *)

Lemma prepend_emitted {A} evs (r : Run A) :
  emitted (prepend evs r) = evs ++ emitted r.
Proof. destruct r; reflexivity. Qed.

Lemma prepend_outcome {A} evs (r : Run A) :
  outcome (prepend evs r) = outcome r.
Proof. destruct r; reflexivity. Qed.

Lemma prepend_quitAfter {A} evs (r : Run A) :
  quitAfter (prepend evs r) = quitAfter r.
Proof. destruct r; reflexivity. Qed.

Section RunLemmas.
Context {A B : Type}.

Lemma bind_Ok (m : M A) (k : A -> M B) w a :
  outcome (m w) = Ok a ->
  bind m k w = prepend (emitted (m w)) (k a (after w (m w))).
Proof.
  unfold bind, after. destruct (m w) as [evs q r]. simpl. intros ->.
  reflexivity.
Qed.

Lemma bind_Err (m : M A) (k : A -> M B) w e :
  outcome (m w) = Err e ->
  bind m k w = mkRun (emitted (m w)) (quitAfter (m w)) (Err e).
Proof.
  unfold bind. destruct (m w) as [evs q r]. simpl. intros ->. reflexivity.
Qed.

Lemma bind_Panic (m : M A) (k : A -> M B) w msg :
  outcome (m w) = Panic msg ->
  bind m k w = mkRun (emitted (m w)) (quitAfter (m w)) (Panic msg).
Proof.
  unfold bind. destruct (m w) as [evs q r]. simpl. intros ->. reflexivity.
Qed.

Lemma bind_Ok_inv (m : M A) (k : A -> M B) w b :
  outcome (bind m k w) = Ok b ->
  exists a, outcome (m w) = Ok a
            /\ outcome (k a (after w (m w))) = Ok b
            /\ emitted (bind m k w)
               = emitted (m w) ++ emitted (k a (after w (m w)))
            /\ quitAfter (bind m k w) = quitAfter (k a (after w (m w))).
Proof.
  destruct (outcome (m w)) as [a|e|msg] eqn:E.
  - rewrite (bind_Ok _ _ _ a E).
    rewrite prepend_outcome, prepend_emitted, prepend_quitAfter. eauto.
  - rewrite (bind_Err _ _ _ e E). discriminate.
  - rewrite (bind_Panic _ _ _ msg E). discriminate.
Qed.

Lemma wrap_outcome (f : error -> error) (m : M A) w :
  outcome (wrap f m w)
  = match outcome (m w) with Err e => Err (f e) | r => r end.
Proof. unfold wrap. destruct (m w) as [evs q [a|e|msg]]; reflexivity. Qed.

Lemma wrap_emitted (f : error -> error) (m : M A) w :
  emitted (wrap f m w) = emitted (m w).
Proof. unfold wrap. destruct (m w) as [evs q [a|e|msg]]; reflexivity. Qed.

Lemma wrap_quitAfter (f : error -> error) (m : M A) w :
  quitAfter (wrap f m w) = quitAfter (m w).
Proof. unfold wrap. destruct (m w) as [evs q [a|e|msg]]; reflexivity. Qed.

Lemma wrap_Ok_inv (f : error -> error) (m : M A) w a :
  outcome (wrap f m w) = Ok a ->
  outcome (m w) = Ok a /\ wrap f m w = m w.
Proof.
  unfold wrap. destruct (m w) as [evs q [a'|e|msg]]; simpl; try discriminate.
  auto.
Qed.

Lemma call_run (answer : list Event -> result A)
  (ev : result A -> Event) w :
  call answer ev w
  = mkRun [ev (answer (trace w))] (quit w) (answer (trace w)).
Proof. reflexivity. Qed.

Lemma call_Ok_inv (answer : list Event -> result A)
  (ev : result A -> Event) w a :
  outcome (call answer ev w) = Ok a ->
  answer (trace w) = Ok a /\ emitted (call answer ev w) = [ev (Ok a)].
Proof. rewrite call_run. simpl. intros ->. auto. Qed.

Lemma call_emitted (answer : list Event -> result A)
  (ev : result A -> Event) w :
  emitted (call answer ev w) = [ev (answer (trace w))].
Proof. reflexivity. Qed.

Lemma call_outcome (answer : list Event -> result A)
  (ev : result A -> Event) w :
  outcome (call answer ev w) = answer (trace w).
Proof. reflexivity. Qed.

Lemma ask_run (answer : list Event -> A) (ev : A -> Event) w :
  ask answer ev w = mkRun [ev (answer (trace w))] (quit w)
                      (Ok (answer (trace w))).
Proof. reflexivity. Qed.

Lemma deref_Ok_inv what (o : option A) w a :
  outcome (deref what o w) = Ok a -> o = Some a /\ emitted (deref what o w) = [].
Proof. destruct o; simpl; [intros [= ->]; auto | discriminate]. Qed.

Lemma index_Ok_inv what (s : list A) i w a :
  outcome (index what s i w) = Ok a ->
  s !! i = Some a /\ emitted (index what s i w) = [].
Proof.
  unfold index. destruct (s !! i); simpl; [intros [= ->]; auto | discriminate].
Qed.
End RunLemmas.

(** Unfolds the monad in a goal, and computes with the runs it shows. *)
Ltac run_unfold :=
  cbv beta delta [bind wrap call ask lift prepend after ret throw panic deref
                    index emit].
Ltac run_simpl :=
  cbn [emitted outcome quitAfter trace quit app lookup list_lookup];
  rewrite ?app_nil_r.

(** ** The calls a computation may make *)

Definition only {A} (P : Event -> Prop) (m : M A) : Prop :=
  forall w, Forall P (emitted (m w)).

Section Only.
Context (P : Event -> Prop).

Lemma only_ret {A} (a : A) : only P (ret a).
Proof. intros w. constructor. Qed.

Lemma only_throw {A} e : only P (@throw A e).
Proof. intros w. constructor. Qed.

Lemma only_panic {A} msg : only P (@panic A msg).
Proof. intros w. constructor. Qed.

Lemma only_lift {A} (r : result A) : only P (lift r).
Proof. intros w. constructor. Qed.

Lemma only_bind {A B} (m : M A) (k : A -> M B) :
  only P m -> (forall a, only P (k a)) -> only P (bind m k).
Proof.
  intros Hm Hk w. specialize (Hm w).
  destruct (outcome (m w)) as [a|e|msg] eqn:E.
  - rewrite (bind_Ok _ _ _ a E), prepend_emitted.
    apply Forall_app; split; auto. apply Hk.
  - rewrite (bind_Err _ _ _ e E). exact Hm.
  - rewrite (bind_Panic _ _ _ msg E). exact Hm.
Qed.

Lemma only_wrap {A} f (m : M A) : only P m -> only P (wrap f m).
Proof. intros Hm w. rewrite wrap_emitted. apply Hm. Qed.

Lemma only_emit ev : P ev -> only P (emit ev).
Proof. intros H w. simpl. auto. Qed.

Lemma only_ask {A} (answer : list Event -> A) ev :
  (forall a, P (ev a)) -> only P (ask answer ev).
Proof. intros H w. simpl. auto. Qed.

Lemma only_call {A} (answer : list Event -> result A) ev :
  (forall r, P (ev r)) -> only P (call answer ev).
Proof. intros H w. rewrite call_emitted. auto. Qed.

Lemma only_deref {A} what (o : option A) : only P (deref what o).
Proof. destruct o; [apply only_ret | apply only_panic]. Qed.

Lemma only_index {A} what (s : list A) i : only P (index what s i).
Proof. unfold index. destruct (s !! i); [apply only_ret | apply only_panic]. Qed.

Lemma only_forM {A} (s : list A) body :
  (forall x, only P (body x)) -> only P (forM s body).
Proof.
  intros H. induction s; simpl; [apply only_ret | apply only_bind; auto].
Qed.

Lemma only_mapM {A B} (s : list A) (body : A -> M B) :
  (forall x, only P (body x)) -> only P (mapM s body).
Proof.
  intros H. induction s; simpl; [apply only_ret |].
  apply only_bind; auto. intros b. apply only_bind; auto.
  intros bs. apply only_ret.
Qed.

Lemma only_foldM {A St} (s : list A) (body : St -> A -> M St) acc :
  (forall acc x, only P (body acc x)) -> only P (foldM s body acc).
Proof.
  intros H. revert acc.
  induction s; intros acc; simpl; [apply only_ret | apply only_bind; auto].
Qed.

Lemma only_foldMi {A St} i (s : list A) (body : nat -> St -> A -> M St) acc :
  (forall i acc x, only P (body i acc x)) -> only P (foldMi i s body acc).
Proof.
  intros H. revert i acc.
  induction s; intros i acc; simpl; [apply only_ret | apply only_bind; auto].
Qed.

Lemma only_ParSlice {A} (s : list A) f :
  (forall x, only P (f x)) -> only P (ParSlice s f).
Proof.
  intros H. induction s as [|x s IH]; simpl; [apply only_ret |].
  intros w. specialize (H x w). specialize (IH (after w (f x w))).
  unfold after in IH.
  destruct (f x w) as [evs q [[]|e|msg]]; simpl in *; auto.
  - rewrite prepend_emitted. apply Forall_app; split; auto.
  - destruct (ParSlice s f _) as [evs' q' [[]|e'|msg']]; simpl in *;
      apply Forall_app; split; auto.
Qed.
End Only.

Lemma only_impl {A} (P Q : Event -> Prop) (m : M A) :
  (forall ev, P ev -> Q ev) -> only P m -> only Q m.
Proof. intros H Hm w. eapply Forall_impl; [apply Hm | auto]. Qed.

Create HintDb only discriminated.
#[export] Hint Resolve only_ret only_throw only_panic only_lift only_wrap
  only_deref only_index only_forM only_mapM only_foldM only_foldMi
  only_ParSlice : only.

(** Splits a goal [only P m] along the structure of [m]. *)
Ltac only_step :=
  first
    [ apply only_ret | apply only_throw | apply only_panic | apply only_lift
    | apply only_deref | apply only_index
    | apply only_wrap
    | apply only_bind; [| intros ?]
    | apply only_emit | apply only_ask; intros ? | apply only_call; intros ?
    | apply only_forM; intros ? | apply only_mapM; intros ?
    | apply only_foldM; intros ? ? | apply only_foldMi; intros ? ? ?
    | apply only_ParSlice; intros ? ].

Ltac only_solve :=
  repeat (first
            [ only_step
            | match goal with
              | |- only _ (match ?x with _ => _ end) => destruct x
              | |- only _ (if ?x then _ else _) => destruct x
              end ]);
  try (simpl; tauto).

Lemma only_bind_ret (P : Event -> Prop) {A B} (a : A) (k : A -> M B) :
  only P (k a) -> only P (bind (ret a) k).
Proof.
  intros H w. rewrite (bind_Ok _ _ _ a) by reflexivity.
  rewrite prepend_emitted. simpl. apply H.
Qed.

Lemma only_run (P : Event -> Prop) {A} (m : M A) w :
  only P m -> Forall P (emitted (m w)).
Proof. intros H. apply H. Qed.

(** ** What a computation returns *)

Definition returns {A} (Q : A -> Prop) (m : M A) : Prop :=
  forall w a, outcome (m w) = Ok a -> Q a.

Section Returns.
Context {A : Type} (Q : A -> Prop).

Lemma returns_ret a : Q a -> returns Q (ret a).
Proof. intros H w b [= <-]. exact H. Qed.

Lemma returns_throw e : returns Q (throw e).
Proof. intros w b. discriminate. Qed.

Lemma returns_panic msg : returns Q (panic msg).
Proof. intros w b. discriminate. Qed.

Lemma returns_bind {B} (m : M B) (k : B -> M A) :
  (forall b, returns Q (k b)) -> returns Q (bind m k).
Proof.
  intros H w a Ha. apply bind_Ok_inv in Ha as (b & _ & Hk & _). eapply H, Hk.
Qed.

Lemma returns_wrap f (m : M A) : returns Q m -> returns Q (wrap f m).
Proof. intros H w a Ha. apply wrap_Ok_inv in Ha as [Ha _]. eapply H, Ha. Qed.
End Returns.

Ltac returns_solve :=
  repeat (first
            [ apply returns_ret | apply returns_throw | apply returns_panic
            | apply returns_bind; intros ?
            | match goal with
              | |- returns _ (match ?x with _ => _ end) => destruct x
              | |- returns _ (if ?x then _ else _) => destruct x
              end ]);
  try (simpl; tauto).

(** * The states and the calls of a step *)

Section Steps.
Variable p : ChainPorter.

(** The state that follows a state in the order of the driver. *)
Definition next (s : SendStateT) : SendStateT :=
  match s with
  | SendStateVirtualCommitmentSelect => SendStateVirtualSign
  | SendStateVirtualSign => SendStateAnchorSign
  | SendStateAnchorSign => SendStateLogCommit
  | SendStateLogCommit => SendStateBroadcast
  | SendStateBroadcast => SendStateWaitTxConf
  | SendStateWaitTxConf => SendStateStoreProofs
  | SendStateStoreProofs => SendStateReceiverProofTransfer
  | SendStateReceiverProofTransfer => SendStateComplete
  | SendStateComplete => SendStateComplete
  end.

(** Which call is made in which state; the anchor transaction published is
    the one of the package's outbound parcel. *)
Definition made_in (pkg : sendPackage) (ev : Event) : Prop :=
  match ev with
  | EvExecuteSendState _ | EvErrChan _ => False
  | EvFundAddressSend _ _ =>
      SendState pkg = SendStateVirtualCommitmentSelect
  | EvSignVirtualPacket _ _ => SendState pkg = SendStateVirtualSign
  | EvEstimateFee _ _ | EvSignPassiveAssets _ _ _
  | EvAnchorVirtualTransactions _ _ => SendState pkg = SendStateAnchorSign
  | EvCurrentHeight _ | EvIsLocalKey _ _ | EvLogPendingParcel _ _ =>
      SendState pkg = SendStateLogCommit
  | EvImportTaprootOutput _ _ | EvDeliverTxBroadcastResp _ =>
      SendState pkg = SendStateBroadcast
  | EvPublishTransaction tx _ =>
      SendState pkg = SendStateBroadcast
      /\ exists parcel, OutboundPkg pkg = Some parcel /\ tx = op_AnchorTx parcel
  | EvRegisterConfirmationsNtfn _ _ _ _ _ _ | EvConfSelect _ =>
      SendState pkg = SendStateWaitTxConf
  | EvImportProofs _ _ => SendState pkg = SendStateStoreProofs
  | EvFetchProof _ _ =>
      SendState pkg = SendStateStoreProofs
      \/ SendState pkg = SendStateReceiverProofTransfer
  | EvDeliverProof _ _ _ | EvConfirmParcelDelivery _ _ =>
      SendState pkg = SendStateReceiverProofTransfer
  end.

Definition fetches_only (ev : Event) : Prop :=
  match ev with EvFetchProof _ _ => True | _ => False end.

Definition archive_only (ev : Event) : Prop :=
  match ev with EvFetchProof _ _ | EvImportProofs _ _ => True | _ => False end.

Lemma fetchInputProof_only input : only fetches_only (fetchInputProof p input).
Proof. unfold fetchInputProof, fetchProof. only_solve. Qed.

Lemma updateAssetProofFile_only assetID key confEvent newProof :
  only fetches_only (updateAssetProofFile p assetID key confEvent newProof).
Proof.
  unfold updateAssetProofFile, fetchProof, UpdateTransitionProof, AppendProof.
  only_solve.
Qed.

Lemma sealOutputProof_only parcel confEvent firstInput idx out :
  only fetches_only (sealOutputProof p parcel confEvent firstInput idx out).
Proof.
  unfold sealOutputProof, addAdditionalInputs, UpdateTransitionProof,
    AppendProof.
  only_solve; apply fetchInputProof_only.
Qed.

Lemma storeProofs_only pkg : only archive_only (storeProofs p pkg).
Proof.
  unfold storeProofs, updatePassiveAsset, storeOutputProof, importProofs.
  only_solve;
    unfold UpdateTransitionProof, AppendProof; only_solve.
Qed.

Definition delivery_only (ev : Event) : Prop :=
  match ev with
  | EvFetchProof _ _ | EvDeliverProof _ _ _ | EvConfirmParcelDelivery _ _ =>
      True
  | _ => False
  end.

Lemma transferReceiverProof_only pkg :
  only delivery_only (transferReceiverProof p pkg).
Proof.
  unfold transferReceiverProof, deliverProofs, confirmDelivery, deliver,
    loadPassiveAssetProofFile, fetchProof.
  only_solve.
Qed.

Definition confirmation_only (ev : Event) : Prop :=
  match ev with
  | EvRegisterConfirmationsNtfn _ _ _ _ _ _ | EvConfSelect _ => True
  | _ => False
  end.

Lemma waitForTransferTxConf_only pkg :
  only confirmation_only (waitForTransferTxConf p pkg).
Proof.
  unfold waitForTransferTxConf, closeQuit. only_solve.
  all: intros w; simpl; constructor.
Qed.

Definition import_only (ev : Event) : Prop :=
  match ev with EvImportTaprootOutput _ _ => True | _ => False end.

Lemma importLocalAddresses_only parcel :
  only import_only (importLocalAddresses p parcel).
Proof. unfold importLocalAddresses, importLocalAddress. only_solve. Qed.

(** A step announces its state, then makes only the calls of that state. *)
Lemma stateStep_calls pkg w :
  exists calls,
    emitted (stateStep p pkg w) = EvExecuteSendState (SendState pkg) :: calls
    /\ Forall (made_in pkg) calls.
Proof.
  unfold stateStep, publishSubscriberEvent.
  rewrite (bind_Ok _ _ _ tt) by reflexivity.
  rewrite prepend_emitted. simpl. eexists; split; [reflexivity |].
  apply only_run.
  destruct (SendState pkg) eqn:Hs.
  - only_solve.
  - only_solve.
  - only_solve.
  - unfold stampScriptKeyLocal. only_solve.
  - destruct (OutboundPkg pkg) as [parcel|] eqn:Ho.
    + apply only_bind.
      { apply only_wrap. eapply only_impl; [| apply importLocalAddresses_only].
        intros []; simpl; tauto. }
      intros _. simpl. apply only_bind_ret. only_solve. simpl. eauto.
    + apply only_bind.
      { apply only_wrap. eapply only_impl; [| apply importLocalAddresses_only].
        intros []; simpl; tauto. }
      intros _. simpl. only_solve.
  - eapply only_impl; [| apply waitForTransferTxConf_only].
    intros []; simpl; tauto.
  - eapply only_impl; [| apply storeProofs_only].
    intros []; simpl; tauto.
  - eapply only_impl; [| apply transferReceiverProof_only].
    intros []; simpl; tauto.
  - only_solve.
Qed.
End Steps.

(** * The confirmation wait *)

Section ConfirmationWait.
Variable p : ChainPorter.

(** The answer of the chain bridge to the registration made for [parcel],
    whose anchor transaction has [txOut0] as first output. *)
Definition registered (parcel : OutboundParcel) (txOut0 : wire.TxOutT)
  (h : list Event) : result unit :=
  RegisterConfirmationsNtfn (cfg_ChainBridge (cfg p)) h
    (TxHash (lib p) (op_AnchorTx parcel)) (wire.PkScript txOut0) 1
    (AnchorTxHeightHint parcel) true.

(** What the [select] receives once the registration is made. *)
Definition received (parcel : OutboundParcel) (txOut0 : wire.TxOutT)
  (h : list Event) : ConfSelect :=
  confSelect (rt p)
    (h ++ [EvRegisterConfirmationsNtfn (TxHash (lib p) (op_AnchorTx parcel))
             (wire.PkScript txOut0) 1 (AnchorTxHeightHint parcel) true
             (registered parcel txOut0 h)]).

Lemma waitForTransferTxConf_run pkg w parcel txOut0 rest :
  OutboundPkg pkg = Some parcel ->
  wire.TxOut (op_AnchorTx parcel) = txOut0 :: rest ->
  outcome (waitForTransferTxConf p pkg w)
  = match registered parcel txOut0 (trace w) with
    | Ok _ =>
        match received parcel txOut0 (trace w) with
        | Confirmed (Some ev) =>
            Ok (with_SendState SendStateStoreProofs
                  (with_TransferTxConfEvent ev pkg))
        | Confirmed None => Panic "nil pointer dereference: confEvent"
        | NtfnErr err =>
            Err (Errorf_w
                   "error whilst waiting for package tx confirmation: " err)
        | CtxDone =>
            Err (errorNew "got empty package tx confirmation event in batch")
        | QuitClosed => Ok pkg
        end
    | Err err => Err (Errorf_w "unable to register for package tx conf: " err)
    | Panic msg => Panic msg
    end
  /\ (quitAfter (waitForTransferTxConf p pkg w) = true
      <-> quit w = true
          \/ (is_Ok (registered parcel txOut0 (trace w)) = true
              /\ (received parcel txOut0 (trace w) = CtxDone
                  \/ received parcel txOut0 (trace w) = QuitClosed))).
Proof.
  intros Ho Ht.
  unfold waitForTransferTxConf, received, registered, closeQuit.
  rewrite Ho. run_unfold. run_simpl. rewrite Ht. run_simpl.
  destruct (RegisterConfirmationsNtfn _ _ _ _ _ _ _) as [[]|e|msg];
    run_simpl; [| split; [reflexivity | intuition discriminate] ..].
  destruct (confSelect _ _) as [[ev|]|e| |]; run_simpl;
    (split; [reflexivity |]); intuition discriminate.
Qed.
End ConfirmationWait.

(** * The order of the states *)

(** The states a run executed, in order: the states of its
    [ExecuteSendStateEvent]s. *)
Definition executed (evs : list Event) : list SendStateT :=
  omap (fun ev => match ev with EvExecuteSendState s => Some s | _ => None end)
       evs.

Lemma executed_app evs1 evs2 :
  executed (evs1 ++ evs2) = executed evs1 ++ executed evs2.
Proof. apply omap_app. Qed.

Section StateOrder.
Variable p : ChainPorter.

Lemma made_in_not_executed pkg calls :
  Forall (made_in pkg) calls -> executed calls = [].
Proof.
  induction 1 as [|ev calls Hev _ IH]; [reflexivity |].
  destruct ev; simpl in *; try contradiction; exact IH.
Qed.

Lemma stateStep_executed pkg w :
  executed (emitted (stateStep p pkg w)) = [SendState pkg].
Proof.
  destruct (stateStep_calls p pkg w) as (calls & -> & Hcalls).
  simpl. f_equal. eapply made_in_not_executed, Hcalls.
Qed.

Lemma waitForTransferTxConf_Ok pkg w pkg' :
  outcome (waitForTransferTxConf p pkg w) = Ok pkg' ->
  (exists ev,
      pkg' = with_SendState SendStateStoreProofs
               (with_TransferTxConfEvent ev pkg))
  \/ (pkg' = pkg /\ quitAfter (waitForTransferTxConf p pkg w) = true).
Proof.
  destruct (OutboundPkg pkg) as [parcel|] eqn:Ho.
  2: { unfold waitForTransferTxConf. rewrite Ho. discriminate. }
  destruct (wire.TxOut (op_AnchorTx parcel)) as [|txOut0 rest] eqn:Ht.
  { unfold waitForTransferTxConf. rewrite Ho. simpl deref.
    rewrite (bind_Ok _ _ _ parcel) by reflexivity.
    rewrite Ht. discriminate. }
  destruct (waitForTransferTxConf_run p pkg w parcel txOut0 rest Ho Ht)
    as [-> Hq].
  destruct (registered p parcel txOut0 (trace w)) eqn:Hr; try discriminate.
  destruct (received p parcel txOut0 (trace w)) as [[ev|]|e| |] eqn:Hs;
    try discriminate; intros [= <-]; [left; eauto |].
  right. split; [reflexivity |]. apply Hq. right. auto.
Qed.

(** A step that returns without error has moved the package to the next
    state, or has left it as it is because the quit channel was closed
    during the confirmation wait. *)
Lemma stateStep_next pkg w pkg' :
  outcome (stateStep p pkg w) = Ok pkg' ->
  (SendState pkg' = next (SendState pkg)
   /\ SendState pkg <> SendStateComplete)
  \/ (SendState pkg = SendStateWaitTxConf /\ pkg' = pkg
      /\ quitAfter (stateStep p pkg w) = true).
Proof.
  unfold stateStep. intros H.
  apply bind_Ok_inv in H as ([] & _ & H & _ & Hq). rewrite Hq. clear Hq.
  revert H. generalize (after w (publishSubscriberEvent (SendState pkg) w)).
  intros w1.
  destruct (SendState pkg) eqn:Hs; simpl next.
  9: discriminate.
  6: { intros H. apply waitForTransferTxConf_Ok in H as [[ev ->]|[-> Hq]];
       [left; split; [reflexivity | discriminate] | right; auto]. }
  all: intros H; left; split; [| discriminate]; revert w1 pkg' H.
  all: match goal with
       | |- forall w a, outcome (?m w) = Ok a -> @?Q a =>
           change (returns Q m)
       end.
  - returns_solve.
  - returns_solve.
  - returns_solve.
  - returns_solve.
  - returns_solve.
  - unfold storeProofs. returns_solve.
  - unfold transferReceiverProof, confirmDelivery. returns_solve.
Qed.

Lemma stateStep_advances pkg w pkg' :
  outcome (stateStep p pkg w) = Ok pkg' ->
  (SendState_ord (SendState pkg) < SendState_ord (SendState pkg'))%nat
  \/ (pkg' = pkg /\ quitAfter (stateStep p pkg w) = true).
Proof.
  intros H. apply stateStep_next in H as [[-> Hc]|(_ & -> & Hq)]; [left | auto].
  destruct (SendState pkg); simpl; try lia. contradiction.
Qed.

(** The loop of [advanceState] returns: from a state of order [k] it needs
    no more than [9 - k] turns, and one turn once the quit channel is
    closed. *)
Lemma advanceState_loop_unfold fuel pkg w :
  advanceState_loop p fuel pkg w
  = if decide (SendState_ord (SendState pkg)
               < SendState_ord SendStateComplete)%nat
    then
      match fuel with
      | O => None
      | S fuel' =>
          if quitClosed p w then Some (mkRun [] true (Ok pkg))
          else
            match outcome (stateStep p pkg w) with
            | Ok updatedPkg =>
                prepend (emitted (stateStep p pkg w))
                  <$> advanceState_loop p fuel' updatedPkg
                        (after w (stateStep p pkg w))
            | Err err =>
                Some (mkRun (emitted (stateStep p pkg w) ++ [EvErrChan err])
                        (quitAfter (stateStep p pkg w)) (Err err))
            | Panic msg =>
                Some (mkRun (emitted (stateStep p pkg w))
                        (quitAfter (stateStep p pkg w)) (Panic msg))
            end
      end
    else Some (ret pkg w).
Proof. destruct fuel; reflexivity. Qed.

Lemma advanceState_loop_returns fuel pkg w :
  (9 - SendState_ord (SendState pkg) <= fuel
   \/ (quit w = true /\ 1 <= fuel))%nat ->
  is_Some (advanceState_loop p fuel pkg w).
Proof.
  revert pkg w. induction fuel as [|fuel IH]; intros pkg w Hf;
    rewrite advanceState_loop_unfold.
  - case_decide; [| eauto]. exfalso.
    destruct (SendState pkg); simpl in *; lia.
  - case_decide as Hlt; [| eauto].
    destruct (quitClosed p w) eqn:Hq; [eauto |].
    destruct (outcome (stateStep p pkg w)) as [pkg'| |] eqn:Hstep; [| eauto ..].
    assert (quit w = false) as Hqw.
    { unfold quitClosed in Hq. apply orb_false_iff in Hq. tauto. }
    destruct (IH pkg' (after w (stateStep p pkg w))) as [r Hr];
      [| rewrite Hr; simpl; eauto].
    apply stateStep_advances in Hstep as [Hadv|[-> Hquit]].
    + left. destruct Hf as [Hf|[Hf _]]; [lia | congruence].
    + right. simpl. split; [exact Hquit |].
      destruct Hf as [Hf|[Hf _]]; [| congruence].
      destruct (SendState pkg); simpl in *; lia.
Qed.

Lemma advanceState_returns pkg w : is_Some (advanceState p pkg w).
Proof.
  apply advanceState_loop_returns. left.
  destruct (SendState pkg); simpl; lia.
Qed.
End StateOrder.

Section Monotonic.
Variable p : ChainPorter.

#[local] Opaque stateStep.

Lemma advanceState_loop_sorted fuel pkg w r :
  advanceState_loop p fuel pkg w = Some r ->
  StronglySorted lt (SendState_ord <$> executed (emitted r))
  /\ Forall (fun s => (SendState_ord (SendState pkg) <= SendState_ord s)%nat)
       (executed (emitted r))
  /\ forall pkg',
      outcome r = Ok pkg' ->
      (SendState_ord (SendState pkg) <= SendState_ord (SendState pkg'))%nat
      /\ (Forall
            (fun s => (SendState_ord s < SendState_ord (SendState pkg'))%nat)
            (executed (emitted r))
          \/ (last (executed (emitted r)) = Some (SendState pkg')
              /\ quitAfter r = true)).
Proof.
  revert pkg w r. induction fuel as [|fuel IH]; intros pkg w r;
    rewrite advanceState_loop_unfold.
  - case_decide; [discriminate |]. intros [= <-]. simpl.
    split; [constructor | split; [constructor |]].
    intros pkg' [= <-]. split; [lia | left; constructor].
  - case_decide as Hlt.
    2: { intros [= <-]. simpl.
         split; [constructor | split; [constructor |]].
         intros pkg' [= <-]. split; [lia | left; constructor]. }
    destruct (quitClosed p w) eqn:Hq.
    { intros [= <-]. simpl.
      split; [constructor | split; [constructor |]].
      intros pkg' [= <-]. split; [lia | left; constructor]. }
    pose proof (stateStep_executed p pkg w) as Hex.
    destruct (outcome (stateStep p pkg w)) as [pkg1|e|msg] eqn:Hstep.
    + destruct (advanceState_loop p fuel pkg1 (after w (stateStep p pkg w)))
        as [r2|] eqn:Hr2; [| discriminate].
      simpl. intros [= <-].
      rewrite prepend_emitted, prepend_outcome, prepend_quitAfter.
      rewrite executed_app, Hex. simpl.
      apply stateStep_advances in Hstep as [Hadv|[-> Hquit]].
      * destruct (IH _ _ _ Hr2) as (Hs & Hge & Hfin).
        split; [| split].
        -- constructor; [exact Hs |].
           apply Forall_fmap. eapply Forall_impl; [exact Hge |].
           simpl. intros s Hle. lia.
        -- constructor; [lia |].
           eapply Forall_impl; [exact Hge |]. simpl. intros s Hle. lia.
        -- intros pkg' Hok. destruct (Hfin pkg' Hok) as [Hle Hcases].
           split; [lia |]. destruct Hcases as [Hall|[Hlast Hq']].
           ++ left. constructor; [lia | exact Hall].
           ++ right. split; [| exact Hq'].
              destruct (executed (emitted r2)); [discriminate | exact Hlast].
      * rewrite advanceState_loop_unfold in Hr2.
        rewrite decide_True in Hr2 by exact Hlt.
        destruct fuel; [discriminate |].
        unfold quitClosed in Hr2. simpl in Hr2. rewrite Hquit in Hr2.
        simpl in Hr2. injection Hr2 as <-. simpl.
        split; [| split].
        -- repeat constructor.
        -- repeat constructor.
        -- intros pkg' [= <-]. split; [lia |]. right. auto.
    + intros [= <-]. simpl. rewrite executed_app, Hex. simpl.
      split; [| split]; [repeat constructor .. | discriminate].
    + intros [= <-]. simpl. rewrite Hex. simpl.
      split; [| split]; [repeat constructor .. | discriminate].
Qed.

(** C3.  The driver returns for every package, and in every run of it the
    states executed, in order, are strictly increasing in the state order
    and not below the state the package started in; when the driver returns
    without error, the state of the package it returns is above every
    state executed, unless the last step left the package as it was because
    the quit channel was closed.  No step sets the state to an earlier or
    equal one: a step that returns without error has strictly advanced the
    state, or has returned the package unchanged upon quit. *)
Theorem advanceState_states_increase pkg w :
  exists r,
    advanceState p pkg w = Some r
    /\ StronglySorted lt (SendState_ord <$> executed (emitted r))
    /\ Forall
         (fun s => (SendState_ord (SendState pkg) <= SendState_ord s)%nat)
         (executed (emitted r))
    /\ (forall pkg',
           outcome r = Ok pkg' ->
           (SendState_ord (SendState pkg)
            <= SendState_ord (SendState pkg'))%nat
           /\ (Forall
                 (fun s =>
                    (SendState_ord s < SendState_ord (SendState pkg'))%nat)
                 (executed (emitted r))
               \/ (last (executed (emitted r)) = Some (SendState pkg')
                   /\ quitAfter r = true)))
    /\ (forall pkg0 w0 pkg1,
           outcome (stateStep p pkg0 w0) = Ok pkg1 ->
           (SendState_ord (SendState pkg0)
            < SendState_ord (SendState pkg1))%nat
           \/ (pkg1 = pkg0 /\ quitAfter (stateStep p pkg0 w0) = true)).
Proof.
  destruct (advanceState_returns p pkg w) as [r Hr].
  exists r. split; [exact Hr |].
  destruct (advanceState_loop_sorted _ _ _ _ Hr) as (H1 & H2 & H3).
  split; [exact H1 | split; [exact H2 | split; [exact H3 |]]].
  intros pkg0 w0 pkg1. apply stateStep_advances.
Qed.

#[local] Transparent stateStep.
End Monotonic.

(** * The journal entry comes before the broadcast *)

(** The anchor transaction [tx] is in the journal after the calls [h]: a
    [LogPendingParcel] for a parcel anchored by [tx] has returned without
    error. *)
Definition journaled (h : list Event) (tx : wire.MsgTx) : Prop :=
  exists parcel,
    EvLogPendingParcel parcel (Ok tt) ∈ h /\ op_AnchorTx parcel = tx.

(** Every [PublishTransaction] of the history was made for a transaction
    that was in the journal when the call was made. *)
Definition journal_before_publish (h : list Event) : Prop :=
  forall before tx r later,
    h = before ++ EvPublishTransaction tx r :: later -> journaled before tx.

Lemma journaled_app h evs tx : journaled h tx -> journaled (h ++ evs) tx.
Proof.
  intros (parcel & Hin & Htx). exists parcel. split; [| exact Htx].
  apply elem_of_app. auto.
Qed.

Lemma journal_before_publish_app h evs :
  journal_before_publish h ->
  Forall
    (fun ev => match ev with
               | EvPublishTransaction tx _ => journaled h tx
               | _ => True
               end) evs ->
  journal_before_publish (h ++ evs).
Proof.
  intros Hh Hevs before tx r later Heq.
  apply app_eq_app in Heq as [l [[-> Hl]|[-> Hl]]].
  - destruct l as [|ev l]; simpl in Hl.
    + rewrite app_nil_r in Hevs. subst evs.
      apply Forall_cons in Hevs as [Hev _]. exact Hev.
    + injection Hl as <- _. eapply Hh. reflexivity.
  - apply journaled_app. subst evs.
    apply Forall_app in Hevs as [_ Hevs].
    apply Forall_cons in Hevs as [Hev _]. exact Hev.
Qed.

Section Journal.
Variable p : ChainPorter.

(** The log-commit step, when it returns without error, has written the
    parcel it leaves in the package to the journal. *)
Lemma stateStep_LogCommit pkg w pkg' :
  SendState pkg = SendStateLogCommit ->
  outcome (stateStep p pkg w) = Ok pkg' ->
  exists parcel,
    OutboundPkg pkg' = Some parcel
    /\ EvLogPendingParcel parcel (Ok tt) ∈ emitted (stateStep p pkg w).
Proof.
  intros Hs. unfold stateStep. rewrite Hs. intros H.
  apply bind_Ok_inv in H as ([] & _ & H & -> & _).
  apply bind_Ok_inv in H as (height & _ & H & -> & _).
  apply bind_Ok_inv in H as (parcel & _ & H & -> & _).
  apply bind_Ok_inv in H as (outs & _ & H & -> & _).
  apply bind_Ok_inv in H as ([] & Hlog & H & -> & _).
  injection H as <-.
  apply wrap_Ok_inv in Hlog as [Hlog ->].
  apply call_Ok_inv in Hlog as [_ ->].
  eexists. split; [reflexivity |].
  rewrite !elem_of_app, list_elem_of_singleton. auto 10.
Qed.

#[local] Opaque stateStep.

Lemma advanceState_loop_journal fuel pkg w r :
  advanceState_loop p fuel pkg w = Some r ->
  (forall parcel,
      SendState pkg = SendStateBroadcast ->
      OutboundPkg pkg = Some parcel ->
      journaled (trace w) (op_AnchorTx parcel)) ->
  journal_before_publish (trace w) ->
  journal_before_publish (trace w ++ emitted r).
Proof.
  revert pkg w r. induction fuel as [|fuel IH]; intros pkg w r;
    rewrite advanceState_loop_unfold.
  - case_decide; [discriminate |]. intros [= <-] _ Hw. simpl.
    rewrite app_nil_r. exact Hw.
  - case_decide as Hlt.
    2: { intros [= <-] _ Hw. simpl. rewrite app_nil_r. exact Hw. }
    destruct (quitClosed p w) eqn:Hq.
    { intros [= <-] _ Hw. simpl. rewrite app_nil_r. exact Hw. }
    intros Hr Hpkg Hw.
    assert (journal_before_publish (trace w ++ emitted (stateStep p pkg w)))
      as Hstepj.
    { apply journal_before_publish_app; [exact Hw |].
      destruct (stateStep_calls p pkg w) as (calls & -> & Hcalls).
      constructor; [exact I |].
      eapply Forall_impl; [exact Hcalls |].
      intros [] Hev; try exact I.
      destruct Hev as (Hs & parcel & Ho & ->). auto. }
    destruct (outcome (stateStep p pkg w)) as [pkg1|e|msg] eqn:Hstep.
    + destruct (advanceState_loop p fuel pkg1 (after w (stateStep p pkg w)))
        as [r2|] eqn:Hr2; [| discriminate].
      injection Hr as <-. rewrite prepend_emitted.
      rewrite app_assoc.
      apply (IH _ _ _ Hr2); [| exact Hstepj].
      intros parcel Hs1 Ho1. cbn [after trace].
      apply stateStep_next in Hstep as Hnext.
      destruct Hnext as [[Hn _]|(Hwait & -> & _)]; [| congruence].
      assert (SendState pkg = SendStateLogCommit) as Hs.
      { rewrite Hs1 in Hn. destruct (SendState pkg); simpl in Hn; congruence. }
      destruct (stateStep_LogCommit _ _ _ Hs Hstep) as (parcel' & Ho' & Hin).
      rewrite Ho1 in Ho'. injection Ho' as <-.
      exists parcel. split; [| reflexivity].
      apply elem_of_app. auto.
    + injection Hr as <-. cbn [emitted]. rewrite app_assoc.
      apply journal_before_publish_app; [exact Hstepj |].
      constructor; [exact I | constructor].
    + injection Hr as <-. exact Hstepj.
Qed.

(** C1.  In every run of the driver, every [PublishTransaction] is made
    for an anchor transaction whose parcel [LogPendingParcel] has already
    written to the journal without error.  The package starts before the
    broadcast state, or it is resumed in the broadcast state with a parcel
    that the journal holds; the history before the run is one in which the
    journal entry came before every broadcast. *)
Theorem advanceState_journal_before_publish pkg w r :
  advanceState p pkg w = Some r ->
  (forall parcel,
      SendState pkg = SendStateBroadcast ->
      OutboundPkg pkg = Some parcel ->
      journaled (trace w) (op_AnchorTx parcel)) ->
  journal_before_publish (trace w) ->
  journal_before_publish (trace w ++ emitted r).
Proof. apply advanceState_loop_journal. Qed.

(** A package that starts before the broadcast state, with no call made
    yet, is never broadcast before it is in the journal. *)
Corollary advanceState_fresh_journal_before_publish pkg q r :
  advanceState p pkg {| trace := []; quit := q |} = Some r ->
  (SendState_ord (SendState pkg) <= SendState_ord SendStateLogCommit)%nat ->
  journal_before_publish (emitted r).
Proof.
  intros Hr Hs.
  apply (advanceState_loop_journal _ _ _ _ Hr).
  - intros parcel Hb. rewrite Hb in Hs. simpl in Hs. lia.
  - intros [|ev before] tx res later; discriminate.
Qed.

(** A pending parcel of the journal, resumed at start, is broadcast again
    only as a parcel of the journal. *)
Corollary resumePendingParcel_journal_before_publish parcel w r :
  resumePendingParcel p parcel w = Some r ->
  journaled (trace w) (op_AnchorTx parcel) ->
  journal_before_publish (trace w) ->
  journal_before_publish (trace w ++ emitted r).
Proof.
  intros Hr Hj. apply (advanceState_loop_journal _ _ _ _ Hr).
  intros parcel' _ [= <-]. exact Hj.
Qed.

#[local] Transparent stateStep.
End Journal.

(** * Errors of the confirmation wait *)

Section ConfirmationErrors.
Variable p : ChainPorter.

(** C4, as amended.  After a successful registration, a wait that ends by
    context cancellation returns the error of the empty confirmation event,
    and a wait that ends by process quit returns no error and leaves the
    package as it is; an error is returned only on registration failure, on
    an error from the notifier's error channel, or on context
    cancellation. *)
Theorem waitForTransferTxConf_errors pkg w parcel txOut0 rest :
  OutboundPkg pkg = Some parcel ->
  wire.TxOut (op_AnchorTx parcel) = txOut0 :: rest ->
  (registered p parcel txOut0 (trace w) = Ok tt ->
   received p parcel txOut0 (trace w) = CtxDone ->
   outcome (waitForTransferTxConf p pkg w)
   = Err (errorNew "got empty package tx confirmation event in batch"))
  /\ (registered p parcel txOut0 (trace w) = Ok tt ->
      received p parcel txOut0 (trace w) = QuitClosed ->
      outcome (waitForTransferTxConf p pkg w) = Ok pkg)
  /\ (forall e,
         outcome (waitForTransferTxConf p pkg w) = Err e ->
         (exists e',
             registered p parcel txOut0 (trace w) = Err e'
             /\ e = Errorf_w "unable to register for package tx conf: " e')
         \/ (exists e',
                registered p parcel txOut0 (trace w) = Ok tt
                /\ received p parcel txOut0 (trace w) = NtfnErr e'
                /\ e = Errorf_w
                         "error whilst waiting for package tx confirmation: "
                         e')
         \/ (registered p parcel txOut0 (trace w) = Ok tt
             /\ received p parcel txOut0 (trace w) = CtxDone
             /\ e = errorNew
                      "got empty package tx confirmation event in batch")).
Proof.
  intros Ho Ht.
  destruct (waitForTransferTxConf_run p pkg w parcel txOut0 rest Ho Ht)
    as [-> _].
  split; [| split].
  - intros -> ->. reflexivity.
  - intros -> ->. reflexivity.
  - intros e.
    destruct (registered p parcel txOut0 (trace w)) as [[]|e'|msg];
      [| intros [= <-]; left; eauto | discriminate].
    destruct (received p parcel txOut0 (trace w)) as [[ev|]|e'| |];
      try discriminate; intros [= <-]; right; [left | right]; eauto.
Qed.
End ConfirmationErrors.

(** * Importing the anchor outputs of our own outputs *)

Definition imports (evs : list Event) : list (PublicKey * result unit) :=
  omap (fun ev => match ev with
                  | EvImportTaprootOutput k r => Some (k, r)
                  | _ => None
                  end) evs.

Lemma imports_app evs1 evs2 :
  imports (evs1 ++ evs2) = imports evs1 ++ imports evs2.
Proof. apply omap_app. Qed.

Lemma imports_cons k r evs :
  imports (EvImportTaprootOutput k r :: evs) = (k, r) :: imports evs.
Proof. reflexivity. Qed.

Section ImportLocalAddresses.
Variable p : ChainPorter.

(** The anchor output of [out] is in the anchor transaction and carries a
    taproot key. *)
Definition anchor_key (parcel : OutboundParcel) (out : TransferOutput)
  (key : PublicKey) : Prop :=
  exists anchorOutput info,
    wire.TxOut (op_AnchorTx parcel)
      !! Z.to_nat (wire.Index (an_OutPoint (out_Anchor out)))
    = Some anchorOutput
    /\ ExtractWitnessProgramInfo (lib p) (wire.PkScript anchorOutput)
       = Ok info
    /\ schnorr_ParsePubKey (lib p) info.2 = Ok key.

(** The wallet's answer is no error for the porter: nil, or an error whose
    message contains "already exists". *)
Definition import_tolerated (r : result unit) : Prop :=
  r = Ok tt
  \/ exists e, r = Err e
               /\ strings_Contains (Error e) "already exists" = true.

Lemma importLocalAddress_skip parcel out w :
  ScriptKeyLocal out = false ->
  importLocalAddress p parcel out w = ret tt w.
Proof. unfold importLocalAddress. intros ->. reflexivity. Qed.

Lemma importLocalAddress_run parcel out key w :
  ScriptKeyLocal out = true ->
  anchor_key parcel out key ->
  emitted (importLocalAddress p parcel out w)
  = [EvImportTaprootOutput key
       (ImportTaprootOutput (cfg_Wallet (cfg p)) (trace w) key)]
  /\ outcome (importLocalAddress p parcel out w)
     = match ImportTaprootOutput (cfg_Wallet (cfg p)) (trace w) key with
       | Ok _ => Ok tt
       | Err err =>
           if strings_Contains (Error err) "already exists" then Ok tt
           else Err err
       | Panic msg => Panic msg
       end.
Proof.
  intros Hl (anchorOutput & info & Hidx & Hinfo & Hkey).
  unfold importLocalAddress. rewrite Hl. cbn [negb].
  run_unfold. rewrite Hidx. run_simpl. rewrite Hinfo. run_simpl.
  rewrite Hkey. run_simpl.
  destruct (ImportTaprootOutput _ _ _) as [[]|e|msg];
    [split; reflexivity | | split; reflexivity].
  destruct (strings_Contains _ _); split; reflexivity.
Qed.

Definition anchors_well_formed (parcel : OutboundParcel)
  (outs : list TransferOutput) : Prop :=
  forall out,
    out ∈ outs -> ScriptKeyLocal out = true ->
    exists key, anchor_key parcel out key.

Lemma import_loop parcel outs w :
  anchors_well_formed parcel outs ->
  ((forall k res,
       (k, res) ∈ imports (emitted (forM outs (importLocalAddress p parcel) w)) ->
       import_tolerated res) ->
   outcome (forM outs (importLocalAddress p parcel) w) = Ok tt)
  /\ (forall k e,
         (k, Err e)
         ∈ imports (emitted (forM outs (importLocalAddress p parcel) w)) ->
         strings_Contains (Error e) "already exists" = false ->
         outcome (forM outs (importLocalAddress p parcel) w) = Err e
         /\ last (imports (emitted (forM outs (importLocalAddress p parcel) w)))
            = Some (k, Err e)).
Proof.
  revert w. induction outs as [|out outs IH]; intros w Hwf.
  { split; [reflexivity |]. intros k e Hin. simpl in Hin. inversion Hin. }
  assert (anchors_well_formed parcel outs) as Hwf'.
  { intros o Ho. apply Hwf. right. exact Ho. }
  cbn [forM].
  destruct (ScriptKeyLocal out) eqn:Hl.
  2: { rewrite (bind_Ok _ _ _ tt)
         by (rewrite importLocalAddress_skip by exact Hl; reflexivity).
       rewrite importLocalAddress_skip by exact Hl.
       rewrite prepend_emitted, prepend_outcome. cbn [emitted ret app].
       apply IH, Hwf'. }
  destruct (Hwf out) as [key Hkey]; [left | exact Hl |].
  destruct (importLocalAddress_run parcel out key w Hl Hkey) as [Hev Hout].
  set (w1 := after w (importLocalAddress p parcel out w)).
  specialize (IH w1 Hwf') as [IH1 IH2].
  destruct (ImportTaprootOutput (cfg_Wallet (cfg p)) (trace w) key)
    as [[]|e0|msg] eqn:Hans.
  - rewrite (bind_Ok _ _ _ tt) by exact Hout. rewrite Hev.
    rewrite prepend_emitted, prepend_outcome. cbn [app].
    rewrite imports_cons. fold w1.
    split.
    + intros Htol. apply IH1. intros k res Hin. eapply Htol. right. exact Hin.
    + intros k e Hin Hc. apply elem_of_cons in Hin as [[= _ ?]|Hin].
      destruct (IH2 k e Hin Hc) as [Ho Hlast]. split; [exact Ho |].
      destruct (imports _); [discriminate | exact Hlast].
  - destruct (strings_Contains (Error e0) "already exists") eqn:Hc0.
    + rewrite (bind_Ok _ _ _ tt) by exact Hout. rewrite Hev.
      rewrite prepend_emitted, prepend_outcome. cbn [app].
      rewrite imports_cons. fold w1.
      split.
      * intros Htol. apply IH1. intros k res Hin. eapply Htol. right.
        exact Hin.
      * intros k e Hin Hc. apply elem_of_cons in Hin as [[= _ <-]|Hin];
          [congruence |].
        destruct (IH2 k e Hin Hc) as [Ho Hlast]. split; [exact Ho |].
        destruct (imports _); [discriminate | exact Hlast].
    + rewrite (bind_Err _ _ _ e0) by exact Hout. rewrite Hev.
      cbn [emitted outcome]. rewrite imports_cons. cbn [imports omap].
      split.
      * intros Htol. destruct (Htol key (Err e0)) as [?|(e & [= <-] & ?)];
          [left | discriminate | congruence].
      * intros k e Hin Hc. apply list_elem_of_singleton in Hin.
        injection Hin as -> ->. auto.
  - rewrite (bind_Panic _ _ _ msg) by exact Hout. rewrite Hev.
    cbn [emitted outcome]. rewrite imports_cons. cbn [imports omap].
    split.
    + intros Htol. destruct (Htol key (Panic msg)) as [?|(e & ? & _)];
        [left | discriminate ..].
    + intros k e Hin Hc. apply list_elem_of_singleton in Hin. discriminate.
Qed.
End ImportLocalAddresses.

Lemma bind_emitted_prefix {A B} (m : M A) (k : A -> M B) w :
  exists rest, emitted (bind m k w) = emitted (m w) ++ rest.
Proof.
  unfold bind. destruct (m w) as [evs q [a|e|msg]]; cbn [emitted].
  - rewrite prepend_emitted. eauto.
  - exists []. rewrite app_nil_r. reflexivity.
  - exists []. rewrite app_nil_r. reflexivity.
Qed.

Definition publishes (evs : list Event) : list wire.MsgTx :=
  omap (fun ev => match ev with
                  | EvPublishTransaction tx _ => Some tx
                  | _ => None
                  end) evs.

Lemma publishes_app evs1 evs2 :
  publishes (evs1 ++ evs2) = publishes evs1 ++ publishes evs2.
Proof. apply omap_app. Qed.

Lemma imports_execute s evs :
  imports (EvExecuteSendState s :: evs) = imports evs.
Proof. reflexivity. Qed.

Lemma publishes_execute s evs :
  publishes (EvExecuteSendState s :: evs) = publishes evs.
Proof. reflexivity. Qed.

Section BroadcastImports.
Variable p : ChainPorter.

Lemma import_only_publishes evs : Forall import_only evs -> publishes evs = [].
Proof.
  induction 1 as [|ev evs Hev _ IH]; [reflexivity |].
  destruct ev; simpl in *; try contradiction; exact IH.
Qed.

Lemma importLocalAddresses_Some parcel w :
  importLocalAddresses p (Some parcel) w
  = prepend [] (forM (Outputs parcel) (importLocalAddress p parcel)
                  (after w (ret parcel w))).
Proof.
  unfold importLocalAddresses. simpl deref.
  rewrite (bind_Ok _ _ _ parcel) by reflexivity. reflexivity.
Qed.

(** C8.  In [importLocalAddresses], and so in the broadcast step, an
    import that the wallet answers with an error whose message contains
    "already exists" counts as a success: when every import of the run is
    answered with nil or with such an error, [importLocalAddresses] returns
    no error and the step goes on to publish the anchor transaction.  Any
    other import error aborts: it is the last import made, it is returned
    by [importLocalAddresses] as it is and by the step wrapped, and the
    step publishes nothing.  The anchor outputs of the outputs marked local
    are taken to be in the anchor transaction and to carry a taproot
    key. *)
Theorem importLocalAddresses_already_exists pkg parcel w :
  SendState pkg = SendStateBroadcast ->
  OutboundPkg pkg = Some parcel ->
  anchors_well_formed p parcel (Outputs parcel) ->
  ((forall k res,
       (k, res) ∈ imports (emitted (importLocalAddresses p (Some parcel) w)) ->
       import_tolerated res) ->
   outcome (importLocalAddresses p (Some parcel) w) = Ok tt)
  /\ (forall k e,
         (k, Err e)
         ∈ imports (emitted (importLocalAddresses p (Some parcel) w)) ->
         strings_Contains (Error e) "already exists" = false ->
         outcome (importLocalAddresses p (Some parcel) w) = Err e
         /\ last (imports (emitted (importLocalAddresses p (Some parcel) w)))
            = Some (k, Err e))
  /\ ((forall k res,
          (k, res) ∈ imports (emitted (stateStep p pkg w)) ->
          import_tolerated res) ->
      publishes (emitted (stateStep p pkg w)) = [op_AnchorTx parcel])
  /\ (forall k e,
         (k, Err e) ∈ imports (emitted (stateStep p pkg w)) ->
         strings_Contains (Error e) "already exists" = false ->
         outcome (stateStep p pkg w)
         = Err (Errorf_w "unable to import local addresses: " e)
         /\ publishes (emitted (stateStep p pkg w)) = []).
Proof.
  intros Hs Ho Hwf.
  assert (forall w0,
             ((forall k res,
                  (k, res)
                  ∈ imports (emitted (importLocalAddresses p (Some parcel) w0)) ->
                  import_tolerated res) ->
              outcome (importLocalAddresses p (Some parcel) w0) = Ok tt)
             /\ (forall k e,
                    (k, Err e)
                    ∈ imports
                        (emitted (importLocalAddresses p (Some parcel) w0)) ->
                    strings_Contains (Error e) "already exists" = false ->
                    outcome (importLocalAddresses p (Some parcel) w0) = Err e
                    /\ last
                         (imports
                            (emitted
                               (importLocalAddresses p (Some parcel) w0)))
                       = Some (k, Err e)))
    as Hloop.
  { intros w0. rewrite importLocalAddresses_Some.
    rewrite prepend_emitted, prepend_outcome. cbn [app].
    apply import_loop, Hwf. }
  split; [apply Hloop | split; [apply Hloop |]].
  unfold stateStep, publishSubscriberEvent. rewrite Hs, Ho.
  rewrite (bind_Ok _ _ _ tt) by reflexivity.
  set (w1 := after w (emit (EvExecuteSendState SendStateBroadcast) w)).
  rewrite prepend_emitted, prepend_outcome.
  cbn [emitted emit app].
  rewrite !imports_execute, !publishes_execute.
  destruct (Hloop w1) as [Htol Habort].
  pose proof (importLocalAddresses_only p (Some parcel) w1) as Honly.
  set (imp := importLocalAddresses p (Some parcel)) in *.
  set (f := Errorf_w "unable to import local addresses: ").
  destruct (outcome (imp w1)) as [[]|e0|msg] eqn:Himp.
  - assert (outcome (wrap f imp w1) = Ok tt) as Hwrap
        by (rewrite wrap_outcome, Himp; reflexivity).
    rewrite (bind_Ok _ _ _ tt) by exact Hwrap.
    rewrite wrap_emitted, prepend_emitted, prepend_outcome.
    cbn [deref]. rewrite (bind_Ok _ _ _ parcel) by reflexivity.
    rewrite prepend_emitted, prepend_outcome. cbn [emitted ret app].
    match goal with
    | |- context [bind (call ?a ?ev) ?k ?w2] =>
        assert (publishes (emitted (bind (call a ev) k w2))
                = [op_AnchorTx parcel]
                /\ imports (emitted (bind (call a ev) k w2)) = [])
          as [Hpub Hnoimp]
    end.
    { run_unfold. run_simpl.
      destruct (PublishTransaction _ _ _); run_simpl; auto. }
    rewrite imports_app, Hnoimp, app_nil_r.
    rewrite !publishes_app, (import_only_publishes _ Honly), Hpub.
    split; [reflexivity |].
    intros k e Hin Hc. destruct (Habort k e Hin Hc) as [[=] _].
  - assert (outcome (wrap f imp w1) = Err (f e0)) as Hwrap
        by (rewrite wrap_outcome, Himp; reflexivity).
    rewrite (bind_Err _ _ _ (f e0)) by exact Hwrap.
    rewrite wrap_emitted. cbn [emitted outcome].
    rewrite (import_only_publishes _ Honly).
    split.
    + intros Htol'. specialize (Htol Htol'). discriminate.
    + intros k e Hin Hc. destruct (Habort k e Hin Hc) as [[= <-] _]. auto.
  - assert (outcome (wrap f imp w1) = Panic msg) as Hwrap
        by (rewrite wrap_outcome, Himp; reflexivity).
    rewrite (bind_Panic _ _ _ msg) by exact Hwrap.
    rewrite wrap_emitted. cbn [emitted outcome].
    split.
    + intros Htol'. specialize (Htol Htol'). discriminate.
    + intros k e Hin Hc. destruct (Habort k e Hin Hc) as [[=] _].
Qed.
End BroadcastImports.

(** * Delivery of the receiver proofs *)

(** The deliveries a run asked of the courier, in order. *)
Definition deliveries (evs : list Event)
  : list (proof.Recipient * proof.AnnotatedProof) :=
  omap (fun ev => match ev with
                  | EvDeliverProof rcp ap _ => Some (rcp, ap)
                  | _ => None
                  end) evs.

(** The answers of the courier in a run. *)
Definition delivery_answers (evs : list Event) : list (result unit) :=
  omap (fun ev => match ev with
                  | EvDeliverProof _ _ r => Some r
                  | _ => None
                  end) evs.


Lemma delivery_answers_app evs1 evs2 :
  delivery_answers (evs1 ++ evs2)
  = delivery_answers evs1 ++ delivery_answers evs2.
Proof. apply omap_app. Qed.

(** What [deliver] asks of the courier for an output: nothing for a local
    output and for one without a final proof, else the delivery of the proof
    found to the recipient of the output. *)
Definition delivery_of (pkg : sendPackage) (out : TransferOutput)
  : option (proof.Recipient * proof.AnnotatedProof) :=
  if isLocalOutput out then None
  else
    (fun receiverProof =>
       ({| proof.rcp_ScriptKey := asset.PubKey (out_ScriptKey out);
           proof.rcp_AssetID := proof.AssetID (proof.Locator_ receiverProof);
           proof.rcp_Amount := out_Amount out |},
        receiverProof))
      <$> findFinalProof (FinalProofs pkg) (asset.PubKey (out_ScriptKey out)).

(** A non-local output for which [FinalProofs] holds no proof. *)
Definition lacks_proof (pkg : sendPackage) (out : TransferOutput) : bool :=
  negb (isLocalOutput out)
  && bool_decide
       (findFinalProof (FinalProofs pkg) (asset.PubKey (out_ScriptKey out))
        = None).

Definition missing_proof_error (out : TransferOutput) : error :=
  errorNew ("no proof found for output with script key "
            +:+ SerializeCompressed_x (asset.PubKey (out_ScriptKey out))).

(** The courier's answer is no error for the porter: nil or a backoff
    error. *)
Definition delivery_tolerated (r : result unit) : Prop :=
  r = Ok tt \/ exists e, r = Err e /\ errors_As_BackoffExecError e = true.

Definition not_panicked (r : result unit) : Prop :=
  forall msg, r <> Panic msg.

Section ParSliceLemmas.
Context {A : Type} (f : A -> M unit).

Lemma ParSlice_cons_Ok x s w :
  outcome (f x w) = Ok tt ->
  ParSlice (x :: s) f w
  = prepend (emitted (f x w)) (ParSlice s f (after w (f x w))).
Proof.
  cbn [ParSlice]. unfold after.
  destruct (f x w) as [evs q r]. simpl. intros ->. reflexivity.
Qed.

Lemma ParSlice_cons_Err x s w e :
  outcome (f x w) = Err e ->
  ParSlice (x :: s) f w
  = mkRun (emitted (f x w) ++ emitted (ParSlice s f (after w (f x w))))
      (quitAfter (ParSlice s f (after w (f x w))))
      match outcome (ParSlice s f (after w (f x w))) with
      | Panic msg => Panic msg
      | _ => Err e
      end.
Proof.
  cbn [ParSlice]. unfold after.
  destruct (f x w) as [evs q r]. simpl. intros ->.
  destruct (ParSlice s f _) as [evs' q' [[]|e'|msg]]; reflexivity.
Qed.

Lemma ParSlice_cons_Panic x s w msg :
  outcome (f x w) = Panic msg ->
  ParSlice (x :: s) f w
  = mkRun (emitted (f x w)) (quitAfter (f x w)) (Panic msg).
Proof.
  cbn [ParSlice].
  destruct (f x w) as [evs q r]. simpl. intros ->. reflexivity.
Qed.
End ParSliceLemmas.

Lemma deliveries_cons rcp ap r evs :
  deliveries (EvDeliverProof rcp ap r :: evs) = (rcp, ap) :: deliveries evs.
Proof. reflexivity. Qed.

Lemma delivery_answers_cons rcp ap r evs :
  delivery_answers (EvDeliverProof rcp ap r :: evs)
  = r :: delivery_answers evs.
Proof. reflexivity. Qed.

Section Deliver.
Variable courier : Courier.
Variable pkg : sendPackage.

Lemma deliver_run out w :
  emitted (deliver courier pkg out w)
  = match delivery_of pkg out with
    | Some (rcp, ap) =>
        [EvDeliverProof rcp ap (DeliverProof courier (trace w) rcp ap)]
    | None => []
    end
  /\ outcome (deliver courier pkg out w)
     = match delivery_of pkg out with
       | Some (rcp, ap) =>
           match DeliverProof courier (trace w) rcp ap with
           | Ok _ => Ok tt
           | Err err =>
               if errors_As_BackoffExecError err then Ok tt
               else Err (Errorf_w "error delivering proof: " err)
           | Panic msg => Panic msg
           end
       | None =>
           if lacks_proof pkg out then Err (missing_proof_error out)
           else Ok tt
       end.
Proof.
  unfold deliver, delivery_of, lacks_proof, missing_proof_error.
  destruct (isLocalOutput out); [split; reflexivity |].
  destruct (findFinalProof _ _) as [ap|]; [| split; reflexivity].
  run_unfold. run_simpl. cbn [fmap option_fmap option_map].
  destruct (DeliverProof _ _ _ _) as [[]|e|msg]; run_simpl; auto.
  destruct (errors_As_BackoffExecError e); run_simpl; auto.
Qed.

Lemma delivery_of_has_proof out d :
  delivery_of pkg out = Some d -> lacks_proof pkg out = false.
Proof.
  unfold lacks_proof, delivery_of.
  destruct (isLocalOutput out); [reflexivity |].
  destruct (findFinalProof _ _); [| discriminate].
  rewrite bool_decide_eq_false_2 by discriminate. reflexivity.
Qed.

Lemma ParSlice_deliver outs w :
  Forall not_panicked
    (delivery_answers (emitted (ParSlice outs (deliver courier pkg) w))) ->
  deliveries (emitted (ParSlice outs (deliver courier pkg) w))
  = omap (delivery_of pkg) outs
  /\ (forall msg,
         outcome (ParSlice outs (deliver courier pkg) w) <> Panic msg)
  /\ (forall out,
         out ∈ outs -> lacks_proof pkg out = true ->
         exists e, outcome (ParSlice outs (deliver courier pkg) w) = Err e)
  /\ (Forall delivery_tolerated
        (delivery_answers (emitted (ParSlice outs (deliver courier pkg) w))) ->
      outcome (ParSlice outs (deliver courier pkg) w)
      = match List.find (lacks_proof pkg) outs with
        | Some out => Err (missing_proof_error out)
        | None => Ok tt
        end).
Proof.
  revert w. induction outs as [|out outs IH]; intros w.
  { intros _. cbn. split; [reflexivity |]. split; [discriminate |].
    split; [| reflexivity]. intros out Hin. inversion Hin. }
  destruct (deliver_run out w) as [Hev Hout].
  set (w1 := after w (deliver courier pkg out w)).
  specialize (IH w1).
  cbn [omap list_omap List.find].
  destruct (delivery_of pkg out) as [[rcp ap]|] eqn:Hd.
  - rewrite (delivery_of_has_proof _ _ Hd).
    destruct (DeliverProof courier (trace w) rcp ap) as [[]|e|msg] eqn:Hans;
      [| destruct (errors_As_BackoffExecError e) eqn:Has |].
    + rewrite (ParSlice_cons_Ok _ _ _ _ Hout). fold w1.
      rewrite prepend_emitted, prepend_outcome, Hev. cbn [app].
      rewrite deliveries_cons, delivery_answers_cons.
      intros Hnp. apply Forall_cons in Hnp as [_ Hnp].
      destruct (IH Hnp) as (IH1 & IH2 & IH3 & IH4).
      split; [rewrite IH1; reflexivity |]. split; [exact IH2 |].
      split.
      * intros o Hin Hl. apply elem_of_cons in Hin as [->|Hin]; [| eauto].
        rewrite (delivery_of_has_proof _ _ Hd) in Hl. discriminate.
      * intros Htol. apply Forall_cons in Htol as [_ Htol]. auto.
    + rewrite (ParSlice_cons_Ok _ _ _ _ Hout). fold w1.
      rewrite prepend_emitted, prepend_outcome, Hev. cbn [app].
      rewrite deliveries_cons, delivery_answers_cons.
      intros Hnp. apply Forall_cons in Hnp as [_ Hnp].
      destruct (IH Hnp) as (IH1 & IH2 & IH3 & IH4).
      split; [rewrite IH1; reflexivity |]. split; [exact IH2 |].
      split.
      * intros o Hin Hl. apply elem_of_cons in Hin as [->|Hin]; [| eauto].
        rewrite (delivery_of_has_proof _ _ Hd) in Hl. discriminate.
      * intros Htol. apply Forall_cons in Htol as [_ Htol]. auto.
    + rewrite (ParSlice_cons_Err _ _ _ _ _ Hout). fold w1.
      cbn [emitted outcome]. rewrite Hev. cbn [app].
      rewrite deliveries_cons, delivery_answers_cons.
      intros Hnp. apply Forall_cons in Hnp as [_ Hnp].
      destruct (IH Hnp) as (IH1 & IH2 & IH3 & IH4).
      split; [rewrite IH1; reflexivity |].
      split.
      { intros msg.
        destruct (outcome (ParSlice outs _ w1)) eqn:Hr2; try discriminate.
        exfalso. eapply IH2. reflexivity. }
      split.
      * intros o _ _.
        destruct (outcome (ParSlice outs _ w1)) eqn:Hr2; eauto.
        exfalso. eapply IH2. reflexivity.
      * intros Htol. apply Forall_cons in Htol as [Htol _].
        destruct Htol as [?|(e' & [= <-] & ?)]; [discriminate | congruence].
    + rewrite (ParSlice_cons_Panic _ _ _ _ _ Hout).
      cbn [emitted outcome]. rewrite Hev.
      rewrite delivery_answers_cons.
      intros Hnp. apply Forall_cons in Hnp as [Hnp _].
      exfalso. eapply Hnp. reflexivity.
  - destruct (lacks_proof pkg out) eqn:Hlack.
    + rewrite (ParSlice_cons_Err _ _ _ _ _ Hout). fold w1.
      cbn [emitted outcome]. rewrite Hev. cbn [app].
      intros Hnp. destruct (IH Hnp) as (IH1 & IH2 & IH3 & IH4).
      split; [exact IH1 |].
      split.
      { intros msg.
        destruct (outcome (ParSlice outs _ w1)) eqn:Hr2; try discriminate.
        exfalso. eapply IH2. reflexivity. }
      split.
      * intros o _ _.
        destruct (outcome (ParSlice outs _ w1)) eqn:Hr2; eauto.
        exfalso. eapply IH2. reflexivity.
      * intros Htol.
        destruct (outcome (ParSlice outs _ w1)) eqn:Hr2; try reflexivity.
        exfalso. eapply IH2. reflexivity.
    + rewrite (ParSlice_cons_Ok _ _ _ _ Hout). fold w1.
      rewrite prepend_emitted, prepend_outcome, Hev. cbn [app].
      intros Hnp. destruct (IH Hnp) as (IH1 & IH2 & IH3 & IH4).
      split; [exact IH1 |]. split; [exact IH2 |].
      split.
      * intros o Hin Hl. apply elem_of_cons in Hin as [->|Hin];
          [congruence | eauto].
      * exact IH4.
Qed.
End Deliver.

Section ReceiverProofTransfer.
Variable p : ChainPorter.

Definition confirm_only (ev : Event) : Prop :=
  match ev with
  | EvFetchProof _ _ | EvConfirmParcelDelivery _ _ => True
  | _ => False
  end.

Lemma confirmDelivery_only pkg : only confirm_only (confirmDelivery p pkg).
Proof.
  unfold confirmDelivery, loadPassiveAssetProofFile, fetchProof. only_solve.
Qed.

Lemma confirm_only_deliveries evs :
  Forall confirm_only evs -> deliveries evs = [] /\ delivery_answers evs = [].
Proof.
  induction 1 as [|ev evs Hev _ IH]; [split; reflexivity |].
  destruct ev; simpl in *; try contradiction; exact IH.
Qed.

(** The fetches of the passive proof files, with the blobs the archive
    returned. *)
Definition passiveFetches (pas : list PassiveAssetReAnchor)
  (blobs : list Blob) : list Event :=
  zip_with (fun pa blob => EvFetchProof (passiveLocator pa) (Ok blob))
    pas blobs.

Definition passiveFiles (pas : list PassiveAssetReAnchor)
  (blobs : list Blob) (files : gmap N Blob) : gmap N Blob :=
  foldl (fun m pb => <[Locator_Hash (lib p) (passiveLocator pb.1) := pb.2]> m)
    files (zip pas blobs).

Lemma loadPassive_loop pas files w files' :
  outcome (foldM pas (loadPassiveAssetProofFile p) files w) = Ok files' ->
  exists blobs,
    length blobs = length pas
    /\ emitted (foldM pas (loadPassiveAssetProofFile p) files w)
       = passiveFetches pas blobs
    /\ files' = passiveFiles pas blobs files.
Proof.
  revert files w. induction pas as [|pa pas IH]; intros files w.
  { intros [= <-]. exists []. auto. }
  cbn [foldM]. intros H.
  apply bind_Ok_inv in H as (files1 & Hload & Hrest & -> & _).
  unfold loadPassiveAssetProofFile in Hload at 1.
  apply bind_Ok_inv in Hload as (blob & Hfetch & Hret & Hev & _).
  injection Hret as <-.
  apply wrap_Ok_inv in Hfetch as [Hfetch Hw].
  apply call_Ok_inv in Hfetch as [_ Hfev].
  destruct (IH _ _ Hrest) as (blobs & Hlen & -> & ->).
  exists (blob :: blobs). split; [simpl; congruence |].
  split; [| reflexivity].
  unfold loadPassiveAssetProofFile at 1. rewrite Hev, Hw.
  unfold fetchProof. rewrite Hfev. reflexivity.
Qed.

Lemma confirmDelivery_Ok pkg w pkg' :
  outcome (confirmDelivery p pkg w) = Ok pkg' ->
  pkg' = with_SendState SendStateComplete pkg
  /\ exists parcel blobs ev,
      OutboundPkg pkg = Some parcel
      /\ length blobs = length (op_PassiveAssets parcel)
      /\ emitted (confirmDelivery p pkg w)
         = passiveFetches (op_PassiveAssets parcel) blobs
             ++ [EvConfirmParcelDelivery ev (Ok tt)]
      /\ AnchorTXID ev = TxHash (lib p) (op_AnchorTx parcel)
      /\ ace_FinalProofs ev = FinalProofs pkg
      /\ PassiveAssetProofFiles ev
         = passiveFiles (op_PassiveAssets parcel) blobs ∅.
Proof.
  unfold confirmDelivery. intros H.
  apply bind_Ok_inv in H as (parcel & Hp & H & -> & _).
  apply deref_Ok_inv in Hp as [Hp ->].
  apply bind_Ok_inv in H as (files & Hf & H & -> & _).
  apply loadPassive_loop in Hf as (blobs & Hlen & -> & ->).
  apply bind_Ok_inv in H as (confEvent & Hc & H & -> & _).
  apply deref_Ok_inv in Hc as [_ ->].
  apply bind_Ok_inv in H as (blockHash & Hb & H & -> & _).
  apply deref_Ok_inv in Hb as [_ ->].
  apply bind_Ok_inv in H as ([] & Hconf & H & -> & _).
  injection H as <-.
  apply wrap_Ok_inv in Hconf as [Hconf ->].
  apply call_Ok_inv in Hconf as [_ ->].
  split; [reflexivity |].
  eexists parcel, blobs, _. split; [exact Hp |]. split; [exact Hlen |].
  split; [cbn [emitted ret app]; rewrite ?app_nil_r; reflexivity |].
  auto.
Qed.

(** The archive and the journal have answered the call without error. *)
Definition answered (ev : Event) : Prop :=
  match ev with
  | EvFetchProof _ (Ok _) | EvConfirmParcelDelivery _ (Ok _) => True
  | EvFetchProof _ _ | EvConfirmParcelDelivery _ _ => False
  | _ => True
  end.

(** The passive proof files are loaded when the archive answers. *)
Lemma loadPassive_answered pas files w :
  Forall answered (emitted (foldM pas (loadPassiveAssetProofFile p) files w)) ->
  exists files',
    outcome (foldM pas (loadPassiveAssetProofFile p) files w) = Ok files'.
Proof.
  revert files w. induction pas as [|pa pas IH]; intros files w; [eauto |].
  cbn [foldM]. unfold loadPassiveAssetProofFile at 1 3.
  set (locator := passiveLocator pa).
  set (fetch := wrap (Errorf_w "error fetching passive asset proof file: ")
                  (fetchProof p locator)).
  assert (emitted (fetch w)
          = [EvFetchProof locator
               (FetchProof (AssetProofs (cfg p)) (trace w) locator)]) as Hfev
      by (unfold fetch; rewrite wrap_emitted; reflexivity).
  assert (outcome (fetch w)
          = match FetchProof (AssetProofs (cfg p)) (trace w) locator with
            | Err e =>
                Err (Errorf_w "error fetching passive asset proof file: " e)
            | r => r
            end) as Hfout
      by (unfold fetch; rewrite wrap_outcome; reflexivity).
  set (load := let* proofFileBlob := fetch in
               ret (<[Locator_Hash (lib p) locator := proofFileBlob]> files)).
  destruct (FetchProof (AssetProofs (cfg p)) (trace w) locator)
    as [blob|e|msg] eqn:Hans.
  - assert (outcome (load w)
            = Ok (<[Locator_Hash (lib p) locator := blob]> files)) as Hload.
    { unfold load. rewrite (bind_Ok _ _ _ blob Hfout), prepend_outcome.
      reflexivity. }
    rewrite (bind_Ok _ _ _ _ Hload), prepend_emitted, prepend_outcome.
    intros Hall. apply Forall_app in Hall as [_ Hall]. apply IH, Hall.
  - assert (emitted (load w) = emitted (fetch w)) as Hlev
        by (unfold load; rewrite (bind_Err _ _ _ _ Hfout); reflexivity).
    destruct (bind_emitted_prefix load
                (fun acc' => foldM pas (loadPassiveAssetProofFile p) acc') w)
      as [rest ->].
    rewrite Hlev, Hfev. intros Hall.
    apply Forall_app in Hall as [Hall _].
    apply Forall_cons in Hall as [[] _].
  - assert (emitted (load w) = emitted (fetch w)) as Hlev
        by (unfold load; rewrite (bind_Panic _ _ _ _ Hfout); reflexivity).
    destruct (bind_emitted_prefix load
                (fun acc' => foldM pas (loadPassiveAssetProofFile p) acc') w)
      as [rest ->].
    rewrite Hlev, Hfev. intros Hall.
    apply Forall_app in Hall as [Hall _].
    apply Forall_cons in Hall as [[] _].
Qed.

(** With the parcel and the confirmation in the package, [confirmDelivery]
    goes through when the archive and the journal answer. *)
Lemma confirmDelivery_answered pkg w parcel conf blockHash :
  OutboundPkg pkg = Some parcel ->
  TransferTxConfEvent pkg = Some conf ->
  chainntnfs.BlockHash conf = Some blockHash ->
  Forall answered (emitted (confirmDelivery p pkg w)) ->
  outcome (confirmDelivery p pkg w) = Ok (with_SendState SendStateComplete pkg).
Proof.
  intros Ho Hc Hb. unfold confirmDelivery. rewrite Ho, Hc. cbn [deref].
  rewrite (bind_Ok _ _ _ parcel) by reflexivity.
  rewrite prepend_emitted, prepend_outcome. cbn [emitted ret app].
  set (w1 := after w (ret parcel w)).
  set (load := foldM (op_PassiveAssets parcel) (loadPassiveAssetProofFile p) ∅).
  pose proof (loadPassive_answered (op_PassiveAssets parcel) ∅ w1) as Hload.
  fold load in Hload.
  match goal with
  | |- context [bind load ?k w1] =>
      destruct (bind_emitted_prefix load k w1) as [rest Hprefix]
  end.
  intros Hall.
  destruct Hload as [files Hfiles].
  { rewrite Hprefix in Hall. apply Forall_app in Hall as [Hall _]. exact Hall. }
  clear rest Hprefix. revert Hall.
  rewrite (bind_Ok _ _ _ files Hfiles), prepend_emitted, prepend_outcome.
  rewrite (bind_Ok _ _ _ conf) by reflexivity.
  rewrite prepend_emitted, prepend_outcome. cbn [emitted ret app].
  rewrite Hb. cbn [deref].
  rewrite (bind_Ok _ _ _ blockHash) by reflexivity.
  rewrite prepend_emitted, prepend_outcome. cbn [emitted ret app].
  match goal with
  | |- context [bind (wrap ?f (call ?a ?ev)) ?k ?w2] =>
      set (w2' := w2);
      assert (emitted (wrap f (call a ev) w2') = [ev (a (trace w2'))])
        as Hcev by (rewrite wrap_emitted; reflexivity);
      assert (outcome (wrap f (call a ev) w2')
              = match a (trace w2') with
                | Err e0 => Err (f e0)
                | r => r
                end) as Hcout by (rewrite wrap_outcome; reflexivity);
      destruct (a (trace w2')) as [[]|e|msg] eqn:Hans
  end.
  - rewrite (bind_Ok _ _ _ tt Hcout), prepend_outcome. reflexivity.
  - rewrite (bind_Err _ _ _ _ Hcout). cbn [emitted]. rewrite Hcev.
    intros Hall. apply Forall_app in Hall as [_ Hall].
    apply Forall_cons in Hall as [[] _].
  - rewrite (bind_Panic _ _ _ _ Hcout). cbn [emitted]. rewrite Hcev.
    intros Hall. apply Forall_app in Hall as [_ Hall].
    apply Forall_cons in Hall as [[] _].
Qed.

(** C10.  Without a proof courier the receiver-proof-transfer step
    delivers no proof, to no output, and still completes the parcel: with
    the outbound parcel and the confirmation in the package, when the
    archive answers every fetch and the journal the confirmation without
    error, the step returns the package in the state [SendStateComplete],
    no error.  A step that returns without error has fetched the proof file
    of every passive asset of the outbound parcel, then called
    [ConfirmParcelDelivery] with the final proofs of the package and the
    files fetched, and nothing else. *)
Theorem transferReceiverProof_no_courier pkg w :
  ProofCourier (cfg p) = None ->
  deliveries (emitted (transferReceiverProof p pkg w)) = []
  /\ (forall parcel conf blockHash,
         OutboundPkg pkg = Some parcel ->
         TransferTxConfEvent pkg = Some conf ->
         chainntnfs.BlockHash conf = Some blockHash ->
         Forall answered (emitted (transferReceiverProof p pkg w)) ->
         outcome (transferReceiverProof p pkg w)
         = Ok (with_SendState SendStateComplete pkg))
  /\ forall pkg',
      outcome (transferReceiverProof p pkg w) = Ok pkg' ->
      pkg' = with_SendState SendStateComplete pkg
      /\ SendState pkg' = SendStateComplete
      /\ exists parcel blobs ev,
          OutboundPkg pkg = Some parcel
          /\ length blobs = length (op_PassiveAssets parcel)
          /\ emitted (transferReceiverProof p pkg w)
             = passiveFetches (op_PassiveAssets parcel) blobs
                 ++ [EvConfirmParcelDelivery ev (Ok tt)]
          /\ AnchorTXID ev = TxHash (lib p) (op_AnchorTx parcel)
          /\ ace_FinalProofs ev = FinalProofs pkg
          /\ PassiveAssetProofFiles ev
             = passiveFiles (op_PassiveAssets parcel) blobs ∅.
Proof.
  intros Hc. unfold transferReceiverProof, deliverProofs. rewrite Hc.
  rewrite (bind_Ok _ _ _ tt) by reflexivity.
  rewrite prepend_emitted, prepend_outcome. cbn [emitted ret app].
  split; [| split].
  - apply confirm_only_deliveries, confirmDelivery_only.
  - intros parcel conf blockHash. apply confirmDelivery_answered.
  - intros pkg' H. apply confirmDelivery_Ok in H as [-> H].
    split; [reflexivity |]. split; [reflexivity | exact H].
Qed.
End ReceiverProofTransfer.

Section LocalOutputs.
Variable p : ChainPorter.




End LocalOutputs.

(** * Sealing the proofs *)

(** Membership in, and inclusion between, the events of the runs of a
    sequence. *)
Ltac sub_solve :=
  first
    [ reflexivity
    | assumption
    | apply list_subseteq_app_l; sub_solve
    | apply list_subseteq_app_r; sub_solve ].

Ltac elem_solve :=
  rewrite ?elem_of_app, ?elem_of_cons;
  intuition (solve [auto | reflexivity]).

Section StoreProofs.
Variable p : ChainPorter.

(** The proof [pr] stamped with the confirmation event [ev]. *)
Definition stamped (ev : chainntnfs.TxConfirmation) (pr : proof.Proof)
  : proof.Proof :=
  proof.mkProof (proof.AssetScriptKey pr) (Some (confParams ev))
    (proof.AdditionalInputs pr) (proof.Body pr).

(** The file [base] with the proof [pr] appended encodes to [blob]. *)
Definition seals (base : proof.File) (pr : proof.Proof) (blob : Blob)
  : Prop :=
  File_Encode (lib p)
    (proof.mkFile (proof.Version base) (proof.Proofs base ++ [pr]))
  = Ok blob.

(** Among the calls [evs], the archive returned for the input a blob that
    decodes to [file]. *)
Definition fetched (evs : list Event) (input : TransferInput)
  (file : proof.File) : Prop :=
  exists key blob,
    btcec_ParsePubKey (lib p) (in_ScriptKey input) = Ok key
    /\ EvFetchProof {| proof.AssetID := in_ID input; proof.ScriptKey := key |}
         (Ok blob) ∈ evs
    /\ File_Decode (lib p) blob = Ok file.

Lemma fetched_mono evs evs' input file :
  evs ⊆ evs' -> fetched evs input file -> fetched evs' input file.
Proof. intros Hsub (key & blob & Hk & Hin & Hd). exists key, blob. auto. Qed.

Lemma lift_Ok_inv {A} (r : result A) w a : outcome (lift r w) = Ok a -> r = Ok a.
Proof. intros H. exact H. Qed.

Lemma fetchInputProof_Ok input w file :
  outcome (fetchInputProof p input w) = Ok file ->
  fetched (emitted (fetchInputProof p input w)) input file.
Proof.
  unfold fetchInputProof. intros H.
  apply bind_Ok_inv in H as (key & Hk & H & Hev1 & _).
  apply wrap_Ok_inv in Hk as [Hk _]. apply lift_Ok_inv in Hk.
  apply bind_Ok_inv in H as (blob & Hb & H & Hev2 & _).
  apply wrap_Ok_inv in Hb as [Hb _]. apply call_Ok_inv in Hb as [_ Hev3].
  apply wrap_Ok_inv in H as [H _]. apply lift_Ok_inv in H.
  exists key, blob. split; [exact Hk |]. split; [| exact H].
  rewrite Hev1, Hev2, !wrap_emitted. unfold fetchProof. rewrite Hev3.
  elem_solve.
Qed.

Lemma UpdateTransitionProof_Ok pr params w pr' :
  outcome (UpdateTransitionProof p pr params w) = Ok pr' ->
  pr' = proof.mkProof (proof.AssetScriptKey pr) (Some params)
          (proof.AdditionalInputs pr) (proof.Body pr)
  /\ emitted (UpdateTransitionProof p pr params w) = [].
Proof.
  unfold UpdateTransitionProof.
  destruct (UpdateTransitionProof_err _ _ _); [discriminate |].
  intros [= <-]. auto.
Qed.

Lemma AppendProof_Ok f pr w f' :
  outcome (AppendProof p f pr w) = Ok f' ->
  f' = proof.mkFile (proof.Version f) (proof.Proofs f ++ [pr])
  /\ emitted (AppendProof p f pr w) = [].
Proof.
  unfold AppendProof. destruct (AppendProof_err _ _ _); [discriminate |].
  intros [= <-]. auto.
Qed.

(** The merge loop adds to the suffix the proof file of every input it is
    run on, in order. *)
Definition additionalInput (idx : nat) (sfx : proof.Proof)
  (input : TransferInput) : M proof.Proof :=
  let* additionalInputProofFile :=
    wrap (Errorf_w ("error fetching input proof " +:+ pretty idx +:+ ": "))
      (fetchInputProof p input) in
  ret (appendAdditionalInput sfx additionalInputProofFile).

Lemma merge_loop inputs i sfx w sfx' :
  outcome (foldMi i inputs additionalInput sfx w) = Ok sfx' ->
  exists files,
    Forall2 (fetched (emitted (foldMi i inputs additionalInput sfx w)))
      inputs files
    /\ sfx' = proof.mkProof (proof.AssetScriptKey sfx) (proof.Stamp sfx)
                (proof.AdditionalInputs sfx ++ files) (proof.Body sfx).
Proof.
  revert i sfx w. induction inputs as [|input inputs IH]; intros i sfx w.
  { intros [= <-]. exists []. split; [constructor |].
    rewrite app_nil_r. destruct sfx; reflexivity. }
  cbn [foldMi]. intros H.
  apply bind_Ok_inv in H as (sfx1 & H1 & H & Hev1 & _).
  unfold additionalInput in H1 at 1.
  apply bind_Ok_inv in H1 as (file & Hf & Hret & Hev2 & _).
  injection Hret as <-.
  apply wrap_Ok_inv in Hf as [Hf _].
  apply fetchInputProof_Ok in Hf.
  destruct (IH _ _ _ H) as (files & Hfiles & ->).
  exists (file :: files). split.
  - rewrite Hev1. constructor.
    + eapply fetched_mono; [| exact Hf].
      unfold additionalInput at 1. rewrite Hev2, !wrap_emitted. sub_solve.
    + eapply Forall2_impl; [exact Hfiles |].
      intros inp f. apply fetched_mono. sub_solve.
  - unfold appendAdditionalInput. cbn. rewrite <- app_assoc. reflexivity.
Qed.

(** The annotated proof [ap] seals the output [out] of the parcel: its
    blob encodes the proof file of the first input with one proof
    appended, which is the output's proof suffix stamped with the
    confirmation event and carrying, after the additional inputs the suffix
    came with, the proof files of the inputs after the first, in order. *)
Definition output_sealing (evs : list Event)
  (confEvent : option chainntnfs.TxConfirmation) (parcel : OutboundParcel)
  (firstInput : TransferInput) (out : TransferOutput)
  (ap : proof.AnnotatedProof) : Prop :=
  exists ev suffix base files,
    confEvent = Some ev
    /\ Proof_Decode (lib p) (ProofSuffix out) = Ok suffix
    /\ fetched evs firstInput base
    /\ Forall2 (fetched evs) (tail (Inputs parcel)) files
    /\ seals base
         (proof.mkProof (proof.AssetScriptKey suffix)
            (Some (confParams ev))
            (proof.AdditionalInputs suffix ++ files) (proof.Body suffix))
         (proof.Blob_ ap)
    /\ proof.Locator_ ap
       = {| proof.AssetID := in_ID firstInput;
            proof.ScriptKey := asset.PubKey (out_ScriptKey out) |}.

Lemma output_sealing_mono evs evs' confEvent parcel firstInput out ap :
  evs ⊆ evs' ->
  output_sealing evs confEvent parcel firstInput out ap ->
  output_sealing evs' confEvent parcel firstInput out ap.
Proof.
  intros Hsub (ev & suffix & base & files & H1 & H2 & H3 & H4 & H5).
  exists ev, suffix, base, files.
  split; [exact H1 |]. split; [exact H2 |].
  split; [eapply fetched_mono; eauto |].
  split; [| exact H5].
  eapply Forall2_impl; [exact H4 |]. intros inp f. apply fetched_mono, Hsub.
Qed.

Lemma sealOutputProof_Ok parcel confEvent firstInput idx out w ap :
  outcome (sealOutputProof p parcel confEvent firstInput idx out w) = Ok ap ->
  output_sealing
    (emitted (sealOutputProof p parcel confEvent firstInput idx out w))
    confEvent parcel firstInput out ap.
Proof.
  unfold sealOutputProof. intros H.
  apply bind_Ok_inv in H as (suffix & Hs & H & Hev1 & _).
  apply wrap_Ok_inv in Hs as [Hs _]. apply lift_Ok_inv in Hs.
  apply bind_Ok_inv in H as (ev & Hc & H & Hev2 & _).
  apply deref_Ok_inv in Hc as [Hc _].
  apply bind_Ok_inv in H as (suffix1 & Hu & H & Hev3 & _).
  apply wrap_Ok_inv in Hu as [Hu _].
  apply UpdateTransitionProof_Ok in Hu as [-> _].
  apply bind_Ok_inv in H as (base & Hb & H & Hev4 & _).
  apply wrap_Ok_inv in Hb as [Hb _]. apply fetchInputProof_Ok in Hb.
  apply bind_Ok_inv in H as (suffix2 & Hm & H & Hev5 & _).
  unfold addAdditionalInputs in Hm.
  apply merge_loop in Hm as (files & Hfiles & ->).
  apply bind_Ok_inv in H as (file & Ha & H & Hev6 & _).
  apply wrap_Ok_inv in Ha as [Ha _]. apply AppendProof_Ok in Ha as [-> _].
  apply bind_Ok_inv in H as (buf & He & H & Hev7 & _).
  apply wrap_Ok_inv in He as [He _]. apply lift_Ok_inv in He.
  injection H as <-.
  exists ev, suffix, base, files.
  split; [exact Hc |]. split; [exact Hs |].
  rewrite Hev1, Hev2, Hev3, Hev4, Hev5, !wrap_emitted.
  split; [eapply fetched_mono; [| exact Hb]; sub_solve |].
  split; [| split; [exact He | reflexivity]].
  eapply Forall2_impl; [exact Hfiles |].
  intros inp f. apply fetched_mono. unfold addAdditionalInputs. sub_solve.
Qed.

(** The loop of [storeProofs] over the outputs. *)
Lemma output_loop parcel confEvent firstInput outs i fp0 w fp :
  outcome (foldMi i outs (storeOutputProof p parcel confEvent firstInput)
             fp0 w) = Ok fp ->
  (forall out,
      out ∈ outs -> out_Type out <> tappsbt.TypePassiveAssetsOnly ->
      exists ap,
        EvImportProofs [ap] (Ok tt)
        ∈ emitted (foldMi i outs
                     (storeOutputProof p parcel confEvent firstInput) fp0 w)
        /\ output_sealing
             (emitted (foldMi i outs
                         (storeOutputProof p parcel confEvent firstInput)
                         fp0 w))
             confEvent parcel firstInput out ap)
  /\ (forall k ap,
         fp !! k = Some ap ->
         fp0 !! k = Some ap
         \/ exists out,
             out ∈ outs
             /\ out_Type out <> tappsbt.TypePassiveAssetsOnly
             /\ k = ToSerialized (asset.PubKey (out_ScriptKey out))
             /\ output_sealing
                  (emitted (foldMi i outs
                              (storeOutputProof p parcel confEvent firstInput)
                              fp0 w))
                  confEvent parcel firstInput out ap).
Proof.
  revert i fp0 w. induction outs as [|out outs IH]; intros i fp0 w.
  { intros [= <-]. split; [| auto]. intros out Hin. inversion Hin. }
  cbn [foldMi]. intros H.
  apply bind_Ok_inv in H as (fp1 & H1 & H & Hev1 & _).
  destruct (IH _ _ _ H) as [IHa IHb]. clear IH H.
  set (rest := foldMi (S i) outs _ fp1 _) in *.
  set (first := storeOutputProof p parcel confEvent firstInput i fp0 out w)
    in *.
  rewrite Hev1. clear Hev1.
  assert (emitted rest ⊆ emitted first ++ emitted rest) as Hsub
      by sub_solve.
  assert (forall o ap,
             output_sealing (emitted rest) confEvent parcel firstInput o ap ->
             output_sealing (emitted first ++ emitted rest) confEvent parcel
               firstInput o ap) as Hmono
      by (intros o ap; apply output_sealing_mono, Hsub).
  unfold first in H1. unfold storeOutputProof in H1.
  destruct (decide (out_Type out = tappsbt.TypePassiveAssetsOnly)) as [Hp|Hp].
  - injection H1 as <-. split.
    + intros o Hin Ho. apply elem_of_cons in Hin as [->|Hin]; [contradiction |].
      destruct (IHa o Hin Ho) as (ap & Hin' & Hseal). exists ap.
      split; [apply Hsub, Hin' | apply Hmono, Hseal].
    + intros k ap Hk. destruct (IHb k ap Hk) as [?|(o & Ho & Ht & -> & Hseal)];
        [auto |].
      right. exists o. split; [right; exact Ho |]. split; [exact Ht |].
      split; [reflexivity | apply Hmono, Hseal].
  - apply bind_Ok_inv in H1 as (ap0 & Hseal0 & H1 & Hev2 & _).
    apply sealOutputProof_Ok in Hseal0.
    apply bind_Ok_inv in H1 as ([] & Himp & H1 & Hev3 & _).
    injection H1 as <-.
    apply wrap_Ok_inv in Himp as [Himp _].
    apply call_Ok_inv in Himp as [_ Hev4].
    assert (EvImportProofs [ap0] (Ok tt) ∈ emitted first
            /\ emitted (sealOutputProof p parcel confEvent firstInput i out w)
               ⊆ emitted first) as [Hin0 Hsub0].
    { unfold first, storeOutputProof. rewrite decide_False by exact Hp.
      rewrite Hev2, Hev3, wrap_emitted. unfold importProofs. rewrite Hev4.
      split; [elem_solve | sub_solve]. }
    assert (output_sealing (emitted first ++ emitted rest) confEvent parcel
              firstInput out ap0) as Hseal1.
    { eapply output_sealing_mono; [| exact Hseal0].
      apply list_subseteq_app_l, Hsub0. }
    split.
    + intros o Hin Ho. apply elem_of_cons in Hin as [->|Hin].
      * exists ap0. split; [apply elem_of_app; left; exact Hin0 | exact Hseal1].
      * destruct (IHa o Hin Ho) as (ap & Hin' & Hseal). exists ap.
        split; [apply Hsub, Hin' | apply Hmono, Hseal].
    + intros k ap Hk.
      destruct (IHb k ap Hk) as [Hk1|(o & Ho & Ht & -> & Hseal)].
      * destruct (decide (ToSerialized (asset.PubKey (out_ScriptKey out)) = k))
          as [<-|Hne].
        -- rewrite lookup_insert_eq in Hk1. injection Hk1 as <-.
           right. exists out. split; [left |]. split; [exact Hp |].
           split; [reflexivity | exact Hseal1].
        -- rewrite lookup_insert_ne in Hk1 by exact Hne. auto.
      * right. exists o. split; [right; exact Ho |]. split; [exact Ht |].
        split; [reflexivity | apply Hmono, Hseal].
Qed.
End StoreProofs.

Lemma int_uint32 x : is_uint32 x -> int x = x.
Proof.
  unfold is_uint32, int, wrap_signed. intros H.
  rewrite Z.mod_small; lia.
Qed.

Section SealedProofs.
Variable p : ChainPorter.

(** The passive asset's updated proof file: the file the archive returned
    as [blob], with the asset's new proof stamped and appended. *)
Definition passive_sealing (confEvent : option chainntnfs.TxConfirmation)
  (pa : PassiveAssetReAnchor) (blob : Blob)
  (res : proof.AnnotatedProof * PassiveAssetReAnchor) : Prop :=
  exists ev file,
    confEvent = Some ev
    /\ File_Decode (lib p) blob = Ok file
    /\ seals p file (stamped ev (NewProof pa)) (proof.Blob_ res.1)
    /\ proof.Locator_ res.1
       = {| proof.AssetID := GenesisID pa;
            proof.ScriptKey := proof.AssetScriptKey (NewProof pa) |}
    /\ res.2 = with_NewProof (stamped ev (NewProof pa)) pa.

Lemma updatePassiveAsset_Ok confEvent pa w res :
  outcome (updatePassiveAsset p confEvent pa w) = Ok res ->
  exists blob,
    emitted (updatePassiveAsset p confEvent pa w)
    = [EvFetchProof (passiveLocator pa) (Ok blob)]
    /\ passive_sealing confEvent pa blob res.
Proof.
  unfold updatePassiveAsset, updateAssetProofFile, fetchProof. intros H.
  apply bind_Ok_inv in H as ([ap np] & Hu & H & Hev0 & _).
  injection H as <-.
  apply wrap_Ok_inv in Hu as [Hu _].
  apply bind_Ok_inv in Hu as (blob & Hb & Hu & Hev1 & _).
  apply wrap_Ok_inv in Hb as [Hb _]. apply call_Ok_inv in Hb as [_ Hev1'].
  apply bind_Ok_inv in Hu as (file & Hf & Hu & Hev2 & _).
  apply wrap_Ok_inv in Hf as [Hf _]. apply lift_Ok_inv in Hf.
  apply bind_Ok_inv in Hu as (ev & Hc & Hu & Hev3 & _).
  apply deref_Ok_inv in Hc as [Hc Hev3'].
  apply bind_Ok_inv in Hu as (np1 & Hs & Hu & Hev4 & _).
  apply wrap_Ok_inv in Hs as [Hs _].
  apply UpdateTransitionProof_Ok in Hs as [-> Hev4'].
  apply bind_Ok_inv in Hu as (file' & Ha & Hu & Hev5 & _).
  apply wrap_Ok_inv in Ha as [Ha _]. apply AppendProof_Ok in Ha as [-> Hev5'].
  apply bind_Ok_inv in Hu as (buf & He & Hu & Hev6 & _).
  apply wrap_Ok_inv in He as [He _]. apply lift_Ok_inv in He.
  injection Hu as <- <-.
  exists blob. split.
  - rewrite Hev0, wrap_emitted.
    rewrite Hev1, Hev2, Hev3, Hev4, Hev5, Hev6, !wrap_emitted.
    rewrite Hev1', Hev3', Hev4', Hev5'.
    reflexivity.
  - exists ev, file. auto.
Qed.

Lemma passive_loop confEvent pas w res :
  outcome (mapM pas (updatePassiveAsset p confEvent) w) = Ok res ->
  exists blobs,
    emitted (mapM pas (updatePassiveAsset p confEvent) w)
    = passiveFetches pas blobs
    /\ Forall3 (passive_sealing confEvent) pas blobs res.
Proof.
  revert w res. induction pas as [|pa pas IH]; intros w res.
  { intros [= <-]. exists []. split; [reflexivity | constructor]. }
  cbn [mapM]. intros H.
  apply bind_Ok_inv in H as (r1 & H1 & H & Hev1 & _).
  apply bind_Ok_inv in H as (rs & H2 & H & Hev2 & _).
  injection H as <-.
  apply updatePassiveAsset_Ok in H1 as (blob & Hev3 & Hseal).
  destruct (IH _ _ H2) as (blobs & Hev4 & Hall).
  exists (blob :: blobs). split; [| constructor; assumption].
  rewrite Hev1, Hev2, Hev3, Hev4. cbn [emitted ret]. rewrite app_nil_r.
  reflexivity.
Qed.

(** The step up to the loop over the outputs. *)
Lemma storeProofs_Ok pkg w pkg' :
  outcome (storeProofs p pkg w) = Ok pkg' ->
  exists parcel blobs sealed finalProofs evs,
    OutboundPkg pkg = Some parcel
    /\ Forall3 (passive_sealing (TransferTxConfEvent pkg))
         (PassiveAssets pkg) blobs sealed
    /\ emitted (storeProofs p pkg w)
       = passiveFetches (PassiveAssets pkg) blobs
           ++ [EvImportProofs sealed.*1 (Ok tt)] ++ evs
    /\ pkg' = with_SendState SendStateReceiverProofTransfer
                (with_FinalProofs finalProofs
                   (with_PassiveAssets sealed.*2 pkg))
    /\ match Inputs parcel with
       | [] => evs = [] /\ finalProofs = FinalProofs pkg
       | firstInput :: _ =>
           exists w1,
             evs = emitted
                     (foldMi 0 (Outputs parcel)
                        (storeOutputProof p parcel (TransferTxConfEvent pkg)
                           firstInput) ∅ w1)
             /\ outcome
                  (foldMi 0 (Outputs parcel)
                     (storeOutputProof p parcel (TransferTxConfEvent pkg)
                        firstInput) ∅ w1) = Ok finalProofs
       end.
Proof.
  unfold storeProofs, importProofs. intros H.
  apply bind_Ok_inv in H as (passive & Hm & H & Hev1 & _).
  apply passive_loop in Hm as (blobs & Hev1' & Hall).
  apply bind_Ok_inv in H as ([] & Himp & H & Hev2 & _).
  apply wrap_Ok_inv in Himp as [Himp _].
  apply call_Ok_inv in Himp as [_ Hev2'].
  apply bind_Ok_inv in H as (parcel & Hd & H & Hev3 & _).
  apply deref_Ok_inv in Hd as [Hd Hev3'].
  cbn [with_PassiveAssets OutboundPkg] in Hd.
  rewrite Hev1, Hev1', Hev2, wrap_emitted, Hev3, Hev3', Hev2'. cbn [app].
  destruct (Inputs parcel) as [|firstInput rest] eqn:Hin.
  - injection H as <-.
    exists parcel, blobs, passive, (FinalProofs pkg), [].
    split; [exact Hd |]. split; [exact Hall |].
    split; [reflexivity |]. rewrite Hin. split; [| auto].
    destruct pkg; reflexivity.
  - apply bind_Ok_inv in H as (fp & Hloop & H & Hev4 & _).
    injection H as <-.
    exists parcel, blobs, passive, fp. eexists.
    split; [exact Hd |]. split; [exact Hall |].
    split;
      [cbv iota; rewrite Hev4; cbn [emitted ret]; rewrite app_nil_r;
       reflexivity |].
    split; [reflexivity |]. rewrite Hin.
    eexists. split; [reflexivity | exact Hloop].
Qed.
End SealedProofs.

Section SealedTheorems.
Variable p : ChainPorter.

(** C9.  For an outbound parcel without inputs, a [storeProofs] that
    returns without error has made these calls and no other: one fetch per
    passive asset of the package, then a single [ImportProofs] with one
    annotated proof per passive asset, each the asset's fetched file with
    its new proof stamped and appended.  No output proof is sealed or
    imported, [FinalProofs] is left as it was (empty when it was empty), and
    the state is set to [SendStateReceiverProofTransfer]. *)
Theorem storeProofs_passive_only pkg w pkg' parcel :
  OutboundPkg pkg = Some parcel ->
  Inputs parcel = [] ->
  outcome (storeProofs p pkg w) = Ok pkg' ->
  SendState pkg' = SendStateReceiverProofTransfer
  /\ FinalProofs pkg' = FinalProofs pkg
  /\ (FinalProofs pkg = ∅ -> FinalProofs pkg' = ∅)
  /\ exists blobs sealed,
      Forall3 (passive_sealing p (TransferTxConfEvent pkg))
        (PassiveAssets pkg) blobs sealed
      /\ length sealed.*1 = length (PassiveAssets pkg)
      /\ emitted (storeProofs p pkg w)
         = passiveFetches (PassiveAssets pkg) blobs
             ++ [EvImportProofs sealed.*1 (Ok tt)].
Proof.
  intros Ho Hin H.
  apply storeProofs_Ok in H
    as (parcel' & blobs & sealed & fp & evs & Ho' & Hall & Hev & -> & Hcase).
  rewrite Ho in Ho'. injection Ho' as <-. rewrite Hin in Hcase.
  destruct Hcase as [-> ->].
  split; [reflexivity |]. split; [reflexivity |]. split; [auto |].
  exists blobs, sealed. split; [exact Hall |].
  split; [| exact Hev].
  rewrite length_fmap. symmetry.
  eapply eq_trans; [eapply Forall3_length_lr | reflexivity]. exact Hall.
Qed.

(** The confirmation data as observed: the block, the transaction and the
    transaction index of the confirmation event. *)
Definition observed (ev : chainntnfs.TxConfirmation)
  : proof.BaseProofParams :=
  {| proof.Block := chainntnfs.Block ev;
     proof.Tx := chainntnfs.Tx ev;
     proof.TxIndex := chainntnfs.TxIndex ev |}.

(** [blob] encodes a proof file whose last proof is stamped with
    [params]. *)
Definition carries (params : proof.BaseProofParams) (blob : Blob) : Prop :=
  exists file lastProof,
    File_Encode (lib p) file = Ok blob
    /\ last (proof.Proofs file) = Some lastProof
    /\ proof.Stamp lastProof = Some params.

Lemma seals_carries ev base pr blob :
  is_uint32 (chainntnfs.TxIndex ev) ->
  proof.Stamp pr = Some (confParams ev) ->
  seals p base pr blob -> carries (observed ev) blob.
Proof.
  intros Hidx Hs Hseal. eexists _, pr. split; [exact Hseal |].
  split; [cbn; apply last_snoc |].
  rewrite Hs. unfold confParams, observed. rewrite int_uint32 by exact Hidx.
  reflexivity.
Qed.

Lemma output_sealing_carries evs ev parcel firstInput out ap :
  is_uint32 (chainntnfs.TxIndex ev) ->
  output_sealing p evs (Some ev) parcel firstInput out ap ->
  carries (observed ev) (proof.Blob_ ap)
  /\ proof.ScriptKey (proof.Locator_ ap) = asset.PubKey (out_ScriptKey out).
Proof.
  intros Hidx (ev' & suffix & base & files & [= <-] & _ & _ & _ & Hseal & Hloc).
  split; [| rewrite Hloc; reflexivity].
  eapply seals_carries; [exact Hidx | | exact Hseal]. reflexivity.
Qed.

(** C6.  When [storeProofs] returns without error for a package whose
    confirmation event is [ev], the proof files it imports end in a proof
    that carries exactly the block, the transaction and the transaction
    index of [ev]: the files of the passive assets, imported in one batch,
    one per passive asset; for every output that is not passive-only, the
    file imported for the output under its script key; and every entry of
    [FinalProofs].  The transaction index is an unsigned 32-bit number. *)
Theorem storeProofs_confirmation_stamp pkg w pkg' parcel ev :
  outcome (storeProofs p pkg w) = Ok pkg' ->
  OutboundPkg pkg = Some parcel ->
  TransferTxConfEvent pkg = Some ev ->
  is_uint32 (chainntnfs.TxIndex ev) ->
  (exists sealed,
      EvImportProofs sealed (Ok tt) ∈ emitted (storeProofs p pkg w)
      /\ length sealed = length (PassiveAssets pkg)
      /\ Forall (fun ap => carries (observed ev) (proof.Blob_ ap)) sealed)
  /\ (Inputs parcel <> [] ->
      forall out,
        out ∈ Outputs parcel ->
        out_Type out <> tappsbt.TypePassiveAssetsOnly ->
        exists ap,
          EvImportProofs [ap] (Ok tt) ∈ emitted (storeProofs p pkg w)
          /\ proof.ScriptKey (proof.Locator_ ap)
             = asset.PubKey (out_ScriptKey out)
          /\ carries (observed ev) (proof.Blob_ ap))
  /\ (Inputs parcel <> [] ->
      forall k ap,
        FinalProofs pkg' !! k = Some ap ->
        carries (observed ev) (proof.Blob_ ap)).
Proof.
  intros H Ho Hc Hidx.
  apply storeProofs_Ok in H
    as (parcel' & blobs & sealed & fp & evs & Ho' & Hall & Hev & -> & Hcase).
  rewrite Ho in Ho'. injection Ho' as <-. rewrite Hc in *. rewrite Hev.
  split; [| split].
  - exists sealed.*1. split; [elem_solve |].
    split.
    { rewrite length_fmap. symmetry.
      eapply eq_trans; [eapply Forall3_length_lr | reflexivity]. exact Hall. }
    clear Hev Hcase. induction Hall as [|pa blob res pas blobs' ress Hx _ IH];
      [constructor |].
    cbn [fmap list_fmap]. constructor; [| exact IH].
    destruct Hx as (ev' & file & [= <-] & _ & Hseal & _).
    eapply seals_carries; [exact Hidx | | exact Hseal]. reflexivity.
  - intros Hne out Hin Ht.
    destruct (Inputs parcel) as [|firstInput rest]; [contradiction |].
    destruct Hcase as (w1 & -> & Hloop).
    apply output_loop in Hloop as [Hloop _].
    destruct (Hloop out Hin Ht) as (ap & Hin' & Hseal).
    apply output_sealing_carries in Hseal as [Hcar Hkey]; [| exact Hidx].
    exists ap. split; [elem_solve | auto].
  - intros Hne k ap Hk.
    destruct (Inputs parcel) as [|firstInput rest]; [contradiction |].
    destruct Hcase as (w1 & -> & Hloop).
    apply output_loop in Hloop as [_ Hloop].
    cbn [with_SendState with_FinalProofs FinalProofs] in Hk.
    destruct (Hloop k ap Hk) as [Hk0|(out & _ & _ & _ & Hseal)].
    + rewrite lookup_empty in Hk0. discriminate.
    + apply output_sealing_carries in Hseal as [Hcar _]; [exact Hcar | exact Hidx].
Qed.

(** The annotated proof [ap] seals [out] as a merge: the proof appended to
    the first input's file carries, after the additional inputs of the
    decoded suffix, the proof files of the inputs after the first, in the
    order of the inputs, and so one file less than there are inputs. *)
Definition merge_sealing (evs : list Event) (parcel : OutboundParcel)
  (out : TransferOutput) (ap : proof.AnnotatedProof) : Prop :=
  exists firstInput suffix base files lastProof,
    head (Inputs parcel) = Some firstInput
    /\ Proof_Decode (lib p) (ProofSuffix out) = Ok suffix
    /\ fetched p evs firstInput base
    /\ Forall2 (fetched p evs) (tail (Inputs parcel)) files
    /\ seals p base lastProof (proof.Blob_ ap)
    /\ proof.AdditionalInputs lastProof
       = proof.AdditionalInputs suffix ++ files
    /\ length files = (length (Inputs parcel) - 1)%nat
    /\ (proof.AdditionalInputs suffix = [] ->
        proof.AdditionalInputs lastProof = files
        /\ length (proof.AdditionalInputs lastProof)
           = (length (Inputs parcel) - 1)%nat).

Lemma output_sealing_merge evs confEvent parcel firstInput rest out ap :
  Inputs parcel = firstInput :: rest ->
  output_sealing p evs confEvent parcel firstInput out ap ->
  merge_sealing evs parcel out ap.
Proof.
  intros Hin (ev & suffix & base & files & _ & Hs & Hb & Hf & Hseal & _).
  assert (length files = (length (Inputs parcel) - 1)%nat) as Hlen.
  { apply Forall2_length in Hf. rewrite <- Hf, Hin. simpl. lia. }
  exists firstInput, suffix, base, files. eexists.
  split; [rewrite Hin; reflexivity |]. split; [exact Hs |].
  split; [exact Hb |]. split; [exact Hf |]. split; [exact Hseal |].
  split; [reflexivity |]. split; [exact Hlen |].
  cbn. intros ->. auto.
Qed.

(** C5.  When [storeProofs] returns without error for a parcel with at
    least one input, then for every output that is not passive-only a
    proof file is imported that is the first input's file with one proof
    appended, whose additional inputs are those of the decoded suffix
    followed by the proof files fetched for the inputs after the first, in
    input order; where the suffix comes with no additional inputs, as the
    suffixes of a parcel do, these are exactly the n-1 files of
    inputs[1..n-1].  Every entry of [FinalProofs] is such a file, under the
    script key of its output. *)
Theorem storeProofs_additional_inputs pkg w pkg' parcel :
  outcome (storeProofs p pkg w) = Ok pkg' ->
  OutboundPkg pkg = Some parcel ->
  (1 <= length (Inputs parcel))%nat ->
  (forall out,
      out ∈ Outputs parcel ->
      out_Type out <> tappsbt.TypePassiveAssetsOnly ->
      exists ap,
        EvImportProofs [ap] (Ok tt) ∈ emitted (storeProofs p pkg w)
        /\ merge_sealing (emitted (storeProofs p pkg w)) parcel out ap)
  /\ (forall k ap,
         FinalProofs pkg' !! k = Some ap ->
         exists out,
           out ∈ Outputs parcel
           /\ out_Type out <> tappsbt.TypePassiveAssetsOnly
           /\ k = ToSerialized (asset.PubKey (out_ScriptKey out))
           /\ merge_sealing (emitted (storeProofs p pkg w)) parcel out ap).
Proof.
  intros H Ho Hn.
  apply storeProofs_Ok in H
    as (parcel' & blobs & sealed & fp & evs & Ho' & Hall & Hev & -> & Hcase).
  rewrite Ho in Ho'. injection Ho' as <-.
  destruct (Inputs parcel) as [|firstInput rest] eqn:Hin; [simpl in Hn; lia |].
  destruct Hcase as (w1 & -> & Hloop).
  apply output_loop in Hloop as [Hloop1 Hloop2].
  set (loop := foldMi 0 (Outputs parcel) _ ∅ w1) in *.
  assert (emitted loop ⊆ emitted (storeProofs p pkg w)) as Hsub
      by (rewrite Hev; sub_solve).
  assert (forall out ap,
             output_sealing p (emitted loop) (TransferTxConfEvent pkg) parcel
               firstInput out ap ->
             merge_sealing (emitted (storeProofs p pkg w)) parcel out ap)
    as Hmerge.
  { intros out ap Hseal. eapply output_sealing_merge; [exact Hin |].
    eapply output_sealing_mono; [exact Hsub | exact Hseal]. }
  split.
  - intros out Hout Ht. destruct (Hloop1 out Hout Ht) as (ap & Hin' & Hseal).
    exists ap. split; [apply Hsub, Hin' | apply Hmerge, Hseal].
  - intros k ap Hk. cbn [with_SendState with_FinalProofs FinalProofs] in Hk.
    destruct (Hloop2 k ap Hk) as [Hk0|(out & Hout & Ht & -> & Hseal)].
    + rewrite lookup_empty in Hk0. discriminate.
    + exists out. split; [exact Hout |]. split; [exact Ht |].
      split; [reflexivity | apply Hmerge, Hseal].
Qed.
End SealedTheorems.

(** * Backoff of the proof courier *)

Lemma find_none_all {A} (f : A -> bool) (l : list A) :
  (forall x, x ∈ l -> f x = false) -> List.find f l = None.
Proof.
  induction l as [|x l IH]; intros Hall; [reflexivity |].
  simpl. rewrite (Hall x) by left. apply IH.
  intros y Hy. apply Hall. right. exact Hy.
Qed.

Lemma delivery_tolerated_not_panicked r :
  delivery_tolerated r -> not_panicked r.
Proof. intros [->|(e & -> & _)] msg; discriminate. Qed.

Section BackoffDelivery.
Variable p : ChainPorter.

(** C2, as the code has it.  With a proof courier, when every non-local
    output has its final proof and the courier answers every delivery with
    nil or with a backoff error, the delivery part of the
    receiver-proof-transfer step returns no error: the step goes on to
    [confirmDelivery], whose calls follow the deliveries and whose result
    is the result of the step.  So a step that returns without error has
    called [ConfirmParcelDelivery] without error and has set the state to
    [SendStateComplete], whatever number of deliveries were answered with a
    backoff error. *)
Theorem transferReceiverProof_backoff_confirms pkg w courier parcel :
  ProofCourier (cfg p) = Some courier ->
  OutboundPkg pkg = Some parcel ->
  (forall out, out ∈ Outputs parcel -> lacks_proof pkg out = false) ->
  Forall delivery_tolerated
    (delivery_answers (emitted (transferReceiverProof p pkg w))) ->
  outcome (deliverProofs p pkg w) = Ok tt
  /\ deliveries (emitted (deliverProofs p pkg w))
     = omap (delivery_of pkg) (Outputs parcel)
  /\ emitted (transferReceiverProof p pkg w)
     = emitted (deliverProofs p pkg w)
         ++ emitted (confirmDelivery p pkg (after w (deliverProofs p pkg w)))
  /\ outcome (transferReceiverProof p pkg w)
     = outcome (confirmDelivery p pkg (after w (deliverProofs p pkg w)))
  /\ forall pkg',
      outcome (transferReceiverProof p pkg w) = Ok pkg' ->
      SendState pkg' = SendStateComplete
      /\ exists ev,
          last (emitted (transferReceiverProof p pkg w))
          = Some (EvConfirmParcelDelivery ev (Ok tt)).
Proof.
  intros Hc Ho Hall.
  unfold transferReceiverProof, deliverProofs. rewrite Hc, Ho.
  cbn [deref].
  set (head := let* parcel0 := ret parcel in
               wrap (Errorf_w "error delivering proof(s): ")
                 (ParSlice (Outputs parcel0) (deliver courier pkg))).
  assert (emitted (head w)
          = emitted (ParSlice (Outputs parcel) (deliver courier pkg)
                       (after w (ret parcel w)))
          /\ outcome (head w)
             = match outcome (ParSlice (Outputs parcel) (deliver courier pkg)
                                (after w (ret parcel w))) with
               | Err e => Err (Errorf_w "error delivering proof(s): " e)
               | r => r
               end) as [Hhev Hhout].
  { unfold head. rewrite (bind_Ok _ _ _ parcel) by reflexivity.
    rewrite prepend_emitted, prepend_outcome, wrap_emitted, wrap_outcome.
    auto. }
  set (w1 := after w (ret parcel w)) in *.
  set (par := ParSlice (Outputs parcel) (deliver courier pkg) w1) in *.
  pose proof (confirmDelivery_only p pkg (after w (head w))) as Htail.
  apply confirm_only_deliveries in Htail as [Htd Hta].
  assert (delivery_answers
            (emitted (bind head (fun _ => confirmDelivery p pkg) w))
          = delivery_answers (emitted par)) as Ha.
  { destruct (outcome par) as [[]|e|msg] eqn:Hpar.
    - rewrite (bind_Ok _ _ _ tt Hhout).
      rewrite prepend_emitted, delivery_answers_app, Hta, app_nil_r, Hhev.
      reflexivity.
    - rewrite (bind_Err _ _ _ _ Hhout). cbn [emitted]. rewrite Hhev.
      reflexivity.
    - rewrite (bind_Panic _ _ _ _ Hhout). cbn [emitted]. rewrite Hhev.
      reflexivity. }
  rewrite Ha. intros Htol.
  assert (Forall not_panicked (delivery_answers (emitted par))) as Hnp.
  { eapply Forall_impl; [exact Htol |].
    exact delivery_tolerated_not_panicked. }
  destruct (ParSlice_deliver courier pkg (Outputs parcel) w1 Hnp)
    as (P1 & _ & _ & P4).
  fold par in P1, P4. specialize (P4 Htol).
  rewrite (find_none_all _ _ Hall) in P4. rewrite P4 in Hhout.
  rewrite (bind_Ok _ _ _ tt Hhout).
  rewrite prepend_emitted, prepend_outcome.
  split; [exact Hhout |]. split; [rewrite Hhev; exact P1 |].
  split; [reflexivity |]. split; [reflexivity |].
  intros pkg' H. apply confirmDelivery_Ok in H
    as (-> & parcel' & blobs & ev & _ & _ & -> & _).
  split; [reflexivity |]. exists ev.
  rewrite !app_assoc. apply last_snoc.
Qed.
End BackoffDelivery.

(** * The properties on the scripted porter *)

Import Scenario.

Lemma receiverOutput_in_parcel h inputs passiveAssets stamped :
  receiverOutput ∈ Outputs (parcel h inputs passiveAssets stamped).
Proof. right. left. Qed.

Lemma parcel_outputs_have_proofs out :
  out ∈ Outputs (parcel 499 [firstInput; secondInput] [passiveAsset 20] true) ->
  lacks_proof sealedMerge out = false.
Proof.
  intros Hin. apply elem_of_cons in Hin as [->|Hin]; [reflexivity |].
  apply list_elem_of_singleton in Hin as ->. vm_compute. reflexivity.
Qed.

(** C1 on the shipment: the driver takes the requested package to the end,
    and its one broadcast comes after the journal entry. *)
Lemma advanceState_journal_before_publish_witness :
  advanceState sender requested start = Some shipment
  /\ journal_before_publish (trace start ++ emitted shipment).
Proof.
  assert (advanceState sender requested start = Some shipment) as Hrun
      by (vm_compute; reflexivity).
  split; [exact Hrun |].
  apply (advanceState_journal_before_publish sender requested start shipment
           Hrun).
  - intros parcel0 Hs. discriminate Hs.
  - intros [|ev before] tx res later; discriminate.
Defined.

(** C4, as given, on a wait that the cancellation of its context ends: the
    registration is made, the wait receives the cancellation, and the
    function returns an error. *)
Lemma waitForTransferTxConf_cancelled :
  emitted (waitForTransferTxConf cancelled waiting start)
  = [EvRegisterConfirmationsNtfn 7 [Byte.x51] 1 499 true (Ok tt);
     EvConfSelect CtxDone]
  /\ outcome (waitForTransferTxConf cancelled waiting start)
     = Err (errorNew "got empty package tx confirmation event in batch")
  /\ is_Ok (outcome (waitForTransferTxConf cancelled waiting start)) = false.
Proof. vm_compute. repeat split. Qed.

(** C4, as amended, on the same wait. *)
Lemma waitForTransferTxConf_errors_witness :
  outcome (waitForTransferTxConf cancelled waiting start)
  = Err (errorNew "got empty package tx confirmation event in batch").
Proof.
  apply (proj1 (waitForTransferTxConf_errors cancelled waiting start
                  (parcel 499 [firstInput] [] true)
                  {| wire.Value := 1000; wire.PkScript := [Byte.x51] |} []
                  eq_refl eq_refl)); reflexivity.
Defined.

(** C8 on the resumed parcel: the wallet answers the import of the anchor
    output with "already exists", and the anchor transaction is
    published. *)
Lemma importLocalAddresses_already_exists_witness :
  imports (emitted (stateStep holdingWallet resumed start))
  = [(1%N, Err (errorNew "output already exists"))]
  /\ publishes (emitted (stateStep holdingWallet resumed start)) = [anchorTx].
Proof.
  assert (imports (emitted (stateStep holdingWallet resumed start))
          = [(1%N, Err (errorNew "output already exists"))]) as Himports
      by (vm_compute; reflexivity).
  split; [exact Himports |].
  refine (proj1 (proj2 (proj2
            (importLocalAddresses_already_exists holdingWallet resumed
               (parcel 499 [firstInput] [] true) start eq_refl eq_refl _))) _).
  - intros out Hin Hl. exists 1%N.
    apply elem_of_cons in Hin as [->|Hin].
    + eexists _, _. repeat split; reflexivity.
    + apply list_elem_of_singleton in Hin as ->. discriminate Hl.
  - intros k res Hin. rewrite Himports in Hin.
    apply list_elem_of_singleton in Hin as [= -> ->].
    right. eexists. split; reflexivity.
Defined.

(** C10 on the sealed merge, sent without a courier: nothing is delivered,
    the file of the passive asset is fetched, the delivery is confirmed in
    the journal and the package is complete. *)
Lemma transferReceiverProof_no_courier_witness :
  deliveries (emitted (transferReceiverProof courierless sealedMerge start))
  = []
  /\ outcome (transferReceiverProof courierless sealedMerge start)
     = Ok (with_SendState SendStateComplete sealedMerge)
  /\ exists ev,
      emitted (transferReceiverProof courierless sealedMerge start)
      = [EvFetchProof (passiveLocator (passiveAsset 20)) (Ok [Byte.x00]);
         EvConfirmParcelDelivery ev (Ok tt)].
Proof.
  assert (exists ev,
             emitted (transferReceiverProof courierless sealedMerge start)
             = [EvFetchProof (passiveLocator (passiveAsset 20))
                  (Ok [Byte.x00]);
                EvConfirmParcelDelivery ev (Ok tt)]) as Hrun
      by (eexists; vm_compute; reflexivity).
  split; [| split; [| exact Hrun]].
  - exact (proj1 (transferReceiverProof_no_courier courierless sealedMerge
                    start eq_refl)).
  - refine (proj1 (proj2 (transferReceiverProof_no_courier courierless
                            sealedMerge start eq_refl))
              (parcel 499 [firstInput; secondInput] [passiveAsset 20] true)
              confirmation 99%N eq_refl eq_refl eq_refl _).
    destruct Hrun as [ev ->]. repeat constructor.
Defined.


(** C2, as the code has it, on the sealed merge with a courier that backs
    off: the delivery part returns no error. *)
Lemma transferReceiverProof_backoff_confirms_witness :
  outcome (deliverProofs offline sealedMerge start) = Ok tt.
Proof.
  refine (proj1
            (transferReceiverProof_backoff_confirms offline sealedMerge start
               backingOff
               (parcel 499 [firstInput; secondInput] [passiveAsset 20] true)
               eq_refl eq_refl parcel_outputs_have_proofs _)).
  assert (delivery_answers
            (emitted (transferReceiverProof offline sealedMerge start))
          = [Err (BackoffExecError "backoff exec error: receiver is offline")])
    as -> by (vm_compute; reflexivity).
  constructor; [| constructor]. right. eexists. split; reflexivity.
Defined.

(** C2, as given, on the same run: the one delivery is answered with a
    backoff error, and the step calls [ConfirmParcelDelivery] and returns the
    package in the state [SendStateComplete]; the driver has nothing left to
    do for it. *)
Lemma transferReceiverProof_backoff_completes :
  delivery_answers (emitted (transferReceiverProof offline sealedMerge start))
  = [Err (BackoffExecError "backoff exec error: receiver is offline")]
  /\ (exists ev,
        last (emitted (transferReceiverProof offline sealedMerge start))
        = Some (EvConfirmParcelDelivery ev (Ok tt)))
  /\ outcome (transferReceiverProof offline sealedMerge start)
     = Ok (with_SendState SendStateComplete sealedMerge)
  /\ advanceState offline (with_SendState SendStateComplete sealedMerge)
       {| trace := emitted (transferReceiverProof offline sealedMerge start);
          quit := false |}
     = Some (mkRun [] false (Ok (with_SendState SendStateComplete sealedMerge))).
Proof.
  split; [vm_compute; reflexivity |].
  split; [eexists; vm_compute; reflexivity |].
  split; vm_compute; reflexivity.
Qed.

Lemma storeProofs_merge :
  outcome (storeProofs sender merge start) = Ok sealedMerge.
Proof. vm_compute. reflexivity. Qed.

(** C9 on the parcel of passive assets only: the two passive proofs are
    imported in one batch, and no final proof is made. *)
Lemma storeProofs_passive_only_witness :
  SendState sealedPassiveOnly = SendStateReceiverProofTransfer
  /\ FinalProofs sealedPassiveOnly = ∅
  /\ exists (blobs : list Blob)
       (sealed : list (proof.AnnotatedProof * PassiveAssetReAnchor)),
      length sealed.*1 = 2%nat
      /\ emitted (storeProofs sender passiveOnly start)
         = passiveFetches (PassiveAssets passiveOnly) blobs
             ++ [EvImportProofs sealed.*1 (Ok tt)].
Proof.
  assert (outcome (storeProofs sender passiveOnly start) = Ok sealedPassiveOnly)
    as Hrun by (vm_compute; reflexivity).
  destruct (storeProofs_passive_only sender passiveOnly start sealedPassiveOnly
              (parcel 499 [] [passiveAsset 20; passiveAsset 21] true)
              eq_refl eq_refl Hrun)
    as (Hstate & _ & Hempty & blobs & sealed & _ & Hlen & Hev).
  split; [exact Hstate |]. split; [exact (Hempty eq_refl) |].
  exists blobs, sealed. split; [exact Hlen | exact Hev].
Defined.

(** C6 on the merge: the file imported for the receiver's output ends in a
    proof that carries the confirmation. *)
Lemma storeProofs_confirmation_stamp_witness :
  exists ap,
    EvImportProofs [ap] (Ok tt) ∈ emitted (storeProofs sender merge start)
    /\ proof.ScriptKey (proof.Locator_ ap)
       = asset.PubKey (out_ScriptKey receiverOutput)
    /\ carries sender (observed confirmation) (proof.Blob_ ap).
Proof.
  refine (proj1 (proj2
            (storeProofs_confirmation_stamp sender merge start sealedMerge
               (parcel 499 [firstInput; secondInput] [passiveAsset 20] true)
               confirmation storeProofs_merge eq_refl eq_refl _))
            _ receiverOutput _ _).
  - unfold is_uint32. simpl. lia.
  - discriminate.
  - apply receiverOutput_in_parcel.
  - discriminate.
Defined.

(** C5 on the merge of two inputs: the proof appended for the receiver's
    output carries the file of the second input. *)
Lemma storeProofs_additional_inputs_witness :
  exists ap,
    EvImportProofs [ap] (Ok tt) ∈ emitted (storeProofs sender merge start)
    /\ merge_sealing sender (emitted (storeProofs sender merge start))
         (parcel 499 [firstInput; secondInput] [passiveAsset 20] true)
         receiverOutput ap.
Proof.
  refine (proj1
            (storeProofs_additional_inputs sender merge start sealedMerge
               (parcel 499 [firstInput; secondInput] [passiveAsset 20] true)
               storeProofs_merge eq_refl _)
            receiverOutput _ _).
  - simpl. lia.
  - apply receiverOutput_in_parcel.
  - discriminate.
Defined.

(** * The runs of the driver *)

(** An invariant of the packages and a property of the calls that every step
    taken by the driver keeps hold in every run of it; the error sent to the
    error channel comes last, after the calls of the steps. *)
Section DriverRuns.
Variable p : ChainPorter.
Variable Inv : sendPackage -> Prop.
Variable P : Event -> Prop.

Hypothesis step_keeps :
  forall pkg w,
    Inv pkg ->
    (SendState_ord (SendState pkg) < SendState_ord SendStateComplete)%nat ->
    Forall P (emitted (stateStep p pkg w))
    /\ forall pkg', outcome (stateStep p pkg w) = Ok pkg' -> Inv pkg'.

#[local] Opaque stateStep.

Lemma advanceState_loop_invariant fuel pkg w r :
  Inv pkg ->
  advanceState_loop p fuel pkg w = Some r ->
  (exists evs,
      Forall P evs
      /\ emitted r
         = evs ++ match outcome r with Err e => [EvErrChan e] | _ => [] end)
  /\ forall pkg', outcome r = Ok pkg' -> Inv pkg'.
Proof.
  revert pkg w r. induction fuel as [|fuel IH]; intros pkg w r Hinv;
    rewrite advanceState_loop_unfold.
  - case_decide; [discriminate |]. intros [= <-]. simpl.
    split; [exists []; split; [constructor | reflexivity] |].
    intros pkg' [= <-]. exact Hinv.
  - case_decide as Hlt.
    2: { intros [= <-]. simpl.
         split; [exists []; split; [constructor | reflexivity] |].
         intros pkg' [= <-]. exact Hinv. }
    destruct (quitClosed p w).
    { intros [= <-]. simpl.
      split; [exists []; split; [constructor | reflexivity] |].
      intros pkg' [= <-]. exact Hinv. }
    destruct (step_keeps pkg w Hinv Hlt) as [Hcalls Hnext].
    destruct (outcome (stateStep p pkg w)) as [pkg1|e|msg] eqn:Hstep.
    + destruct (advanceState_loop p fuel pkg1 (after w (stateStep p pkg w)))
        as [r2|] eqn:Hr2; [| discriminate].
      simpl. intros [= <-].
      rewrite prepend_emitted, prepend_outcome.
      destruct (IH _ _ _ (Hnext _ eq_refl) Hr2) as [(evs & Hevs & ->) Hfin].
      split; [| exact Hfin].
      exists (emitted (stateStep p pkg w) ++ evs).
      split; [apply Forall_app; auto | apply app_assoc].
    + intros [= <-]. simpl.
      split; [eauto | discriminate].
    + intros [= <-]. simpl.
      split; [| discriminate].
      exists (emitted (stateStep p pkg w)).
      split; [exact Hcalls | symmetry; apply app_nil_r].
Qed.

#[local] Transparent stateStep.
End DriverRuns.

Section DriverOutcome.
Variable p : ChainPorter.

(** The calls of the steps: any event but the sending of an error to the
    error channel. *)
Definition step_call (ev : Event) : Prop :=
  match ev with EvErrChan _ => False | _ => True end.

Lemma stateStep_step_calls pkg w :
  Forall step_call (emitted (stateStep p pkg w)).
Proof.
  destruct (stateStep_calls p pkg w) as (calls & -> & Hcalls).
  constructor; [exact I |].
  eapply Forall_impl; [exact Hcalls |].
  intros []; simpl; tauto.
Qed.

(** The driver has taken steps from [pkg] in [w], each with the quit
    channel open and returning no error: the calls [evs] were made, and the
    next turn of the loop finds [pkg'] in [w']. *)
Inductive advances
  : sendPackage -> World -> list Event -> sendPackage -> World -> Prop :=
| advances_none pkg w : advances pkg w [] pkg w
| advances_step pkg w pkg1 evs pkg' w' :
    (SendState_ord (SendState pkg) < SendState_ord SendStateComplete)%nat ->
    quitClosed p w = false ->
    outcome (stateStep p pkg w) = Ok pkg1 ->
    advances pkg1 (after w (stateStep p pkg w)) evs pkg' w' ->
    advances pkg w (emitted (stateStep p pkg w) ++ evs) pkg' w'.

(** The step taken for [pkg0] in [w0] returns the error [e]. *)
Definition fails_at (pkg0 : sendPackage) (w0 : World) (e : error) : Prop :=
  (SendState_ord (SendState pkg0) < SendState_ord SendStateComplete)%nat
  /\ quitClosed p w0 = false
  /\ outcome (stateStep p pkg0 w0) = Err e.

(** The run of the driver that made the calls [before], then the step for
    [pkg0] in [w0], which failed with [e]: the calls of that step, the error
    sent to the error channel, and the error returned. *)
Definition failed_at (before : list Event) (pkg0 : sendPackage) (w0 : World)
  (e : error) : Run sendPackage :=
  mkRun (before ++ emitted (stateStep p pkg0 w0) ++ [EvErrChan e])
    (quitAfter (stateStep p pkg0 w0)) (Err e).

#[local] Opaque stateStep.

Lemma advanceState_loop_failing fuel pkg w r before pkg0 w0 e :
  advances pkg w before pkg0 w0 ->
  fails_at pkg0 w0 e ->
  advanceState_loop p fuel pkg w = Some r ->
  r = failed_at before pkg0 w0 e.
Proof.
  intros Hadv (Hlt0 & Hq0 & Hstep0). revert fuel r.
  induction Hadv as [pkg w|pkg w pkg1 evs pkg' w' Hlt Hq Hstep Hadv IH];
    intros fuel r; rewrite advanceState_loop_unfold.
  - rewrite decide_True by exact Hlt0.
    destruct fuel as [|fuel]; [discriminate |].
    rewrite Hq0, Hstep0. intros [= <-]. reflexivity.
  - rewrite decide_True by exact Hlt.
    destruct fuel as [|fuel]; [discriminate |].
    rewrite Hq, Hstep.
    destruct (advanceState_loop p fuel pkg1 (after w (stateStep p pkg w)))
      as [r2|] eqn:Hr2; [| discriminate].
    simpl. intros [= <-].
    rewrite (IH Hlt0 Hq0 Hstep0 _ _ Hr2). unfold failed_at. simpl.
    rewrite app_assoc. reflexivity.
Qed.

Lemma advanceState_loop_failed fuel pkg w r e :
  advanceState_loop p fuel pkg w = Some r ->
  outcome r = Err e ->
  exists before pkg0 w0,
    advances pkg w before pkg0 w0
    /\ fails_at pkg0 w0 e
    /\ r = failed_at before pkg0 w0 e.
Proof.
  revert pkg w r. induction fuel as [|fuel IH]; intros pkg w r;
    rewrite advanceState_loop_unfold.
  - case_decide; [discriminate |]. intros [= <-]. discriminate.
  - case_decide as Hlt; [| intros [= <-]; discriminate].
    destruct (quitClosed p w) eqn:Hq; [intros [= <-]; discriminate |].
    destruct (outcome (stateStep p pkg w)) as [pkg1|e1|msg] eqn:Hstep.
    + destruct (advanceState_loop p fuel pkg1 (after w (stateStep p pkg w)))
        as [r2|] eqn:Hr2; [| discriminate].
      simpl. intros [= <-]. rewrite prepend_outcome. intros He.
      destruct (IH _ _ _ Hr2 He) as (before & pkg0 & w0 & Hadv & Hf & ->).
      exists (emitted (stateStep p pkg w) ++ before), pkg0, w0.
      split; [apply (advances_step pkg w pkg1); assumption |].
      split; [exact Hf |].
      unfold failed_at. simpl. rewrite app_assoc. reflexivity.
    + intros [= <-]. simpl. intros [= <-].
      exists [], pkg, w.
      split; [constructor |]. split; [| reflexivity].
      split; [exact Hlt |]. split; [exact Hq | exact Hstep].
    + intros [= <-]. discriminate.
Qed.

#[local] Transparent stateStep.

Lemma advances_step_calls pkg w evs pkg' w' :
  advances pkg w evs pkg' w' -> Forall step_call evs.
Proof.
  induction 1; [constructor |].
  apply Forall_app. split; [apply stateStep_step_calls | assumption].
Qed.

(** X1.  In a run of [advanceState] that returns (the error channel takes
    what is sent to it), the error returned is the error of the step that
    failed, as the step returned it.  When the steps taken so far returned
    no error and the next step returns the error [e], the driver makes no
    further step: it sends [e] to [ErrChan] and returns [e].  A run that
    returns an error [e] is such a run: a step returned [e], and [e] was
    sent to [ErrChan] once, as the last thing the driver did.  A run that
    returns nil (or panics) sends nothing to [ErrChan]. *)
Theorem advanceState_reports_error pkg w r :
  advanceState p pkg w = Some r ->
  (forall before pkg0 w0 e,
      advances pkg w before pkg0 w0 ->
      fails_at pkg0 w0 e ->
      r = failed_at before pkg0 w0 e)
  /\ (forall e,
         outcome r = Err e ->
         exists before pkg0 w0,
           advances pkg w before pkg0 w0
           /\ fails_at pkg0 w0 e
           /\ Forall step_call (before ++ emitted (stateStep p pkg0 w0))
           /\ r = failed_at before pkg0 w0 e)
  /\ exists evs,
      Forall step_call evs
      /\ emitted r
         = evs ++ match outcome r with Err e => [EvErrChan e] | _ => [] end.
Proof.
  intros Hr. split; [| split].
  - intros before pkg0 w0 e Hadv Hf.
    exact (advanceState_loop_failing _ _ _ _ _ _ _ _ Hadv Hf Hr).
  - intros e He.
    destruct (advanceState_loop_failed _ _ _ _ _ Hr He)
      as (before & pkg0 & w0 & Hadv & Hf & ->).
    exists before, pkg0, w0. split; [exact Hadv |]. split; [exact Hf |].
    split; [| reflexivity].
    apply Forall_app.
    split; [eapply advances_step_calls, Hadv | apply stateStep_step_calls].
  - destruct (advanceState_loop_invariant p (fun _ => True) step_call) 
      with (fuel := 10%nat) (pkg := pkg) (w := w) (r := r)
      as [(evs & Hevs & Hr') _]; [| exact I | exact Hr |].
    { intros pkg0 w0 _ _. split; [apply stateStep_step_calls | auto]. }
    exists evs. auto.
Qed.

#[local] Opaque stateStep.

Lemma advanceState_loop_stops fuel pkg w r :
  advanceState_loop p fuel pkg w = Some r ->
  (forall pkg',
      outcome r = Ok pkg' ->
      SendState pkg' = SendStateComplete \/ quitAfter r = true)
  /\ Forall (fun s => s <> SendStateComplete) (executed (emitted r)).
Proof.
  revert pkg w r. induction fuel as [|fuel IH]; intros pkg w r;
    rewrite advanceState_loop_unfold.
  - case_decide as Hlt; [discriminate |]. intros [= <-]. simpl.
    split; [| constructor]. intros pkg' [= <-]. left.
    destruct (SendState pkg); simpl in Hlt; solve [lia | reflexivity].
  - case_decide as Hlt.
    2: { intros [= <-]. simpl. split; [| constructor].
         intros pkg' [= <-]. left.
         destruct (SendState pkg); simpl in Hlt; solve [lia | reflexivity]. }
    destruct (quitClosed p w).
    { intros [= <-]. simpl. split; [auto | constructor]. }
    pose proof (stateStep_executed p pkg w) as Hex.
    assert (SendState pkg <> SendStateComplete) as Hne.
    { intros Hc. rewrite Hc in Hlt. simpl in Hlt. lia. }
    destruct (outcome (stateStep p pkg w)) as [pkg1|e|msg] eqn:Hstep.
    + destruct (advanceState_loop p fuel pkg1 (after w (stateStep p pkg w)))
        as [r2|] eqn:Hr2; [| discriminate].
      simpl. intros [= <-].
      rewrite prepend_emitted, prepend_outcome, prepend_quitAfter.
      rewrite executed_app, Hex.
      destruct (IH _ _ _ Hr2) as [Hfin Hall].
      split; [exact Hfin | constructor; assumption].
    + intros [= <-]. simpl. rewrite executed_app, Hex. simpl.
      split; [discriminate | repeat constructor; assumption].
    + intros [= <-]. simpl. rewrite Hex.
      split; [discriminate | repeat constructor; assumption].
Qed.

#[local] Transparent stateStep.

(** X2.  [advanceState] returns nil only with the package in the state
    [SendStateComplete], or because the quit channel is closed.  It never
    executes a step in the state [SendStateComplete], so the unknown-state
    error of [stateStep] never comes out of the driver.  With the quit
    channel closed before the call, it makes no call at all and leaves the
    package as it is. *)
Theorem advanceState_stops pkg w :
  exists r,
    advanceState p pkg w = Some r
    /\ (forall pkg',
           outcome r = Ok pkg' ->
           SendState pkg' = SendStateComplete \/ quitAfter r = true)
    /\ Forall (fun s => s <> SendStateComplete) (executed (emitted r))
    /\ (quitClosed p w = true -> emitted r = [] /\ outcome r = Ok pkg).
Proof.
  destruct (advanceState_returns p pkg w) as [r Hr].
  exists r. split; [exact Hr |].
  destruct (advanceState_loop_stops _ _ _ _ Hr) as [H1 H2].
  split; [exact H1 |]. split; [exact H2 |].
  intros Hq. unfold advanceState in Hr.
  rewrite advanceState_loop_unfold, Hq in Hr.
  case_decide; injection Hr as <-; auto.
Qed.
End DriverOutcome.

(** * The broadcast and its response *)

(** The responses delivered to the requester of a shipment. *)
Definition responses (evs : list Event) : list (option OutboundParcel) :=
  omap (fun ev => match ev with
                  | EvDeliverTxBroadcastResp o => Some o
                  | _ => None
                  end) evs.

Lemma responses_app evs1 evs2 :
  responses (evs1 ++ evs2) = responses evs1 ++ responses evs2.
Proof. apply omap_app. Qed.

(** Every response of the history is that of a parcel whose anchor
    transaction the call just before it has published without error. *)
Definition response_after_publish (evs : list Event) : Prop :=
  forall before o later,
    evs = before ++ EvDeliverTxBroadcastResp o :: later ->
    exists parcel before',
      o = Some parcel
      /\ before
         = before' ++ [EvPublishTransaction (op_AnchorTx parcel) (Ok tt)].

Lemma response_after_publish_app evs1 evs2 :
  response_after_publish evs1 -> response_after_publish evs2 ->
  response_after_publish (evs1 ++ evs2).
Proof.
  intros H1 H2 before o later Heq.
  apply app_eq_app in Heq as [l [[-> Hl]|[-> Hl]]].
  - destruct l as [|ev l]; simpl in Hl.
    + destruct (H2 [] o later) as (parcel & before' & _ & Hb);
        [symmetry; exact Hl |].
      destruct before'; discriminate.
    + injection Hl as <- ->. eapply H1. reflexivity.
  - destruct (H2 l o later Hl) as (parcel & before' & -> & ->).
    exists parcel, (evs1 ++ before'). split; [reflexivity | apply app_assoc].
Qed.

Lemma no_response_after_publish evs :
  responses evs = [] -> response_after_publish evs.
Proof.
  intros Hnone before o later ->.
  rewrite responses_app in Hnone. simpl in Hnone.
  destruct (responses before); discriminate.
Qed.

Section Broadcast.
Variable p : ChainPorter.

Lemma import_only_responses evs : Forall import_only evs -> responses evs = [].
Proof.
  induction 1 as [|ev evs Hev _ IH]; [reflexivity |].
  destruct ev; simpl in *; try contradiction; exact IH.
Qed.

(** The run of the broadcast step: the imports, then, unless an import
    failed, the publication and, when that returned nil, the response. *)
Lemma stateStep_Broadcast pkg w :
  SendState pkg = SendStateBroadcast ->
  exists imps,
    Forall import_only imps
    /\ ((emitted (stateStep p pkg w)
         = EvExecuteSendState SendStateBroadcast :: imps
         /\ ((exists e,
                 outcome (stateStep p pkg w)
                 = Err (Errorf_w "unable to import local addresses: " e))
             \/ exists msg, outcome (stateStep p pkg w) = Panic msg))
        \/ exists parcel ans,
            OutboundPkg pkg = Some parcel
            /\ emitted (stateStep p pkg w)
               = EvExecuteSendState SendStateBroadcast
                   :: imps
                   ++ EvPublishTransaction (op_AnchorTx parcel) ans
                   :: match ans with
                      | Ok _ => [EvDeliverTxBroadcastResp (Some parcel)]
                      | _ => []
                      end
            /\ outcome (stateStep p pkg w)
               = match ans with
                 | Ok _ => Ok (with_SendState SendStateWaitTxConf pkg)
                 | Err e => Err e
                 | Panic msg => Panic msg
                 end).
Proof.
  intros Hs. unfold stateStep, publishSubscriberEvent. rewrite Hs.
  rewrite (bind_Ok _ _ _ tt) by reflexivity.
  set (w1 := after w (emit (EvExecuteSendState SendStateBroadcast) w)).
  rewrite prepend_emitted, prepend_outcome. cbn [emitted emit app].
  pose proof (importLocalAddresses_only p (OutboundPkg pkg) w1) as Honly.
  set (imp := importLocalAddresses p (OutboundPkg pkg)) in *.
  set (f := Errorf_w "unable to import local addresses: ").
  exists (emitted (imp w1)). split; [exact Honly |].
  destruct (outcome (imp w1)) as [[]|e0|msg] eqn:Himp.
  - right.
    assert (outcome (wrap f imp w1) = Ok tt) as Hwrap
        by (rewrite wrap_outcome, Himp; reflexivity).
    rewrite (bind_Ok _ _ _ tt) by exact Hwrap.
    rewrite wrap_emitted, prepend_emitted, prepend_outcome.
    destruct (OutboundPkg pkg) as [parcel|] eqn:Ho.
    2: { unfold imp, importLocalAddresses in Himp. discriminate. }
    exists parcel, (PublishTransaction (cfg_ChainBridge (cfg p))
                      (trace (after w1 (wrap f imp w1))) (op_AnchorTx parcel)).
    split; [reflexivity |].
    cbn [deref]. rewrite (bind_Ok _ _ _ parcel) by reflexivity.
    rewrite prepend_emitted, prepend_outcome. cbn [emitted ret app].
    run_unfold. run_simpl.
    destruct (PublishTransaction _ _ _); run_simpl; auto.
  - left.
    assert (outcome (wrap f imp w1) = Err (f e0)) as Hwrap
        by (rewrite wrap_outcome, Himp; reflexivity).
    rewrite (bind_Err _ _ _ (f e0)) by exact Hwrap.
    rewrite wrap_emitted. cbn [emitted outcome]. eauto.
  - left.
    assert (outcome (wrap f imp w1) = Panic msg) as Hwrap
        by (rewrite wrap_outcome, Himp; reflexivity).
    rewrite (bind_Panic _ _ _ msg) by exact Hwrap.
    rewrite wrap_emitted. cbn [emitted outcome]. eauto.
Qed.

Lemma made_in_responses pkg calls :
  SendState pkg <> SendStateBroadcast ->
  Forall (made_in pkg) calls -> responses calls = [].
Proof.
  intros Hs. induction 1 as [|ev calls Hev _ IH]; [reflexivity |].
  destruct ev; simpl in *; try contradiction; exact IH.
Qed.

(** A step delivers at most one response, and none outside the broadcast
    state. *)
Lemma stateStep_responses pkg w :
  response_after_publish (emitted (stateStep p pkg w))
  /\ (length (responses (emitted (stateStep p pkg w)))
      <= if decide (SendState pkg = SendStateBroadcast) then 1 else 0)%nat.
Proof.
  case_decide as Hs.
  - destruct (stateStep_Broadcast pkg w Hs)
      as (imps & Himps & [[-> _]|(parcel & ans & _ & -> & _)]).
    + assert (responses (EvExecuteSendState SendStateBroadcast :: imps) = [])
        as Hnone by (simpl; apply import_only_responses, Himps).
      split; [apply no_response_after_publish, Hnone | rewrite Hnone; simpl; lia].
    + split.
      * intros before o later Heq.
        change (EvExecuteSendState SendStateBroadcast :: imps ++ ?l)
          with ((EvExecuteSendState SendStateBroadcast :: imps) ++ l) in Heq.
        assert (responses (EvExecuteSendState SendStateBroadcast :: imps) = [])
          as Hnone by (simpl; apply import_only_responses, Himps).
        apply app_eq_app in Heq as [l [[Hx Hl]|[-> Hl]]].
        { destruct l as [|ev l]; simpl in Hl.
          - discriminate.
          - exfalso. injection Hl as <- _.
            rewrite Hx, responses_app in Hnone.
            destruct (responses before); discriminate. }
        destruct l as [|ev l]; [discriminate |].
        injection Hl as <- Hl.
        destruct ans as [[]| |]; [| destruct l; discriminate ..].
        destruct l as [|ev l]; [| destruct l; discriminate].
        injection Hl as <- <-.
        exists parcel, (EvExecuteSendState SendStateBroadcast :: imps).
        auto.
      * change (EvExecuteSendState SendStateBroadcast :: imps ++ ?l)
          with ((EvExecuteSendState SendStateBroadcast :: imps) ++ l).
        rewrite responses_app. simpl.
        rewrite (import_only_responses _ Himps).
        destruct ans as [[]| |]; simpl; lia.
  - destruct (stateStep_calls p pkg w) as (calls & -> & Hcalls).
    assert (responses (EvExecuteSendState (SendState pkg) :: calls) = [])
      as Hnone by (simpl; eapply made_in_responses; eauto).
    split; [apply no_response_after_publish, Hnone | rewrite Hnone; simpl; lia].
Qed.

#[local] Opaque stateStep.

Lemma advanceState_loop_responses fuel pkg w r :
  advanceState_loop p fuel pkg w = Some r ->
  response_after_publish (emitted r)
  /\ (length (responses (emitted r))
      <= if decide (SendState_ord (SendState pkg)
                    <= SendState_ord SendStateBroadcast)%nat
         then 1 else 0)%nat.
Proof.
  revert pkg w r. induction fuel as [|fuel IH]; intros pkg w r;
    rewrite advanceState_loop_unfold.
  - case_decide; [discriminate |]. intros [= <-]. simpl.
    split; [apply no_response_after_publish; reflexivity | lia].
  - case_decide as Hlt.
    2: { intros [= <-]. simpl.
         split; [apply no_response_after_publish; reflexivity | lia]. }
    destruct (quitClosed p w).
    { intros [= <-]. simpl.
      split; [apply no_response_after_publish; reflexivity | lia]. }
    destruct (stateStep_responses pkg w) as [Hstep Hcount].
    destruct (outcome (stateStep p pkg w)) as [pkg1|e|msg] eqn:Hout.
    + destruct (advanceState_loop p fuel pkg1 (after w (stateStep p pkg w)))
        as [r2|] eqn:Hr2; [| discriminate].
      simpl. intros [= <-]. rewrite prepend_emitted.
      destruct (IH _ _ _ Hr2) as [Hresp Hcount2].
      split; [apply response_after_publish_app; assumption |].
      rewrite responses_app, length_app.
      apply stateStep_next in Hout as [[Hn Hc]|(Hw & -> & _)].
      * rewrite Hn in Hcount2.
        destruct (SendState pkg); simpl in *; try lia; contradiction.
      * rewrite Hw in *. simpl in *. lia.
    + intros [= <-]. simpl.
      split.
      * apply response_after_publish_app; [exact Hstep |].
        apply no_response_after_publish. reflexivity.
      * rewrite responses_app, length_app. simpl.
        destruct (SendState pkg); simpl in *; lia.
    + intros [= <-]. simpl.
      split; [exact Hstep |].
      destruct (SendState pkg); simpl in *; lia.
Qed.

#[local] Transparent stateStep.

(** X3.  In every run of [advanceState], a response is delivered to the
    requester only right after [PublishTransaction] has returned nil for the
    anchor transaction of the parcel delivered; and a run delivers at most
    one response, none when the package starts after the broadcast
    state. *)
Theorem advanceState_response_after_publish pkg w :
  exists r,
    advanceState p pkg w = Some r
    /\ response_after_publish (emitted r)
    /\ (length (responses (emitted r)) <= 1)%nat
    /\ ((SendState_ord SendStateBroadcast < SendState_ord (SendState pkg))%nat ->
        responses (emitted r) = []).
Proof.
  destruct (advanceState_returns p pkg w) as [r Hr].
  exists r. split; [exact Hr |].
  destruct (advanceState_loop_responses _ _ _ _ Hr) as [H1 H2].
  split; [exact H1 |]. split.
  - case_decide; lia.
  - intros Hlt. rewrite decide_False in H2 by lia.
    destruct (responses (emitted r)); [reflexivity | simpl in H2; lia].
Qed.

(** X4.  A broadcast step that returns an error has delivered no response:
    either an import failed, the error is the import error wrapped and
    nothing was published; or the publication failed, it is the last call of
    the step and its error is returned as it is, unwrapped. *)
Theorem stateStep_broadcast_failure pkg w e :
  SendState pkg = SendStateBroadcast ->
  outcome (stateStep p pkg w) = Err e ->
  responses (emitted (stateStep p pkg w)) = []
  /\ ((exists e',
          e = Errorf_w "unable to import local addresses: " e'
          /\ publishes (emitted (stateStep p pkg w)) = [])
      \/ exists parcel,
          OutboundPkg pkg = Some parcel
          /\ last (emitted (stateStep p pkg w))
             = Some (EvPublishTransaction (op_AnchorTx parcel) (Err e))).
Proof.
  intros Hs.
  destruct (stateStep_Broadcast pkg w Hs)
    as (imps & Himps & [[-> Hout]|(parcel & ans & Ho & -> & ->)]).
  - intros He. simpl. rewrite (import_only_responses _ Himps).
    split; [reflexivity |]. left.
    destruct Hout as [[e' He']|[msg Hmsg]]; [| congruence].
    rewrite He' in He. injection He as <-. exists e'.
    split; [reflexivity |].
    apply import_only_publishes. exact Himps.
  - destruct ans as [[]|e'|msg]; try discriminate. intros [= ->].
    change (EvExecuteSendState SendStateBroadcast :: imps ++ ?l)
      with ((EvExecuteSendState SendStateBroadcast :: imps) ++ l).
    rewrite responses_app. simpl. rewrite (import_only_responses _ Himps).
    split; [reflexivity |]. right. exists parcel. split; [exact Ho |].
    rewrite app_comm_cons. apply last_snoc.
Qed.
End Broadcast.

(** * Steps that end before any call *)

Section StepEdges.
Variable p : ChainPorter.

(** X5.  The first step takes an address parcel only: with any other
    parcel, or none, it returns the cast error and calls no collaborator;
    the state event is all it publishes. *)
Theorem stateStep_rejects_parcel pkg w :
  SendState pkg = SendStateVirtualCommitmentSelect ->
  (forall destAddrs, Parcel_ pkg <> Some (AddressParcel destAddrs)) ->
  emitted (stateStep p pkg w)
  = [EvExecuteSendState SendStateVirtualCommitmentSelect]
  /\ outcome (stateStep p pkg w)
     = Err (errorNew "unable to cast parcel to address parcel").
Proof.
  intros Hs Hp. unfold stateStep, publishSubscriberEvent. rewrite Hs.
  rewrite (bind_Ok _ _ _ tt) by reflexivity.
  rewrite prepend_emitted, prepend_outcome.
  destruct (Parcel_ pkg) as [[addrs| |]|]; [| split; reflexivity ..].
  exfalso. eapply Hp. reflexivity.
Qed.

(** X6.  The virtual-sign step reads the second output of the virtual
    packet before it signs: with a packet of fewer than two outputs, or
    without a packet, the step panics and [SignVirtualPacket] is not
    called. *)
Theorem stateStep_VirtualSign_bounds pkg w :
  SendState pkg = SendStateVirtualSign ->
  match VirtualPacket pkg with
  | Some vPacket => (length (tappsbt.Outputs vPacket) < 2)%nat
  | None => True
  end ->
  emitted (stateStep p pkg w) = [EvExecuteSendState SendStateVirtualSign]
  /\ exists msg, outcome (stateStep p pkg w) = Panic msg.
Proof.
  intros Hs Hv. unfold stateStep, publishSubscriberEvent. rewrite Hs.
  rewrite (bind_Ok _ _ _ tt) by reflexivity.
  rewrite prepend_emitted, prepend_outcome.
  destruct (VirtualPacket pkg) as [vPacket|]; [| split; [reflexivity | eauto]].
  cbn [deref]. rewrite (bind_Ok _ _ _ vPacket) by reflexivity.
  rewrite prepend_emitted, prepend_outcome. cbn [emitted emit ret app].
  assert (tappsbt.Outputs vPacket !! 1%nat = None) as Hnone
      by (apply lookup_ge_None_2; lia).
  unfold index. rewrite Hnone.
  rewrite (bind_Panic _ _ _ "index out of range: vPacket.Outputs[1]")
    by reflexivity.
  split; [reflexivity | eauto].
Qed.

(** X7.  [waitForTransferTxConf] reads the first output of the anchor
    transaction before it registers: with an anchor transaction without
    outputs it panics and makes no call.  After the registration, a nil
    event from the confirmation channel makes it panic as well. *)
Theorem waitForTransferTxConf_panics pkg w parcel :
  OutboundPkg pkg = Some parcel ->
  (wire.TxOut (op_AnchorTx parcel) = [] ->
   emitted (waitForTransferTxConf p pkg w) = []
   /\ exists msg, outcome (waitForTransferTxConf p pkg w) = Panic msg)
  /\ (forall txOut0 rest,
         wire.TxOut (op_AnchorTx parcel) = txOut0 :: rest ->
         registered p parcel txOut0 (trace w) = Ok tt ->
         received p parcel txOut0 (trace w) = Confirmed None ->
         exists msg, outcome (waitForTransferTxConf p pkg w) = Panic msg).
Proof.
  intros Ho. split.
  - intros Ht. unfold waitForTransferTxConf. rewrite Ho. cbn [deref].
    rewrite (bind_Ok _ _ _ parcel) by reflexivity.
    rewrite prepend_emitted, prepend_outcome, Ht.
    split; [reflexivity | eexists; reflexivity].
  - intros txOut0 rest Ht Hr Hc.
    destruct (waitForTransferTxConf_run p pkg w parcel txOut0 rest Ho Ht)
      as [-> _].
    rewrite Hr, Hc. eauto.
Qed.
End StepEdges.

(** * A courier that fails *)

Definition delivery_call (ev : Event) : Prop :=
  match ev with EvDeliverProof _ _ _ => True | _ => False end.

Section CourierFailure.
Variable p : ChainPorter.

Lemma deliver_only courier pkg out :
  only delivery_call (deliver courier pkg out).
Proof. unfold deliver. only_solve. Qed.

(** When every branch of the delivery returned nil, the courier has answered
    every delivery with nil or with a backoff error. *)
Lemma ParSlice_deliver_Ok courier pkg outs w :
  outcome (ParSlice outs (deliver courier pkg) w) = Ok tt ->
  Forall delivery_tolerated
    (delivery_answers (emitted (ParSlice outs (deliver courier pkg) w))).
Proof.
  revert w. induction outs as [|out outs IH]; intros w; [constructor |].
  destruct (deliver_run courier pkg out w) as [Hev Hout].
  destruct (outcome (deliver courier pkg out w)) as [[]|e|msg] eqn:Hd.
  - rewrite (ParSlice_cons_Ok _ _ _ _ Hd).
    rewrite prepend_emitted, prepend_outcome, delivery_answers_app.
    intros Hrest. apply Forall_app. split; [| apply IH, Hrest].
    rewrite Hev. destruct (delivery_of pkg out) as [[rcp ap]|]; [| constructor].
    rewrite delivery_answers_cons. constructor; [| constructor].
    destruct (DeliverProof courier (trace w) rcp ap) as [[]|e|msg];
      [left; reflexivity | | discriminate].
    destruct (errors_As_BackoffExecError e) eqn:Has; [| discriminate].
    right. eauto.
  - rewrite (ParSlice_cons_Err _ _ _ _ _ Hd). cbn [outcome].
    destruct (outcome (ParSlice outs _ _)); discriminate.
  - rewrite (ParSlice_cons_Panic _ _ _ _ _ Hd). discriminate.
Qed.

(** X8.  When the courier answers a delivery with an error that is not a
    backoff error, the receiver-proof-transfer step does not return nil, and
    it has called nothing but the courier: no passive proof file is fetched,
    [ConfirmParcelDelivery] is not called, and the parcel stays pending in
    the journal. *)
Theorem transferReceiverProof_delivery_failure pkg w courier parcel e :
  ProofCourier (cfg p) = Some courier ->
  OutboundPkg pkg = Some parcel ->
  Err e ∈ delivery_answers (emitted (transferReceiverProof p pkg w)) ->
  errors_As_BackoffExecError e = false ->
  is_Ok (outcome (transferReceiverProof p pkg w)) = false
  /\ Forall delivery_call (emitted (transferReceiverProof p pkg w))
  /\ ((forall msg, outcome (transferReceiverProof p pkg w) <> Panic msg) ->
      exists e',
        outcome (transferReceiverProof p pkg w)
        = Err (Errorf_w "error delivering proof(s): " e')).
Proof.
  intros Hc Ho.
  unfold transferReceiverProof, deliverProofs. rewrite Hc, Ho.
  cbn [deref].
  set (head := let* parcel0 := ret parcel in
               wrap (Errorf_w "error delivering proof(s): ")
                 (ParSlice (Outputs parcel0) (deliver courier pkg))).
  assert (emitted (head w)
          = emitted (ParSlice (Outputs parcel) (deliver courier pkg)
                       (after w (ret parcel w)))
          /\ outcome (head w)
             = match outcome (ParSlice (Outputs parcel) (deliver courier pkg)
                                (after w (ret parcel w))) with
               | Err e => Err (Errorf_w "error delivering proof(s): " e)
               | r => r
               end) as [Hhev Hhout].
  { unfold head. rewrite (bind_Ok _ _ _ parcel) by reflexivity.
    rewrite prepend_emitted, prepend_outcome, wrap_emitted, wrap_outcome.
    auto. }
  set (w1 := after w (ret parcel w)) in *.
  pose proof (only_ParSlice delivery_call (Outputs parcel)
                (deliver courier pkg) (deliver_only courier pkg) w1) as Honly.
  pose proof (ParSlice_deliver_Ok courier pkg (Outputs parcel) w1) as Htol.
  set (par := ParSlice (Outputs parcel) (deliver courier pkg) w1) in *.
  destruct (outcome par) as [[]|e0|msg] eqn:Hpar.
  - rewrite (bind_Ok _ _ _ tt Hhout), prepend_emitted.
    pose proof (confirmDelivery_only p pkg (after w (head w))) as Htail.
    apply confirm_only_deliveries in Htail as [_ Hta].
    rewrite delivery_answers_app, Hta, app_nil_r, Hhev.
    intros Hin Has. exfalso.
    specialize (Htol eq_refl).
    rewrite Forall_forall in Htol.
    destruct (Htol _ Hin) as [?|(e' & [= <-] & Has')]; congruence.
  - rewrite (bind_Err _ _ _ _ Hhout). cbn [emitted outcome]. rewrite Hhev.
    intros _ _. split; [reflexivity |]. split; [exact Honly | eauto].
  - rewrite (bind_Panic _ _ _ _ Hhout). cbn [emitted outcome]. rewrite Hhev.
    intros _ _. split; [reflexivity |]. split; [exact Honly |].
    intros Hnp. exfalso. eapply Hnp. reflexivity.
Qed.
End CourierFailure.

(** * From the sealing of the proofs to their delivery *)

Section FinalProofsFound.
Variable p : ChainPorter.

Lemma findFinalProof_found (fp : gmap N proof.AnnotatedProof) key k ap :
  fp !! k = Some ap ->
  proof.ScriptKey (proof.Locator_ ap) = key ->
  exists ap',
    findFinalProof fp key = Some ap'
    /\ proof.ScriptKey (proof.Locator_ ap') = key.
Proof.
  intros Hk Hkey. unfold findFinalProof.
  destruct (List.find _ (map_to_list fp)) as [[k' ap']|] eqn:Hfind.
  - apply find_some in Hfind as [_ Heq]. simpl in Heq.
    apply N.eqb_eq in Heq. simpl. eauto.
  - exfalso. apply elem_of_map_to_list, list_elem_of_In in Hk.
    eapply find_none in Hfind; [| exact Hk].
    simpl in Hfind. unfold IsEqual in Hfind. rewrite Hkey, N.eqb_refl in Hfind.
    discriminate.
Qed.

Lemma output_loop_keys parcel confEvent firstInput outs i fp0 w fp :
  outcome (foldMi i outs (storeOutputProof p parcel confEvent firstInput)
             fp0 w) = Ok fp ->
  (forall k, is_Some (fp0 !! k) -> is_Some (fp !! k))
  /\ forall out,
      out ∈ outs -> out_Type out <> tappsbt.TypePassiveAssetsOnly ->
      is_Some (fp !! ToSerialized (asset.PubKey (out_ScriptKey out))).
Proof.
  revert i fp0 w. induction outs as [|out outs IH]; intros i fp0 w.
  { intros [= <-]. split; [auto |]. intros out Hin. inversion Hin. }
  cbn [foldMi]. intros H.
  apply bind_Ok_inv in H as (fp1 & Hstep & Hrest & _).
  destruct (IH _ _ _ Hrest) as [Hmono Hkeys].
  assert ((forall k, is_Some (fp0 !! k) -> is_Some (fp1 !! k))
          /\ (out_Type out <> tappsbt.TypePassiveAssetsOnly ->
              is_Some
                (fp1 !! ToSerialized (asset.PubKey (out_ScriptKey out)))))
    as [Hmono1 Hkey1].
  { unfold storeOutputProof in Hstep. case_decide as Ht.
    - injection Hstep as <-. split; [auto | contradiction].
    - apply bind_Ok_inv in Hstep as (ap & _ & Hstep & _).
      apply bind_Ok_inv in Hstep as ([] & _ & Hstep & _).
      injection Hstep as <-. split.
      + intros k Hk. apply lookup_insert_is_Some.
        destruct (decide
                    (ToSerialized (asset.PubKey (out_ScriptKey out)) = k));
          auto.
      + intros _. rewrite lookup_insert_eq. eauto. }
  split; [auto |].
  intros o Hin Ht. apply elem_of_cons in Hin as [->|Hin]; auto.
Qed.

(** X9.  After a [storeProofs] that returns nil for a parcel with inputs,
    the [deliver] closure finds a final proof for every output that is not
    passive-only: [FinalProofs] holds, under the output's serialized script
    key, a proof file whose script key is the output's, so the
    receiver-proof-transfer step that follows does not fail with the
    missing-proof error for such an output. *)
Theorem storeProofs_final_proofs_found pkg w pkg' parcel out :
  outcome (storeProofs p pkg w) = Ok pkg' ->
  OutboundPkg pkg = Some parcel ->
  Inputs parcel <> [] ->
  out ∈ Outputs parcel ->
  out_Type out <> tappsbt.TypePassiveAssetsOnly ->
  OutboundPkg pkg' = Some parcel
  /\ lacks_proof pkg' out = false
  /\ exists ap,
      findFinalProof (FinalProofs pkg') (asset.PubKey (out_ScriptKey out))
      = Some ap
      /\ proof.ScriptKey (proof.Locator_ ap) = asset.PubKey (out_ScriptKey out).
Proof.
  intros H Ho Hne Hin Ht.
  apply storeProofs_Ok in H
    as (parcel' & blobs & sealed & fp & evs & Ho' & _ & _ & -> & Hcase).
  rewrite Ho in Ho'. injection Ho' as <-.
  destruct (Inputs parcel) as [|firstInput rest]; [contradiction |].
  destruct Hcase as (w1 & _ & Hloop).
  destruct (output_loop_keys _ _ _ _ _ _ _ _ Hloop) as [_ Hkeys].
  destruct (Hkeys out Hin Ht) as [ap Hap].
  apply output_loop in Hloop as [_ Hloop].
  destruct (Hloop _ _ Hap) as [Hempty|(out' & _ & _ & Hk & Hseal)].
  { rewrite lookup_empty in Hempty. discriminate. }
  destruct Hseal as (_ & _ & _ & _ & _ & _ & _ & _ & _ & Hloc).
  unfold ToSerialized in Hk.
  assert (proof.ScriptKey (proof.Locator_ ap) = asset.PubKey (out_ScriptKey out))
    as Hkey by (rewrite Hloc, Hk; reflexivity).
  destruct (findFinalProof_found fp _ _ _ Hap Hkey) as (ap' & Hfind & Hkey').
  cbn [with_SendState with_FinalProofs with_PassiveAssets OutboundPkg
         FinalProofs].
  split; [exact Ho |]. split; [| eauto].
  unfold lacks_proof. cbn [with_SendState with_FinalProofs FinalProofs].
  rewrite Hfind. rewrite bool_decide_eq_false_2 by discriminate.
  apply andb_false_r.
Qed.
End FinalProofsFound.

(** * The resumption of a pending parcel *)

Lemma only_bind_returns (P : Event -> Prop) {A B} (R : A -> Prop)
  (m : M A) (k : A -> M B) :
  only P m -> returns R m -> (forall a, R a -> only P (k a)) ->
  only P (bind m k).
Proof.
  intros Hm Hr Hk w. specialize (Hm w).
  destruct (outcome (m w)) as [a|e|msg] eqn:E.
  - rewrite (bind_Ok _ _ _ a E), prepend_emitted.
    apply Forall_app; split; [exact Hm |]. apply Hk. eapply Hr, E.
  - rewrite (bind_Err _ _ _ e E). exact Hm.
  - rewrite (bind_Panic _ _ _ msg E). exact Hm.
Qed.

Lemma only_foldMi_in (P : Event -> Prop) {A St} i (s : list A)
  (body : nat -> St -> A -> M St) acc :
  (forall i acc x, x ∈ s -> only P (body i acc x)) ->
  only P (foldMi i s body acc).
Proof.
  revert i acc. induction s as [|x s IH]; intros i acc H; simpl;
    [apply only_ret |].
  apply only_bind; [apply H; left |].
  intros acc'. apply IH. intros j acc0 y Hy. apply H. right. exact Hy.
Qed.

Section Resume.
Variable p : ChainPorter.
Variable parcel : OutboundParcel.

(** The annotated proof is located as the proof that [storeProofs] seals for
    an output of the parcel that is not passive-only. *)
Definition output_proof (ap : proof.AnnotatedProof) : Prop :=
  exists firstInput out,
    head (Inputs parcel) = Some firstInput
    /\ out ∈ Outputs parcel
    /\ out_Type out <> tappsbt.TypePassiveAssetsOnly
    /\ proof.Locator_ ap
       = {| proof.AssetID := in_ID firstInput;
            proof.ScriptKey := asset.PubKey (out_ScriptKey out) |}.

(** The calls of a parcel that is past its journal entry: none of the
    states before the broadcast, and the transaction published that of the
    parcel. *)
Definition resumed_call (ev : Event) : Prop :=
  match ev with
  | EvFundAddressSend _ _ | EvSignVirtualPacket _ _ | EvEstimateFee _ _
  | EvSignPassiveAssets _ _ _ | EvAnchorVirtualTransactions _ _
  | EvCurrentHeight _ | EvIsLocalKey _ _ | EvLogPendingParcel _ _
  | EvErrChan _ => False
  | EvExecuteSendState s =>
      (SendState_ord SendStateBroadcast <= SendState_ord s)%nat
  | EvPublishTransaction tx _ => tx = op_AnchorTx parcel
  | _ => True
  end.

(** Every proof imported into the archive is the proof of an output. *)
Definition imports_output_proofs (ev : Event) : Prop :=
  match ev with
  | EvImportProofs proofs _ => Forall output_proof proofs
  | _ => True
  end.

(** The packages of a resumed parcel. *)
Definition resumed_package (pkg : sendPackage) : Prop :=
  PassiveAssets pkg = []
  /\ OutboundPkg pkg = Some parcel
  /\ (SendState_ord SendStateBroadcast <= SendState_ord (SendState pkg))%nat.

Lemma sealOutputProof_locator confEvent firstInput idx out :
  returns
    (fun ap =>
       proof.Locator_ ap
       = {| proof.AssetID := in_ID firstInput;
            proof.ScriptKey := asset.PubKey (out_ScriptKey out) |})
    (sealOutputProof p parcel confEvent firstInput idx out).
Proof.
  intros w ap H. apply sealOutputProof_Ok in H.
  destruct H as (_ & _ & _ & _ & _ & _ & _ & _ & _ & Hloc). exact Hloc.
Qed.

Lemma storeProofs_resumed pkg :
  resumed_package pkg ->
  only (fun ev => archive_only ev /\ imports_output_proofs ev)
    (storeProofs p pkg).
Proof.
  intros (Hpa & Ho & _). unfold storeProofs. rewrite Hpa.
  cbn [mapM]. apply only_bind_ret. cbn [fmap list_fmap].
  apply only_bind.
  { apply only_wrap. unfold importProofs. apply only_call.
    intros r. simpl. split; [exact I | constructor]. }
  intros _. cbn [with_PassiveAssets OutboundPkg]. rewrite Ho. cbn [deref].
  apply only_bind_ret.
  destruct (Inputs parcel) as [|firstInput rest] eqn:Hin; [apply only_ret |].
  apply only_bind; [| intros fp; apply only_ret].
  apply only_foldMi_in. intros i acc out Hout.
  unfold storeOutputProof. case_decide as Ht; [apply only_ret |].
  eapply only_bind_returns; [| apply sealOutputProof_locator |].
  { eapply only_impl; [| apply sealOutputProof_only].
    intros []; simpl; tauto. }
  intros ap Hloc. apply only_bind; [| intros _; apply only_ret].
  apply only_wrap. unfold importProofs. apply only_call.
  intros r. simpl. split; [exact I |].
  constructor; [| constructor].
  exists firstInput, out. rewrite Hin. auto.
Qed.

Lemma made_in_resumed pkg calls :
  resumed_package pkg ->
  SendState pkg <> SendStateBroadcast ->
  SendState pkg <> SendStateStoreProofs ->
  Forall (made_in pkg) calls ->
  Forall (fun ev => resumed_call ev /\ imports_output_proofs ev) calls.
Proof.
  intros (_ & _ & Hord) Hb Hsp Hcalls.
  eapply Forall_impl; [exact Hcalls |].
  intros ev Hev.
  destruct ev; simpl in *; try tauto;
    try (rewrite Hev in Hord; simpl in Hord; lia).
Qed.

Lemma stateStep_resumed pkg w :
  resumed_package pkg ->
  (SendState_ord (SendState pkg) < SendState_ord SendStateComplete)%nat ->
  Forall (fun ev => resumed_call ev /\ imports_output_proofs ev)
    (emitted (stateStep p pkg w))
  /\ forall pkg', outcome (stateStep p pkg w) = Ok pkg' -> resumed_package pkg'.
Proof.
  intros Hinv Hlt. pose proof Hinv as (Hpa & Ho & Hord).
  destruct (SendState pkg) eqn:Hs; simpl in Hord, Hlt; try lia.
  - (* broadcast *)
    destruct (stateStep_Broadcast p pkg w Hs)
      as (imps & Himps & [[-> Hout]|(parcel' & ans & Ho' & -> & ->)]).
    + split.
      * constructor; [simpl; split; [lia | exact I] |].
        eapply Forall_impl; [exact Himps |].
        intros []; simpl; tauto.
      * intros pkg' Hok. destruct Hout as [[e He]|[msg Hmsg]]; congruence.
    + rewrite Ho in Ho'. injection Ho' as <-. split.
      * constructor; [simpl; split; [lia | exact I] |].
        apply Forall_app. split.
        { eapply Forall_impl; [exact Himps |]. intros []; simpl; tauto. }
        constructor; [simpl; auto |].
        destruct ans as [[]| |]; repeat constructor.
      * destruct ans as [[]| |]; try discriminate. intros pkg' [= <-].
        split; [exact Hpa |]. split; [exact Ho | simpl; lia].
  - (* confirmation wait *)
    split.
    + destruct (stateStep_calls p pkg w) as (calls & -> & Hcalls).
      rewrite Hs. constructor; [simpl; split; [lia | exact I] |].
      apply (made_in_resumed pkg); auto; rewrite Hs; discriminate.
    + unfold stateStep. rewrite Hs. intros pkg' H.
      apply bind_Ok_inv in H as ([] & _ & H & _).
      apply waitForTransferTxConf_Ok in H as [[ev ->]|[-> _]].
      * split; [exact Hpa |]. split; [exact Ho | simpl; lia].
      * exact Hinv.
  - (* store proofs *)
    split.
    + unfold stateStep, publishSubscriberEvent. rewrite Hs.
      rewrite (bind_Ok _ _ _ tt) by reflexivity. rewrite prepend_emitted.
      cbn [emitted emit app].
      constructor; [simpl; split; [lia | exact I] |].
      eapply Forall_impl; [apply (storeProofs_resumed pkg Hinv) |].
      intros ev [Ha Hi]. split; [| exact Hi].
      destruct ev; simpl in *; tauto.
    + unfold stateStep. rewrite Hs. intros pkg' H.
      apply bind_Ok_inv in H as ([] & _ & H & _).
      apply storeProofs_Ok in H
        as (parcel' & blobs & sealed & fp & evs & Ho' & Hall & _ & -> & _).
      rewrite Hpa in Hall. inversion Hall; subst.
      split; [reflexivity |]. split; [exact Ho | simpl; lia].
  - (* receiver proof transfer *)
    split.
    + destruct (stateStep_calls p pkg w) as (calls & -> & Hcalls).
      rewrite Hs. constructor; [simpl; split; [lia | exact I] |].
      apply (made_in_resumed pkg); auto; rewrite Hs; discriminate.
    + unfold stateStep. rewrite Hs. intros pkg' H.
      apply bind_Ok_inv in H as ([] & _ & H & _).
      unfold transferReceiverProof in H.
      apply bind_Ok_inv in H as ([] & _ & H & _).
      apply confirmDelivery_Ok in H as [-> _].
      split; [exact Hpa |]. split; [exact Ho | simpl; lia].
Qed.

Lemma restartSendPkg_resumed : resumed_package (restartSendPkg parcel).
Proof. split; [reflexivity |]. split; [reflexivity | simpl; lia]. Qed.

Lemma storeProofs_no_passive_assets pkg w :
  PassiveAssets pkg = [] ->
  exists rest,
    emitted (storeProofs p pkg w)
    = EvImportProofs [] (ImportProofs (AssetProofs (cfg p)) (trace w) [])
        :: rest.
Proof.
  intros Hpa. unfold storeProofs. rewrite Hpa. cbn [mapM].
  rewrite (bind_Ok _ _ _ []) by reflexivity.
  rewrite prepend_emitted. cbn [emitted ret app fmap list_fmap].
  match goal with
  | |- context [emitted (bind ?m ?k ?w0)] =>
      destruct (bind_emitted_prefix m k w0) as [rest ->]
  end.
  rewrite wrap_emitted. unfold importProofs. rewrite call_emitted.
  cbn [after trace ret emitted]. rewrite app_nil_r. eauto.
Qed.

Lemma resumePendingParcel_runs w :
  exists r evs,
    resumePendingParcel p parcel w = Some r
    /\ Forall (fun ev => resumed_call ev /\ imports_output_proofs ev) evs
    /\ emitted r
       = evs ++ match outcome r with Err e => [EvErrChan e] | _ => [] end
    /\ forall pkg', outcome r = Ok pkg' -> resumed_package pkg'.
Proof.
  destruct (advanceState_returns p (restartSendPkg parcel) w) as [r Hr].
  destruct (advanceState_loop_invariant p resumed_package
              (fun ev => resumed_call ev /\ imports_output_proofs ev)
              stateStep_resumed 10%nat (restartSendPkg parcel) w r
              restartSendPkg_resumed Hr)
    as [(evs & Hevs & Hr') Hfin].
  exists r, evs. auto.
Qed.

(** The first turn of the driver for the skeleton package: the broadcast
    step, and the rest of the run after it. *)
Lemma resumePendingParcel_first_step w r :
  resumePendingParcel p parcel w = Some r ->
  quitClosed p w = false ->
  match outcome (stateStep p (restartSendPkg parcel) w) with
  | Ok _ =>
      exists rest,
        emitted r = emitted (stateStep p (restartSendPkg parcel) w) ++ rest
  | Err e =>
      r = mkRun (emitted (stateStep p (restartSendPkg parcel) w)
                   ++ [EvErrChan e])
            (quitAfter (stateStep p (restartSendPkg parcel) w)) (Err e)
  | Panic msg =>
      r = mkRun (emitted (stateStep p (restartSendPkg parcel) w))
            (quitAfter (stateStep p (restartSendPkg parcel) w)) (Panic msg)
  end.
Proof.
  unfold resumePendingParcel, advanceState.
  rewrite advanceState_loop_unfold.
  rewrite decide_True by (simpl; lia).
  intros Hr Hq. rewrite Hq in Hr.
  destruct (outcome (stateStep p (restartSendPkg parcel) w))
    as [pkg1|e|msg] eqn:Hstep.
  - destruct (advanceState_loop p 9 pkg1
                (after w (stateStep p (restartSendPkg parcel) w)))
      as [r2|] eqn:Hr2; [| discriminate].
    simpl in Hr. injection Hr as <-. rewrite prepend_emitted. eauto.
  - injection Hr as <-. reflexivity.
  - injection Hr as <-. reflexivity.
Qed.

(** X10.  A run of [resumePendingParcel] that returns (the error channel
    takes what is sent to it) starts over from the broadcast.  With the
    quit channel open, the first thing it does is the step of the state
    [SendStateBroadcast]: the imports of the anchor outputs into the wallet
    and then, unless an import failed, the publication of the anchor
    transaction of the parcel read from the journal; a failed import ends
    the run with that error, wrapped.  The run executes no state before
    [SendStateBroadcast], so the parcel is not funded, signed, anchored or
    written to the journal again and the key ring is not asked, and every
    transaction it publishes is the anchor transaction of that parcel. *)
Theorem resumePendingParcel_starts_at_broadcast w r :
  resumePendingParcel p parcel w = Some r ->
  (quitClosed p w = false ->
   exists imps rest,
     Forall import_only imps
     /\ emitted r = EvExecuteSendState SendStateBroadcast :: imps ++ rest
     /\ ((exists e,
             outcome r
             = Err (Errorf_w "unable to import local addresses: " e)
             /\ rest
                = [EvErrChan
                     (Errorf_w "unable to import local addresses: " e)])
         \/ (exists msg, outcome r = Panic msg /\ rest = [])
         \/ exists ans rest',
             rest = EvPublishTransaction (op_AnchorTx parcel) ans :: rest'
             /\ forall e, ans = Err e ->
                          outcome r = Err e /\ rest' = [EvErrChan e]))
  /\ exists evs,
      Forall resumed_call evs
      /\ emitted r
         = evs ++ match outcome r with Err e => [EvErrChan e] | _ => [] end.
Proof.
  intros Hr. split.
  - intros Hq. pose proof (resumePendingParcel_first_step w r Hr Hq) as Hfirst.
    destruct (stateStep_Broadcast p (restartSendPkg parcel) w eq_refl)
      as (imps & Himps & [[Hem Hout]|(parcel' & ans & Ho & Hem & Hout)]).
    + exists imps. rewrite Hem in Hfirst.
      destruct Hout as [[e He]|[msg Hmsg]].
      * rewrite He in Hfirst. subst r.
        exists [EvErrChan (Errorf_w "unable to import local addresses: " e)].
        split; [exact Himps |]. split; [reflexivity |]. left. eauto.
      * rewrite Hmsg in Hfirst. subst r. exists [].
        split; [exact Himps |].
        split; [simpl; rewrite app_nil_r; reflexivity |]. right. left. eauto.
    + injection Ho as <-. rewrite Hem, Hout in Hfirst. exists imps.
      destruct ans as [[]|e|msg].
      * destruct Hfirst as [rest Hfirst]. eexists.
        split; [exact Himps |]. split.
        { rewrite Hfirst. simpl. rewrite <- app_assoc. reflexivity. }
        right. right. eexists _, _. split; [reflexivity | discriminate].
      * subst r. eexists. split; [exact Himps |]. split.
        { simpl. rewrite <- app_assoc. reflexivity. }
        right. right. eexists _, _. split; [reflexivity |].
        intros e' [= <-]. auto.
      * subst r. eexists. split; [exact Himps |]. split.
        { reflexivity. }
        right. right. eexists _, _. split; [reflexivity | discriminate].
  - destruct (resumePendingParcel_runs w) as (r' & evs & Hr' & Hevs & Hem & _).
    rewrite Hr in Hr'. injection Hr' as <-.
    exists evs. split; [| exact Hem].
    eapply Forall_impl; [exact Hevs |]. intros ev [H _]. exact H.
Qed.

(** X11.  The skeleton package of [resumePendingParcel] has no passive
    assets, whatever the parcel holds, and it has none when the run returns.
    For such a package the first call of [storeProofs] is an [ImportProofs]
    of no proof at all: the proofs of the passive assets are not sealed
    again.  Every proof imported into the archive during the run is located
    as the proof of an output of the parcel that is not passive-only, under
    the asset of the first input and the script key of the output. *)
Theorem resumePendingParcel_seals_outputs_only w :
  exists r,
    resumePendingParcel p parcel w = Some r
    /\ Forall imports_output_proofs (emitted r)
    /\ PassiveAssets (restartSendPkg parcel) = []
    /\ (forall pkg', outcome r = Ok pkg' -> PassiveAssets pkg' = [])
    /\ (forall pkg w',
           PassiveAssets pkg = [] ->
           exists rest,
             emitted (storeProofs p pkg w')
             = EvImportProofs []
                 (ImportProofs (AssetProofs (cfg p)) (trace w') [])
                 :: rest).
Proof.
  destruct (resumePendingParcel_runs w) as (r & evs & Hr & Hevs & Hem & Hfin).
  exists r. split; [exact Hr |]. split; [| split; [reflexivity | split]].
  - rewrite Hem. apply Forall_app. split.
    + eapply Forall_impl; [exact Hevs |]. intros ev [_ H]. exact H.
    + destruct (outcome r); repeat constructor.
  - intros pkg' Hok. apply Hfin in Hok as [Hpa _]. exact Hpa.
  - intros pkg w' Hpa. apply storeProofs_no_passive_assets, Hpa.
Qed.
End Resume.

(** * The anchor outputs imported before the broadcast *)

Section LocalAnchors.
Variable p : ChainPorter.

Lemma importLocalAddress_Ok parcel out w :
  ScriptKeyLocal out = true ->
  outcome (importLocalAddress p parcel out w) = Ok tt ->
  exists key,
    anchor_key p parcel out key
    /\ emitted (importLocalAddress p parcel out w)
       = [EvImportTaprootOutput key
            (ImportTaprootOutput (cfg_Wallet (cfg p)) (trace w) key)]
    /\ import_tolerated (ImportTaprootOutput (cfg_Wallet (cfg p)) (trace w) key).
Proof.
  intros Hl H.
  assert (exists key, anchor_key p parcel out key) as [key Hkey].
  { unfold importLocalAddress in H. rewrite Hl in H. cbn [negb] in H.
    apply bind_Ok_inv in H as (anchorOutput & Hidx & H & _).
    apply index_Ok_inv in Hidx as [Hidx _].
    apply bind_Ok_inv in H as (info & Hinfo & H & _).
    apply lift_Ok_inv in Hinfo.
    apply bind_Ok_inv in H as (key & Hk & _).
    apply lift_Ok_inv in Hk.
    exists key, anchorOutput, info. auto. }
  exists key. split; [exact Hkey |].
  destruct (importLocalAddress_run p parcel out key w Hl Hkey) as [Hev Hout].
  split; [exact Hev |].
  rewrite Hout in H.
  destruct (ImportTaprootOutput _ _ _) as [[]|e|msg];
    [left; reflexivity | | discriminate].
  destruct (strings_Contains (Error e) "already exists") eqn:Hc;
    [| discriminate].
  right. eauto.
Qed.

Lemma import_loop_Ok parcel outs w :
  outcome (forM outs (importLocalAddress p parcel) w) = Ok tt ->
  Forall2
    (fun out imp => anchor_key p parcel out imp.1 /\ import_tolerated imp.2)
    (List.filter ScriptKeyLocal outs)
    (imports (emitted (forM outs (importLocalAddress p parcel) w))).
Proof.
  revert w. induction outs as [|out outs IH]; intros w; [constructor |].
  cbn [forM List.filter]. intros H.
  apply bind_Ok_inv in H as ([] & Hout & Hrest & -> & _).
  rewrite imports_app.
  destruct (ScriptKeyLocal out) eqn:Hl.
  - destruct (importLocalAddress_Ok parcel out w Hl Hout)
      as (key & Hkey & -> & Htol).
    rewrite imports_cons. cbn [imports omap list_omap app].
    constructor; [split; assumption | apply IH, Hrest].
  - rewrite importLocalAddress_skip by exact Hl. cbn [emitted ret imports omap
                                                       list_omap app].
    apply IH. rewrite importLocalAddress_skip in Hrest by exact Hl.
    exact Hrest.
Qed.

(** X12.  An [importLocalAddresses] that returns nil has asked the wallet for
    one import per output marked [ScriptKeyLocal], in the order of the
    outputs and of nothing else: the key imported for an output is the
    taproot key of the anchor output that the output's anchor outpoint
    indexes in the anchor transaction, and each import was answered with nil
    or with "already exists". *)
Theorem importLocalAddresses_imports_local_outputs parcel w :
  outcome (importLocalAddresses p (Some parcel) w) = Ok tt ->
  Forall2
    (fun out imp => anchor_key p parcel out imp.1 /\ import_tolerated imp.2)
    (List.filter ScriptKeyLocal (Outputs parcel))
    (imports (emitted (importLocalAddresses p (Some parcel) w))).
Proof.
  rewrite importLocalAddresses_Some, prepend_outcome, prepend_emitted.
  cbn [app]. apply import_loop_Ok.
Qed.

(** X13.  For an output marked [ScriptKeyLocal] whose anchor output is not
    there, [importLocalAddresses] asks the wallet nothing: an anchor index
    beyond the outputs of the anchor transaction makes it panic, and an
    anchor output whose script is no witness program, or whose program is no
    schnorr key, makes it return that error as it is. *)
Theorem importLocalAddress_malformed_anchor parcel out w :
  ScriptKeyLocal out = true ->
  (wire.TxOut (op_AnchorTx parcel)
     !! Z.to_nat (wire.Index (an_OutPoint (out_Anchor out))) = None ->
   emitted (importLocalAddress p parcel out w) = []
   /\ exists msg, outcome (importLocalAddress p parcel out w) = Panic msg)
  /\ (forall anchorOutput e,
         wire.TxOut (op_AnchorTx parcel)
           !! Z.to_nat (wire.Index (an_OutPoint (out_Anchor out)))
         = Some anchorOutput ->
         ExtractWitnessProgramInfo (lib p) (wire.PkScript anchorOutput)
         = Err e ->
         emitted (importLocalAddress p parcel out w) = []
         /\ outcome (importLocalAddress p parcel out w) = Err e)
  /\ (forall anchorOutput info e,
         wire.TxOut (op_AnchorTx parcel)
           !! Z.to_nat (wire.Index (an_OutPoint (out_Anchor out)))
         = Some anchorOutput ->
         ExtractWitnessProgramInfo (lib p) (wire.PkScript anchorOutput)
         = Ok info ->
         schnorr_ParsePubKey (lib p) info.2 = Err e ->
         emitted (importLocalAddress p parcel out w) = []
         /\ outcome (importLocalAddress p parcel out w) = Err e).
Proof.
  intros Hl. unfold importLocalAddress. rewrite Hl. cbn [negb].
  run_unfold. split; [| split].
  - intros ->. run_simpl. split; [reflexivity | eauto].
  - intros anchorOutput e -> . run_simpl. intros ->. run_simpl.
    split; reflexivity.
  - intros anchorOutput info e ->. run_simpl. intros ->. run_simpl.
    intros ->. run_simpl. split; reflexivity.
Qed.
End LocalAnchors.

(** * The confirmation that is written to the journal *)

Lemma int32_narrows x :
  is_uint32 x ->
  int32 x = if decide (x < 2 ^ 31) then x else x - 2 ^ 32.
Proof.
  unfold is_uint32, int32, wrap_signed. intros Hx.
  change (32 - 1) with 31.
  case_decide as Hlt.
  - rewrite Z.mod_small by lia. lia.
  - assert ((x + 2 ^ 31) mod 2 ^ 32 = x + 2 ^ 31 - 2 ^ 32) as ->; [| lia].
    symmetry. apply (Z.mod_unique _ _ 1); lia.
Qed.

Section Confirmation.
Variable p : ChainPorter.

Lemma confirmDelivery_event pkg w pkg' :
  outcome (confirmDelivery p pkg w) = Ok pkg' ->
  exists parcel conf blockHash blobs ev,
    OutboundPkg pkg = Some parcel
    /\ TransferTxConfEvent pkg = Some conf
    /\ chainntnfs.BlockHash conf = Some blockHash
    /\ length blobs = length (op_PassiveAssets parcel)
    /\ emitted (confirmDelivery p pkg w)
       = passiveFetches (op_PassiveAssets parcel) blobs
           ++ [EvConfirmParcelDelivery ev (Ok tt)]
    /\ ev = {| AnchorTXID := TxHash (lib p) (op_AnchorTx parcel);
               ace_BlockHash := blockHash;
               ace_BlockHeight := int32 (chainntnfs.BlockHeight conf);
               ace_TxIndex := int32 (chainntnfs.TxIndex conf);
               ace_FinalProofs := FinalProofs pkg;
               PassiveAssetProofFiles :=
                 passiveFiles p (op_PassiveAssets parcel) blobs ∅ |}.
Proof.
  unfold confirmDelivery. intros H.
  apply bind_Ok_inv in H as (parcel & Hp & H & -> & _).
  apply deref_Ok_inv in Hp as [Hp ->].
  apply bind_Ok_inv in H as (files & Hf & H & -> & _).
  apply loadPassive_loop in Hf as (blobs & Hlen & -> & ->).
  apply bind_Ok_inv in H as (confEvent & Hc & H & -> & _).
  apply deref_Ok_inv in Hc as [Hc ->].
  apply bind_Ok_inv in H as (blockHash & Hb & H & -> & _).
  apply deref_Ok_inv in Hb as [Hb ->].
  apply bind_Ok_inv in H as ([] & Hconf & H & -> & _).
  apply wrap_Ok_inv in Hconf as [Hconf ->].
  apply call_Ok_inv in Hconf as [_ ->].
  eexists parcel, confEvent, blockHash, blobs, _.
  split; [exact Hp |]. split; [exact Hc |]. split; [exact Hb |].
  split; [exact Hlen |].
  split; [cbn [emitted ret app]; rewrite ?app_nil_r; reflexivity |].
  reflexivity.
Qed.

Lemma transferReceiverProof_event pkg w pkg' :
  outcome (transferReceiverProof p pkg w) = Ok pkg' ->
  exists parcel conf blockHash blobs ev evs,
    OutboundPkg pkg = Some parcel
    /\ TransferTxConfEvent pkg = Some conf
    /\ chainntnfs.BlockHash conf = Some blockHash
    /\ length blobs = length (op_PassiveAssets parcel)
    /\ emitted (transferReceiverProof p pkg w)
       = evs ++ passiveFetches (op_PassiveAssets parcel) blobs
           ++ [EvConfirmParcelDelivery ev (Ok tt)]
    /\ ev = {| AnchorTXID := TxHash (lib p) (op_AnchorTx parcel);
               ace_BlockHash := blockHash;
               ace_BlockHeight := int32 (chainntnfs.BlockHeight conf);
               ace_TxIndex := int32 (chainntnfs.TxIndex conf);
               ace_FinalProofs := FinalProofs pkg;
               PassiveAssetProofFiles :=
                 passiveFiles p (op_PassiveAssets parcel) blobs ∅ |}.
Proof.
  unfold transferReceiverProof. intros H.
  apply bind_Ok_inv in H as ([] & _ & H & -> & _).
  apply confirmDelivery_event in H
    as (parcel & conf & blockHash & blobs & ev & Ho & Hc & Hb & Hlen & -> & Hev).
  exists parcel, conf, blockHash, blobs, ev. eauto 10.
Qed.

(** X14.  The event that a receiver-proof-transfer step that returns nil has
    passed to [ConfirmParcelDelivery], as its last call, carries the hash of
    the anchor transaction and the block hash of the confirmation; the block
    height and the transaction index are narrowed from unsigned to signed 32
    bits, so they are those of the confirmation below 2^31 and negative, by
    2^32 less, from 2^31 on. *)
Theorem transferReceiverProof_confirmation_event pkg w pkg' conf :
  outcome (transferReceiverProof p pkg w) = Ok pkg' ->
  TransferTxConfEvent pkg = Some conf ->
  is_uint32 (chainntnfs.BlockHeight conf) ->
  is_uint32 (chainntnfs.TxIndex conf) ->
  exists parcel ev,
    OutboundPkg pkg = Some parcel
    /\ last (emitted (transferReceiverProof p pkg w))
       = Some (EvConfirmParcelDelivery ev (Ok tt))
    /\ AnchorTXID ev = TxHash (lib p) (op_AnchorTx parcel)
    /\ chainntnfs.BlockHash conf = Some (ace_BlockHash ev)
    /\ ace_BlockHeight ev
       = (if decide (chainntnfs.BlockHeight conf < 2 ^ 31)
          then chainntnfs.BlockHeight conf
          else chainntnfs.BlockHeight conf - 2 ^ 32)
    /\ ace_TxIndex ev
       = (if decide (chainntnfs.TxIndex conf < 2 ^ 31)
          then chainntnfs.TxIndex conf
          else chainntnfs.TxIndex conf - 2 ^ 32).
Proof.
  intros H Hc Hh Hi.
  apply transferReceiverProof_event in H
    as (parcel & conf' & blockHash & blobs & ev & evs
        & Ho & Hc' & Hb & _ & -> & ->).
  rewrite Hc in Hc'. injection Hc' as <-.
  eexists parcel, _. split; [exact Ho |].
  split; [rewrite !app_assoc; apply last_snoc |].
  cbn [AnchorTXID ace_BlockHash ace_BlockHeight ace_TxIndex].
  split; [reflexivity |]. split; [exact Hb |].
  split; apply int32_narrows; assumption.
Qed.

Lemma passiveFiles_lookup (pairs : list (PassiveAssetReAnchor * Blob))
  (files : gmap N Blob) pa blob :
  (pa, blob) ∈ pairs ->
  exists pa' blob',
    (pa', blob') ∈ pairs
    /\ Locator_Hash (lib p) (passiveLocator pa')
       = Locator_Hash (lib p) (passiveLocator pa)
    /\ foldl
         (fun m pb => <[Locator_Hash (lib p) (passiveLocator pb.1) := pb.2]> m)
         files pairs
       !! Locator_Hash (lib p) (passiveLocator pa)
       = Some blob'.
Proof.
  induction pairs as [|[pa1 blob1] pairs IH] using rev_ind; intros Hin.
  { inversion Hin. }
  rewrite foldl_app. cbn [foldl fst snd].
  destruct (decide (Locator_Hash (lib p) (passiveLocator pa1)
                    = Locator_Hash (lib p) (passiveLocator pa))) as [Heq|Hne].
  - exists pa1, blob1. split; [apply elem_of_app; right; left |].
    split; [exact Heq |]. rewrite Heq. apply lookup_insert_eq.
  - apply elem_of_app in Hin as [Hin|Hin].
    + destruct (IH Hin) as (pa' & blob' & Hin' & Hh & Hl).
      exists pa', blob'. split; [apply elem_of_app; left; exact Hin' |].
      split; [exact Hh |]. rewrite lookup_insert_ne by exact Hne. exact Hl.
    + apply list_elem_of_singleton in Hin. injection Hin as -> ->.
      contradiction.
Qed.

(** X15.  The passive proof files that a receiver-proof-transfer step that
    returns nil has passed to [ConfirmParcelDelivery] hold, for every passive
    asset of the outbound parcel, under the hash of the asset's locator, a
    file that the archive returned in this step for a passive asset of the
    parcel with that locator hash. *)
Theorem transferReceiverProof_passive_files pkg w pkg' parcel pa :
  outcome (transferReceiverProof p pkg w) = Ok pkg' ->
  OutboundPkg pkg = Some parcel ->
  pa ∈ op_PassiveAssets parcel ->
  exists ev pa' blob,
    last (emitted (transferReceiverProof p pkg w))
    = Some (EvConfirmParcelDelivery ev (Ok tt))
    /\ pa' ∈ op_PassiveAssets parcel
    /\ Locator_Hash (lib p) (passiveLocator pa')
       = Locator_Hash (lib p) (passiveLocator pa)
    /\ EvFetchProof (passiveLocator pa') (Ok blob)
       ∈ emitted (transferReceiverProof p pkg w)
    /\ PassiveAssetProofFiles ev !! Locator_Hash (lib p) (passiveLocator pa)
       = Some blob.
Proof.
  intros H Ho Hin.
  apply transferReceiverProof_event in H
    as (parcel' & conf & blockHash & blobs & ev & evs
        & Ho' & _ & _ & Hlen & -> & ->).
  rewrite Ho in Ho'. injection Ho' as <-.
  assert (exists blob, (pa, blob) ∈ zip (op_PassiveAssets parcel) blobs)
    as [blob Hpair].
  { apply list_elem_of_lookup in Hin as [i Hi].
    destruct (lookup_lt_is_Some_2 blobs i) as [blob Hb].
    { rewrite Hlen. eapply lookup_lt_Some, Hi. }
    exists blob. apply list_elem_of_lookup. exists i.
    rewrite lookup_zip_with, Hi. simpl. rewrite Hb. reflexivity. }
  destruct (passiveFiles_lookup _ ∅ _ _ Hpair)
    as (pa' & blob' & Hin' & Hh & Hl).
  eexists _, pa', blob'.
  split; [rewrite !app_assoc; apply last_snoc |].
  split; [eapply elem_of_zip_l, Hin' |].
  split; [exact Hh |].
  split; [| exact Hl].
  rewrite !elem_of_app. right. left.
  unfold passiveFetches.
  apply list_elem_of_lookup in Hin' as [i Hi].
  apply list_elem_of_lookup. exists i.
  rewrite lookup_zip_with in Hi. rewrite lookup_zip_with.
  destruct (op_PassiveAssets parcel !! i) as [x|]; [| discriminate].
  simpl in *. destruct (blobs !! i) as [y|]; [| discriminate].
  simpl in *. injection Hi as -> ->. reflexivity.
Qed.
End Confirmation.

(** * The confirmation *)

Section Confirmed.
Variable p : ChainPorter.

(** X16.  [waitForTransferTxConf] registers once, for one confirmation of
    the anchor transaction by its hash and the script of its first output,
    from the height hint of the parcel and with the block included.  When
    the confirmation channel delivers an event, it makes no other call and
    returns the package with that event as [TransferTxConfEvent], in the
    state [SendStateStoreProofs], and otherwise as it was. *)
Theorem waitForTransferTxConf_confirmed pkg w parcel txOut0 rest ev :
  OutboundPkg pkg = Some parcel ->
  wire.TxOut (op_AnchorTx parcel) = txOut0 :: rest ->
  registered p parcel txOut0 (trace w) = Ok tt ->
  received p parcel txOut0 (trace w) = Confirmed (Some ev) ->
  emitted (waitForTransferTxConf p pkg w)
  = [EvRegisterConfirmationsNtfn (TxHash (lib p) (op_AnchorTx parcel))
       (wire.PkScript txOut0) 1 (AnchorTxHeightHint parcel) true (Ok tt);
     EvConfSelect (Confirmed (Some ev))]
  /\ outcome (waitForTransferTxConf p pkg w)
     = Ok (with_SendState SendStateStoreProofs
             (with_TransferTxConfEvent ev pkg))
  /\ quitAfter (waitForTransferTxConf p pkg w) = quit w.
Proof.
  intros Ho Ht Hr Hc. unfold received in Hc. rewrite Hr in Hc.
  unfold registered in Hr.
  unfold waitForTransferTxConf. rewrite Ho.
  run_unfold. run_simpl. rewrite Ht. run_simpl.
  rewrite Hr. run_simpl. rewrite Hc. run_simpl.
  auto.
Qed.
End Confirmed.

(** * A journal that cannot be written *)

(** Nothing was written to the journal. *)
Definition not_journaled (ev : Event) : Prop :=
  match ev with
  | EvLogPendingParcel _ (Ok _) => False
  | _ => True
  end.

Section JournalFailure.
Variable p : ChainPorter.

Lemma stampScriptKeyLocal_all outs w :
  is_Ok (outcome (mapM outs (stampScriptKeyLocal p) w)) = true
  /\ Forall not_journaled (emitted (mapM outs (stampScriptKeyLocal p) w)).
Proof.
  revert w. induction outs as [|out outs IH]; intros w; [split; [reflexivity | constructor] |].
  cbn [mapM].
  assert (exists out',
             outcome (stampScriptKeyLocal p out w) = Ok out'
             /\ Forall not_journaled (emitted (stampScriptKeyLocal p out w)))
    as (out' & Hout & Hev).
  { unfold stampScriptKeyLocal.
    destruct (asset.TweakedScriptKey_ (out_ScriptKey out)); run_unfold;
      run_simpl; eexists; split; try reflexivity; repeat constructor. }
  rewrite (bind_Ok _ _ _ out' Hout), prepend_outcome, prepend_emitted.
  destruct (IH (after w (stampScriptKeyLocal p out w))) as [IHo IHe].
  destruct (outcome (mapM outs _ _)) as [outs'| |] eqn:Hrest; try discriminate.
  rewrite (bind_Ok _ _ _ outs' Hrest), prepend_outcome, prepend_emitted.
  split; [reflexivity |].
  apply Forall_app. split; [exact Hev |].
  apply Forall_app. split; [exact IHe | constructor].
Qed.

(** X22.  A log-commit step that returns an error has written nothing to the
    journal.  The error of the chain bridge's height and the error of the
    journal are returned as text only, under the step's prefix: the cause is
    no longer in the chain of the error, so that [errors.As] does not find a
    backoff error there; the error of the preparation for storage is
    wrapped and keeps its cause. *)
Theorem stateStep_LogCommit_failure pkg w e :
  SendState pkg = SendStateLogCommit ->
  outcome (stateStep p pkg w) = Err e ->
  Forall not_journaled (emitted (stateStep p pkg w))
  /\ ((exists e',
          e = Errorf_w "unable to prepare parcel for storage: " e')
      \/ (errors_As_BackoffExecError e = false
          /\ exists e',
              (last (emitted (stateStep p pkg w))
               = Some (EvCurrentHeight (Err e'))
               /\ e = errorNew ("unable to get current height: "
                                +:+ Error e'))
              \/ exists parcel,
                  last (emitted (stateStep p pkg w))
                  = Some (EvLogPendingParcel parcel (Err e'))
                  /\ e = errorNew ("unable to write send pkg to disk: "
                                   +:+ Error e'))).
Proof.
  intros Hs. unfold stateStep, publishSubscriberEvent. rewrite Hs.
  rewrite (bind_Ok _ _ _ tt) by reflexivity.
  rewrite prepend_emitted, prepend_outcome. cbn [emitted emit app].
  set (w1 := after w (emit (EvExecuteSendState SendStateLogCommit) w)).
  set (height := wrap (Errorf_v "unable to get current height: ")
                   (call (CurrentHeight (cfg_ChainBridge (cfg p)))
                      EvCurrentHeight)).
  assert (emitted (height w1)
          = [EvCurrentHeight (CurrentHeight (cfg_ChainBridge (cfg p))
                                (trace w1))]) as Hhev
      by (unfold height; rewrite wrap_emitted; reflexivity).
  assert (outcome (height w1)
          = match CurrentHeight (cfg_ChainBridge (cfg p)) (trace w1) with
            | Err e0 => Err (Errorf_v "unable to get current height: " e0)
            | r => r
            end) as Hhout
      by (unfold height; rewrite wrap_outcome; reflexivity).
  destruct (CurrentHeight (cfg_ChainBridge (cfg p)) (trace w1))
    as [h|e0|msg] eqn:Hh.
  - rewrite (bind_Ok _ _ _ h Hhout), prepend_emitted, prepend_outcome, Hhev.
    set (w2 := after w1 (height w1)).
    destruct (prepareForStorage (lib p) pkg h) as [parcel|e1|msg] eqn:Hprep.
    + rewrite (bind_Ok _ _ _ parcel)
        by (rewrite wrap_outcome; reflexivity).
      rewrite prepend_emitted, prepend_outcome, wrap_emitted.
      cbn [lift emitted app].
      match goal with
      | |- context [bind (mapM ?outs ?f) ?k ?w3] =>
          destruct (stampScriptKeyLocal_all outs w3) as [Hso Hse];
          destruct (outcome (mapM outs f w3)) as [outs'| |] eqn:Hstamp;
          try discriminate;
          rewrite (bind_Ok _ _ _ outs' Hstamp)
      end.
      rewrite prepend_emitted, prepend_outcome.
      match goal with
      | |- context [bind (wrap ?f (call ?a ?ev)) ?k ?w4] =>
          set (w4' := w4);
          assert (emitted (wrap f (call a ev) w4') = [ev (a (trace w4'))])
            as Hlev by (rewrite wrap_emitted; reflexivity);
          assert (outcome (wrap f (call a ev) w4')
                  = match a (trace w4') with
                    | Err e0 => Err (f e0)
                    | r => r
                    end) as Hlout by (rewrite wrap_outcome; reflexivity);
          destruct (a (trace w4')) as [[]|e2|msg] eqn:Hlog
      end.
      * rewrite (bind_Ok _ _ _ tt Hlout). rewrite prepend_outcome.
        discriminate.
      * rewrite (bind_Err _ _ _ _ Hlout). cbn [emitted outcome].
        rewrite Hlev. intros [= <-].
        split.
        { constructor; [exact I |]. constructor; [exact I |].
          apply Forall_app. split; [exact Hse | repeat constructor]. }
        right. split; [reflexivity |]. exists e2. right.
        eexists. split; [| reflexivity].
        rewrite !app_comm_cons. apply last_snoc.
      * rewrite (bind_Panic _ _ _ _ Hlout). discriminate.
    + rewrite (bind_Err _ _ _ (Errorf_w "unable to prepare parcel for storage: " e1))
        by (rewrite wrap_outcome; reflexivity).
      cbn [emitted outcome]. rewrite wrap_emitted. cbn [lift emitted app].
      intros [= <-]. split; [repeat constructor | eauto].
    + rewrite (bind_Panic _ _ _ msg)
        by (rewrite wrap_outcome; reflexivity).
      discriminate.
  - rewrite (bind_Err _ _ _ _ Hhout). cbn [emitted outcome]. rewrite Hhev.
    intros [= <-]. split; [repeat constructor |].
    right. split; [reflexivity |]. exists e0. left. auto.
  - rewrite (bind_Panic _ _ _ _ Hhout). discriminate.
Qed.
End JournalFailure.

(** * Subscribers come and go *)

(** The receivers stopped by the calls, in order. *)
Definition stops (calls : list SubscriberCall)
  : list chanutils.EventReceiver :=
  omap (fun c => match c with
                 | ReceiverStop r => Some r
                 | _ => None
                 end) calls.

Lemma stops_app calls1 calls2 :
  stops (calls1 ++ calls2) = stops calls1 ++ stops calls2.
Proof. apply omap_app. Qed.

(** Every receiver of the map is registered under its own id. *)
Definition keyed (subs : gmap N chanutils.EventReceiver) : Prop :=
  forall id r, subs !! id = Some r -> chanutils.ID r = id.

Section SubscriberSet.
Variable p : ChainPorter.

Lemma stops_setCourierSubscribers subs :
  stops (setCourierSubscribers p subs) = [].
Proof. unfold setCourierSubscribers. destruct (ProofCourier _); reflexivity. Qed.

(** X17.  A receiver registered under an id that was free is found under its
    id; removing it returns nil, stops it and leaves the subscribers as they
    were before the registration; removing it once more returns the
    not-found error, stops nothing, tells the courier nothing and leaves the
    subscribers as they are. *)
Theorem RegisterSubscriber_RemoveSubscriber subs receiver
  deliverExisting deliverFrom :
  subs !! chanutils.ID receiver = None ->
  subscriberResult
    (RegisterSubscriber p subs receiver deliverExisting deliverFrom) = Ok tt
  /\ subscribersAfter
       (RegisterSubscriber p subs receiver deliverExisting deliverFrom)
     !! chanutils.ID receiver = Some receiver
  /\ RemoveSubscriber p
       (subscribersAfter
          (RegisterSubscriber p subs receiver deliverExisting deliverFrom))
       receiver
     = mkSubscriberRun subs
         (ReceiverStop receiver :: setCourierSubscribers p subs) (Ok tt)
  /\ RemoveSubscriber p subs receiver
     = mkSubscriberRun subs []
         (Err (errorNew ("subscriber with ID "
                         +:+ pretty (chanutils.ID receiver)
                         +:+ " not found"))).
Proof.
  intros Hfree. unfold RegisterSubscriber, RemoveSubscriber.
  cbn [subscriberResult subscribersAfter].
  rewrite lookup_insert_eq, Hfree, delete_insert_id by exact Hfree.
  auto.
Qed.

(** X18.  The subscribers are told apart by their id alone.  Registering a
    receiver under an id that is taken replaces the receiver that held it,
    which is not stopped; and [RemoveSubscriber] with a receiver of a
    registered id stops the receiver it is given and drops the entry of the
    id, whichever receiver is registered there. *)
Theorem RegisterSubscriber_replaces subs old new
  deliverExisting deliverFrom :
  subs !! chanutils.ID old = Some old ->
  chanutils.ID new = chanutils.ID old ->
  subscribersAfter
    (RegisterSubscriber p subs new deliverExisting deliverFrom)
  = <[chanutils.ID old := new]> subs
  /\ stops (subscriberCalls
              (RegisterSubscriber p subs new deliverExisting deliverFrom))
     = []
  /\ subscriberResult
       (RemoveSubscriber p
          (subscribersAfter
             (RegisterSubscriber p subs new deliverExisting deliverFrom))
          old)
     = Ok tt
  /\ stops (subscriberCalls
              (RemoveSubscriber p
                 (subscribersAfter
                    (RegisterSubscriber p subs new deliverExisting
                       deliverFrom))
                 old))
     = [old]
  /\ subscribersAfter
       (RemoveSubscriber p
          (subscribersAfter
             (RegisterSubscriber p subs new deliverExisting deliverFrom))
          old)
     !! chanutils.ID new = None.
Proof.
  intros Hold Hid. unfold RegisterSubscriber, RemoveSubscriber.
  cbn [subscriberResult subscribersAfter subscriberCalls].
  rewrite Hid, lookup_insert_eq.
  cbn [subscriberResult subscribersAfter subscriberCalls stops omap list_omap].
  rewrite !stops_setCourierSubscribers, lookup_delete_eq.
  auto.
Qed.

(** X19.  Every receiver is registered under its own id: this holds for the
    subscribers of a new porter, and [RegisterSubscriber] and
    [RemoveSubscriber] keep it. *)
Theorem subscribers_keyed subs receiver deliverExisting deliverFrom :
  keyed subs ->
  keyed (subscribers NewChainPorter)
  /\ keyed (subscribersAfter
              (RegisterSubscriber p subs receiver deliverExisting deliverFrom))
  /\ keyed (subscribersAfter (RemoveSubscriber p subs receiver)).
Proof.
  intros Hk. split; [| split].
  - intros id r Hl. simpl in Hl. rewrite lookup_empty in Hl. discriminate.
  - intros id r. unfold RegisterSubscriber. cbn [subscribersAfter].
    destruct (decide (chanutils.ID receiver = id)) as [<-|Hne].
    + rewrite lookup_insert_eq. intros [= <-]. reflexivity.
    + rewrite lookup_insert_ne by exact Hne. apply Hk.
  - intros id r. unfold RemoveSubscriber.
    destruct (subs !! chanutils.ID receiver); cbn [subscribersAfter];
      [| apply Hk].
    intros Hl. apply lookup_delete_Some in Hl as [_ Hl]. eapply Hk, Hl.
Qed.

Lemma RemoveSubscriber_registered subs subscriber x :
  subs !! chanutils.ID subscriber = Some x ->
  RemoveSubscriber p subs subscriber
  = mkSubscriberRun (delete (chanutils.ID subscriber) subs)
      (ReceiverStop subscriber
         :: setCourierSubscribers p (delete (chanutils.ID subscriber) subs))
      (Ok tt).
Proof. unfold RemoveSubscriber. intros ->. reflexivity. Qed.

Lemma removeSubscribers_all order :
  NoDup order.*1 ->
  (forall id r, (id, r) ∈ order -> chanutils.ID r = id) ->
  subscribersAfter (removeSubscribers p order (list_to_map order)) = ∅
  /\ subscriberResult (removeSubscribers p order (list_to_map order)) = Ok tt
  /\ stops (subscriberCalls (removeSubscribers p order (list_to_map order)))
     = order.*2.
Proof.
  induction order as [|[id r] order IH]; intros Hnd Hk; [auto |].
  cbn [fmap list_fmap fst] in Hnd. apply NoDup_cons in Hnd as [Hnotin Hnd].
  assert (chanutils.ID r = id) as Hid by (apply Hk; left).
  cbn [list_to_map foldr removeSubscribers]. cbn [fst snd].
  rewrite lookup_insert_eq.
  rewrite (RemoveSubscriber_registered _ r r)
    by (rewrite Hid; apply lookup_insert_eq).
  cbn [subscriberResult subscribersAfter subscriberCalls].
  rewrite Hid, delete_insert_id
    by (apply not_elem_of_list_to_map_1; exact Hnotin).
  destruct IH as (IH1 & IH2 & IH3);
    [exact Hnd | intros id' r' Hin; apply Hk; right; exact Hin |].
  split; [exact IH1 |]. split; [exact IH2 |].
  change (ReceiverStop r :: ?l ++ ?l') with ((ReceiverStop r :: l) ++ l').
  rewrite stops_app. cbn [stops omap list_omap].
  fold (stops (setCourierSubscribers p (list_to_map order))).
  rewrite stops_setCourierSubscribers.
  fold (stops (subscriberCalls
                 (removeSubscribers p order (list_to_map order)))).
  rewrite IH3. reflexivity.
Qed.

(** X20.  The first [Stop] closes the quit channel, returns nil and leaves no
    subscriber: whatever the order in which the loop takes them, every
    receiver registered is stopped exactly once, in that order.  Every later
    [Stop] does nothing and returns nil. *)
Theorem Stop_removes_all_subscribers order st :
  stopOnce st = false ->
  keyed (subscribers st) ->
  order ≡ₚ map_to_list (subscribers st) ->
  subscriberResult (Stop p order st).2 = Ok tt
  /\ subscribers (Stop p order st).1 = ∅
  /\ Quit (Stop p order st).1 = true
  /\ stops (subscriberCalls (Stop p order st).2) = order.*2
  /\ forall order',
      Stop p order' (Stop p order st).1
      = ((Stop p order st).1, mkSubscriberRun ∅ [] (Ok tt)).
Proof.
  intros Hs Hk Hperm. unfold Stop at 1 2 3 4. rewrite Hs. cbn [fst snd].
  cbn [subscribers Quit].
  assert (NoDup order.*1) as Hnd.
  { rewrite Hperm. apply NoDup_fst_map_to_list. }
  assert (list_to_map order = subscribers st) as Hmap.
  { rewrite <- (list_to_map_to_list (subscribers st)).
    apply list_to_map_proper; [exact Hnd | exact Hperm]. }
  destruct (removeSubscribers_all order Hnd) as (H1 & H2 & H3).
  { intros id r Hin. apply Hk. apply elem_of_map_to_list.
    rewrite <- Hperm. exact Hin. }
  rewrite Hmap in H1, H2, H3.
  split; [exact H2 |]. split; [exact H1 |]. split; [reflexivity |].
  split; [exact H3 |].
  intros order'. unfold Stop. rewrite Hs. cbn [fst stopOnce subscribers].
  rewrite H1. reflexivity.
Qed.

(** X21.  [Start] runs once.  The first call asks the journal for the
    pending parcels: on an error it returns that error as it is and launches
    nothing; else it launches one resumption per pending parcel, in the
    order of the journal, and then the porter's main goroutine, and adds as
    many to the wait group.  Whatever the first call returned, a later call
    does not ask the journal, launches nothing and returns nil. *)
Theorem Start_once st h h' :
  startOnce st = false ->
  match PendingParcels (cfg_ExportLog (cfg p)) h with
  | Ok pendingParcels =>
      (Start p st h).1.2
      = (GoResumePendingParcel <$> pendingParcels) ++ [GoTaroPorter]
      /\ (Start p st h).2 = Ok tt
      /\ Wg (Start p st h).1.1 = (Wg st + length pendingParcels + 1)%nat
  | Err err => (Start p st h).1.2 = [] /\ (Start p st h).2 = Err err
  | Panic msg => (Start p st h).1.2 = [] /\ (Start p st h).2 = Panic msg
  end
  /\ Start p (Start p st h).1.1 h' = ((Start p st h).1.1, [], Ok tt).
Proof.
  intros Hs. unfold Start. rewrite Hs.
  destruct (PendingParcels _ _) as [parcels|e|msg]; cbn; auto.
Qed.
End SubscriberSet.

(** * The further properties on the scripted porter *)

Import Cases.

(** X1 on the anchored parcel with a chain bridge that refuses its
    transaction: the journal entry is written, the broadcast step fails, and
    the driver sends the error of the bridge to the error channel and
    returns it. *)
Lemma advanceState_reports_error_witness :
  advanceState refusing anchored start = Some refused
  /\ outcome (stateStep refusing logged
                (after start (stateStep refusing anchored start)))
     = Err (errorNew "transaction rejected")
  /\ refused
     = failed_at refusing (emitted (stateStep refusing anchored start) ++ [])
         logged (after start (stateStep refusing anchored start))
         (errorNew "transaction rejected")
  /\ outcome refused = Err (errorNew "transaction rejected")
  /\ last (emitted refused)
     = Some (EvErrChan (errorNew "transaction rejected")).
Proof.
  assert (advanceState refusing anchored start = Some refused) as Hr
      by (vm_compute; reflexivity).
  assert (advances refusing anchored start
            (emitted (stateStep refusing anchored start) ++ [])
            logged (after start (stateStep refusing anchored start))) as Hadv.
  { apply (advances_step refusing anchored start logged);
      [simpl; lia | reflexivity | vm_compute; reflexivity | constructor]. }
  assert (fails_at refusing logged
            (after start (stateStep refusing anchored start))
            (errorNew "transaction rejected")) as Hf.
  { split; [vm_compute; lia |]. split; vm_compute; reflexivity. }
  split; [exact Hr |]. split; [exact (proj2 (proj2 Hf)) |].
  split; [| split; vm_compute; reflexivity].
  exact (proj1 (advanceState_reports_error refusing anchored start refused Hr)
           _ _ _ _ Hadv Hf).
Defined.

(** X10 on a parcel of the journal, resumed by the porter for which
    everything goes well: the run starts with the broadcast step, imports
    the anchor output and publishes the anchor transaction of the parcel. *)
Lemma resumePendingParcel_starts_at_broadcast_witness :
  resumePendingParcel sender stored start = Some restarted
  /\ (exists imps ans rest,
         Forall import_only imps
         /\ emitted restarted
            = EvExecuteSendState SendStateBroadcast
                :: imps ++ EvPublishTransaction anchorTx ans :: rest)
  /\ Forall (resumed_call stored) (emitted restarted).
Proof.
  assert (resumePendingParcel sender stored start = Some restarted) as Hr
      by (vm_compute; reflexivity).
  split; [exact Hr |].
  destruct (resumePendingParcel_starts_at_broadcast sender stored start
              restarted Hr) as [Hfirst (evs & Hevs & Hem)].
  split.
  - destruct (Hfirst eq_refl) as (imps & rest & Himps & Hrun & Hcase).
    destruct Hcase as [(e & He & _)|[(msg & Hmsg & _)|(ans & rest' & -> & _)]].
    + vm_compute in He. discriminate.
    + vm_compute in Hmsg. discriminate.
    + exists imps, ans, rest'. split; [exact Himps | exact Hrun].
  - change (emitted restarted = evs ++ []) in Hem.
    rewrite app_nil_r in Hem. rewrite Hem. exact Hevs.
Defined.

(** X4 on a chain bridge that refuses the transaction of the resumed
    parcel. *)
Lemma stateStep_broadcast_failure_witness :
  outcome (stateStep refusing resumed start)
  = Err (errorNew "transaction rejected")
  /\ responses (emitted (stateStep refusing resumed start)) = [].
Proof.
  assert (outcome (stateStep refusing resumed start)
          = Err (errorNew "transaction rejected")) as Hout
      by (vm_compute; reflexivity).
  split; [exact Hout |].
  exact (proj1 (stateStep_broadcast_failure refusing resumed start _
                  eq_refl Hout)).
Defined.

(** X5 on a parcel signed before. *)
Lemma stateStep_rejects_parcel_witness :
  outcome (stateStep sender preSigned start)
  = Err (errorNew "unable to cast parcel to address parcel").
Proof.
  refine (proj2 (stateStep_rejects_parcel sender preSigned start eq_refl _)).
  intros destAddrs. discriminate.
Defined.

(** X6 on a virtual packet of one output. *)
Lemma stateStep_VirtualSign_bounds_witness :
  emitted (stateStep sender changeOnly start)
  = [EvExecuteSendState SendStateVirtualSign].
Proof.
  refine (proj1 (stateStep_VirtualSign_bounds sender changeOnly start
                   eq_refl _)).
  simpl. lia.
Defined.

(** X7 on an anchor transaction without outputs. *)
Lemma waitForTransferTxConf_panics_witness :
  emitted (waitForTransferTxConf sender waitingBare start) = [].
Proof.
  exact (proj1 (proj1 (waitForTransferTxConf_panics sender waitingBare start
                         bare eq_refl) eq_refl)).
Defined.

(** X8 on a courier that fails for good. *)
Lemma transferReceiverProof_delivery_failure_witness :
  is_Ok (outcome (transferReceiverProof unreachable sealedMerge start)) = false
  /\ Forall delivery_call
       (emitted (transferReceiverProof unreachable sealedMerge start)).
Proof.
  refine (let H := transferReceiverProof_delivery_failure unreachable
                     sealedMerge start failing
                     (parcel 499 [firstInput; secondInput] [passiveAsset 20]
                        true)
                     (errorNew "receiver unreachable") eq_refl eq_refl _
                     eq_refl in
          conj (proj1 H) (proj1 (proj2 H))).
  assert (delivery_answers
            (emitted (transferReceiverProof unreachable sealedMerge start))
          = [Err (errorNew "receiver unreachable")]) as ->
      by (vm_compute; reflexivity).
  left.
Defined.

(** X9 on the merge: the proof of the receiver's output is found. *)
Lemma storeProofs_final_proofs_found_witness :
  lacks_proof sealedMerge receiverOutput = false.
Proof.
  refine (proj1 (proj2
            (storeProofs_final_proofs_found sender merge start sealedMerge
               (parcel 499 [firstInput; secondInput] [passiveAsset 20] true)
               receiverOutput storeProofs_merge eq_refl _ _ _))).
  - discriminate.
  - apply receiverOutput_in_parcel.
  - discriminate.
Defined.

(** X12 on the resumed parcel: the one import is that of the change
    output. *)
Lemma importLocalAddresses_imports_local_outputs_witness :
  Forall2
    (fun out imp =>
       anchor_key holdingWallet (parcel 499 [firstInput] [] true) out imp.1
       /\ import_tolerated imp.2)
    [changeOutput true]
    (imports
       (emitted
          (importLocalAddresses holdingWallet
             (Some (parcel 499 [firstInput] [] true)) start))).
Proof.
  refine (importLocalAddresses_imports_local_outputs holdingWallet
            (parcel 499 [firstInput] [] true) start _).
  vm_compute. reflexivity.
Defined.

(** X13 on an output anchored beyond the anchor transaction. *)
Lemma importLocalAddress_malformed_anchor_witness :
  emitted
    (importLocalAddress sender (parcel 499 [firstInput] [] true) stray start)
  = [].
Proof.
  exact (proj1 (proj1 (importLocalAddress_malformed_anchor sender
                         (parcel 499 [firstInput] [] true) stray start
                         eq_refl) eq_refl)).
Defined.

(** X14 on a confirmation at height 2^31 + 5: the height written to the
    journal is negative. *)
Lemma transferReceiverProof_confirmation_event_witness :
  exists ev,
    last (emitted (transferReceiverProof sender sealedLate start))
    = Some (EvConfirmParcelDelivery ev (Ok tt))
    /\ ace_BlockHeight ev = 5 - 2 ^ 31
    /\ ace_TxIndex ev = 3.
Proof.
  destruct (transferReceiverProof_confirmation_event sender sealedLate start
              (with_SendState SendStateComplete sealedLate) late)
    as (parcel0 & ev & _ & Hlast & _ & _ & Hheight & Hindex).
  - vm_compute. reflexivity.
  - reflexivity.
  - unfold is_uint32. simpl. lia.
  - unfold is_uint32. simpl. lia.
  - exists ev. split; [exact Hlast |].
    split; [rewrite Hheight | rewrite Hindex]; reflexivity.
Defined.

(** X15 on the merge: the file of its passive asset. *)
Lemma transferReceiverProof_passive_files_witness :
  exists ev blob,
    last (emitted (transferReceiverProof sender sealedMerge start))
    = Some (EvConfirmParcelDelivery ev (Ok tt))
    /\ PassiveAssetProofFiles ev
       !! Locator_Hash library (passiveLocator (passiveAsset 20))
       = Some blob.
Proof.
  destruct (transferReceiverProof_passive_files sender sealedMerge start
              (with_SendState SendStateComplete sealedMerge)
              (parcel 499 [firstInput; secondInput] [passiveAsset 20] true)
              (passiveAsset 20))
    as (ev & pa' & blob & Hlast & _ & _ & _ & Hfile).
  - vm_compute. reflexivity.
  - reflexivity.
  - left.
  - exists ev, blob. auto.
Defined.

(** X16 on the parcel that waits, with a confirmation. *)
Lemma waitForTransferTxConf_confirmed_witness :
  outcome (waitForTransferTxConf sender waiting start)
  = Ok (with_SendState SendStateStoreProofs
          (with_TransferTxConfEvent confirmation waiting)).
Proof.
  exact (proj1 (proj2
           (waitForTransferTxConf_confirmed sender waiting start
              (parcel 499 [firstInput] [] true)
              {| wire.Value := 1000; wire.PkScript := [Byte.x51] |} []
              confirmation eq_refl eq_refl eq_refl eq_refl))).
Defined.

(** X17 on a receiver that comes and goes. *)
Lemma RegisterSubscriber_RemoveSubscriber_witness :
  RemoveSubscriber sender
    (subscribersAfter
       (RegisterSubscriber sender {[ 9%N := logger ]} viewer false false))
    viewer
  = mkSubscriberRun {[ 9%N := logger ]}
      [ReceiverStop viewer; CourierSetSubscribers {[ 9%N := logger ]}] (Ok tt).
Proof.
  refine (proj1 (proj2 (proj2
            (RegisterSubscriber_RemoveSubscriber sender {[ 9%N := logger ]}
               viewer false false _)))).
  reflexivity.
Defined.

(** X18 on two receivers of one id. *)
Lemma RegisterSubscriber_replaces_witness :
  stops (subscriberCalls
           (RemoveSubscriber sender
              (subscribersAfter
                 (RegisterSubscriber sender {[ 7%N := viewer ]} impostor false
                    false))
              viewer))
  = [viewer]
  /\ subscribersAfter
       (RemoveSubscriber sender
          (subscribersAfter
             (RegisterSubscriber sender {[ 7%N := viewer ]} impostor false false))
          viewer)
     !! chanutils.ID impostor = None.
Proof.
  exact (proj2 (proj2 (proj2
           (RegisterSubscriber_replaces sender {[ 7%N := viewer ]} viewer impostor
              false false eq_refl eq_refl)))).
Defined.

(** X19 on the first registration with a new porter. *)
Lemma subscribers_keyed_witness :
  keyed (subscribersAfter
           (RegisterSubscriber sender (subscribers NewChainPorter) viewer
              false false)).
Proof.
  refine (proj1 (proj2
            (subscribers_keyed sender (subscribers NewChainPorter) viewer
               false false _))).
  intros id r Hl. discriminate Hl.
Defined.

Lemma running_keyed : keyed (subscribers running).
Proof.
  intros id r Hl. apply elem_of_map_to_list in Hl.
  assert (map_to_list (subscribers running) = [(9%N, logger); (7%N, viewer)])
    as Hlist by (vm_compute; reflexivity).
  rewrite Hlist in Hl.
  apply elem_of_cons in Hl as [[= -> ->]|Hl]; [reflexivity |].
  apply list_elem_of_singleton in Hl as [= -> ->]. reflexivity.
Qed.

(** X20 on a running porter with two subscribers. *)
Lemma Stop_removes_all_subscribers_witness :
  subscribers (Stop sender (map_to_list (subscribers running)) running).1 = ∅
  /\ stops
       (subscriberCalls
          (Stop sender (map_to_list (subscribers running)) running).2)
     = (map_to_list (subscribers running)).*2.
Proof.
  refine (let H := Stop_removes_all_subscribers sender
                     (map_to_list (subscribers running)) running eq_refl
                     running_keyed _ in
          conj (proj1 (proj2 H)) (proj1 (proj2 (proj2 (proj2 H))))).
  reflexivity.
Defined.

(** X21 on a journal that cannot be read: the error of the first [Start],
    and the silence of the second. *)
Lemma Start_once_witness :
  ((Start unreadable NewChainPorter []).1.2 = []
   /\ (Start unreadable NewChainPorter []).2
      = Err (errorNew "database is locked"))
  /\ Start unreadable (Start unreadable NewChainPorter []).1.1 []
     = ((Start unreadable NewChainPorter []).1.1, [], Ok tt).
Proof.
  exact (Start_once unreadable NewChainPorter [] [] eq_refl).
Defined.

(** X22 on a journal that answers with a backoff error: the error of the
    step is text. *)
Lemma stateStep_LogCommit_failure_witness :
  outcome (stateStep fullDisk anchored start)
  = Err (errorNew "unable to write send pkg to disk: disk full, try later")
  /\ Forall not_journaled (emitted (stateStep fullDisk anchored start)).
Proof.
  assert (outcome (stateStep fullDisk anchored start)
          = Err (errorNew
                   "unable to write send pkg to disk: disk full, try later"))
    as Hout by (vm_compute; reflexivity).
  split; [exact Hout |].
  exact (proj1 (stateStep_LogCommit_failure fullDisk anchored start _
                  eq_refl Hout)).
Defined.
